(** * Trivial compiler equivalence of mutants

    A shallow embedding of the two scripts of the repository:
    - [tce.py]: the fingerprint indexer and the equivalence classifier
      ([run_tce], [read_name_tuple_from_root], [progress]);
    - [compare_equiv_files.py]: the comparator of two equivalence files
      ([main]).

    Python values are modelled as follows.  A [str] is a [string] (a
    list of 8-bit characters, compared by code, as Python compares code
    points), [bytes] are [list Byte.byte], Python integers are [Z] or,
    where they count things, [nat].  A Python [set] of strings that is
    only tested for membership and size is a [gset string]; a set that
    the program iterates over is the list of its members in iteration
    order.  A [dict] that the program iterates over is an association
    list in insertion order ([PyDict]); a [dict] that is only looked up
    is a [gmap].  Set objects that are reachable from two places (the
    two-level table and the list of non-singleton classes of [run_tce])
    live in an explicit heap and are referred to by their location.
    A raised exception is the [Raise] case of [result].

    The directories on disk are trees of regular files and directories
    (no links); file names and ids are ASCII.  What the scripts print
    or write to files is the value the models return; the text of the
    progress bar is left out. *)

From Stdlib Require Import ZArith Lia Strings.Ascii Strings.Byte.
From Stdlib Require String.
From stdpp Require Import base tactics option list sorting gmap strings.

#[local] Set Warnings "-register-all,-clear-no-such-hyp".

(** ** Exceptions *)

Inductive exn := FileNotFoundError | KeyError | ZeroDivisionError.

Inductive result (A : Type) := Ok (a : A) | Raise (e : exn).
Arguments Ok {A} a.
Arguments Raise {A} e.

Global Instance result_ret : MRet result := λ A, Ok.
Global Instance result_bind : MBind result :=
  λ A B f m, match m with Ok a => f a | Raise e => Raise e end.

(** A [for] loop whose body may raise: the first exception ends it. *)
Fixpoint for_each {A S : Type} (body : A → S → result S) (l : list A) (s : S)
  : result S :=
  match l with
  | [] => Ok s
  | x :: l' => s' ← body x s; for_each body l' s'
  end.

(** [enumerate(l)] *)
Definition enumerate {A : Type} (l : list A) : list (nat * A) :=
  zip (seq 0 (length l)) l.

(** ** Bytes as keys *)

Global Instance byte_eq_dec : EqDecision Byte.byte := Byte.byte_eq_dec.
Global Instance byte_countable : Countable Byte.byte :=
  inj_countable Byte.to_N Byte.of_N Byte.of_to_N.

(** ** Insertion-ordered dictionaries *)

Module PyDict.
Section dict.
Context {K V : Type} `{EqDecision K}.

(** [d.get(k)], [None] when [k not in d] *)
Fixpoint get (k : K) (d : list (K * V)) : option V :=
  match d with
  | [] => None
  | (k', v) :: d' => if decide (k = k') then Some v else get k d'
  end.

(** [d[k] = v]: an existing key keeps its position, a new key goes last *)
Fixpoint setitem (k : K) (v : V) (d : list (K * V)) : list (K * V) :=
  match d with
  | [] => [(k, v)]
  | (k', v') :: d' =>
      if decide (k = k') then (k, v) :: d' else (k', v') :: setitem k v d'
  end.

(** [d.setdefault(k, v)]: the value found or stored, and the dictionary *)
Definition setdefault (k : K) (v : V) (d : list (K * V)) : V * list (K * V) :=
  match get k d with
  | Some x => (x, d)
  | None => (v, setitem k v d)
  end.

(** the keys, in iteration order *)
Definition keys (d : list (K * V)) : list K := d.*1.
End dict.
End PyDict.

(** ** tce.py *)

Module Tce.

(** *** The compiled trees on disk

    A directory holds regular files with their contents and
    subdirectories, both in the order in which the system lists them. *)
Inductive tree :=
  Dir (files : list (string * list Byte.byte)) (dirs : list (string * tree)).

Definition files (t : tree) : list (string * list Byte.byte) :=
  match t with Dir fs _ => fs end.
Definition dirs (t : tree) : list (string * tree) :=
  match t with Dir _ ds => ds end.

(** the entry called [n] of a directory listing *)
Fixpoint entry {A : Type} (n : string) (l : list (string * A)) : option A :=
  match l with
  | [] => None
  | (n', a) :: l' => if decide (n = n') then Some a else entry n l'
  end.

(** [os.walk(top)], top-down: one triple per directory, the directory
    itself before its subdirectories.  [dirpath] is kept as the list of
    the directory names between [top] and the directory. *)
Fixpoint os_walk (dirpath : list string) (t : tree)
  : list (list string * list string * list string) :=
  match t with
  | Dir fs ds =>
      (dirpath, ds.*1, fs.*1)
        :: flat_map (λ nd, os_walk (dirpath ++ [nd.1]) nd.2) ds
  end.

(** [os.path.relpath(dirpath, root)] for a [dirpath] of the walk of
    [root]: ["."] for [root] itself, the names joined by ["/"] below. *)
Definition os_path_relpath (dirpath : list string) : string :=
  match dirpath with
  | [] => "."
  | _ => String.concat "/" dirpath
  end.

Fixpoint endswith_sep (s : string) : bool :=
  match s with
  | "" => false
  | String c "" => bool_decide (c = "/"%char)
  | String _ s' => endswith_sep s'
  end.

Definition startswith_sep (s : string) : bool :=
  match s with
  | String c _ => bool_decide (c = "/"%char)
  | "" => false
  end.

(** [os.path.join(a, b)] (posixpath) *)
Definition os_path_join (a b : string) : string :=
  if startswith_sep b then b
  else if bool_decide (a = "") || endswith_sep a then a +:+ b
  else a +:+ "/" +:+ b.

(** [sorted(filenames)]: the order of [str] is the lexicographic order
    of the character codes, a total order, so the sorted list does not
    depend on the sorting algorithm. *)
Definition sorted (l : list string) : list string := merge_sort String.le l.

(** [path.split("/")] *)
Fixpoint split_sep (s : string) : list string :=
  match s with
  | "" => [""]
  | String c s' =>
      if decide (c = "/"%char) then "" :: split_sep s'
      else match split_sep s' with
           | [] => [String c ""]
           | h :: t => String c h :: t
           end
  end.

(** How the system resolves the components of a path below a
    directory: [""] and ["."] stay in the directory, the last other
    component names a regular file. *)
Fixpoint resolve (comps : list string) (t : tree) : option (list Byte.byte) :=
  match comps with
  | [] => None
  | c :: rest =>
      if decide (c = "" ∨ c = ".") then resolve rest t
      else match rest with
           | [] => entry c (files t)
           | _ => match entry c (dirs t) with
                  | Some d => resolve rest d
                  | None => None
                  end
           end
  end.

(** [open(os.path.join(root, name), mode='rb').read()] *)
Definition open_read (root : tree) (name : string) : result (list Byte.byte) :=
  match resolve (split_sep name) root with
  | Some b => Ok b
  | None => Raise FileNotFoundError
  end.

Definition read_name_tuple_from_root (name_tuple : list string) (root : tree)
  : result (list (list Byte.byte)) :=
  mapM (open_read root) name_tuple.

(** *** progress

    Only whether the call returns is modelled; the text of the bar goes
    to the terminal.  [100*done/total] and [(bar_width*done)//total]
    divide by [total]. *)
Definition progress (done total increment : nat) : result unit :=
  if decide (increment = 0) then Raise ZeroDivisionError
  else if decide (done `mod` increment ≠ 0) then Ok ()
  else if decide (total = 0) then Raise ZeroDivisionError
  else Ok ().

(** *** The state of run_tce

    [heap] holds the set objects; [hashes] maps a name tuple to a
    dictionary from contents tuples to the location of a set;
    [nonsingleton_equivalence_classes] is a list of locations. *)
Record state := State {
  heap : list (gset string);
  hashes : list (list string * gmap (list (list Byte.byte)) nat);
  nonsingleton_equivalence_classes : list nat
}.

Definition init : state := State [] [] [].

(** the set object at a location *)
Definition deref (st : state) (l : nat) : gset string :=
  default ∅ (heap st !! l).

(** Steps 1f and 1g, and the body of step 2:
    [eq_class = d.setdefault(contents_tuple, set())], [eq_class.add(mid)],
    and the append when [len(eq_class) == 2].  [d] is the dictionary
    stored under [name_tuple]; it is updated in place. *)
Definition class_add (name_tuple : list string)
    (d : gmap (list (list Byte.byte)) nat)
    (contents_tuple : list (list Byte.byte)) (mid : string) (st : state)
  : state :=
  let '(l, hp, d') :=
    match d !! contents_tuple with
    | Some l => (l, heap st, d)
    | None =>
        (length (heap st), heap st ++ [∅],
         <[contents_tuple := length (heap st)]> d)
    end in
  let hp' := alter (λ eq_class, {[mid]} ∪ eq_class) l hp in
  State hp'
    (PyDict.setitem name_tuple d' (hashes st))
    (if decide (size (default ∅ (hp' !! l)) = 2)
     then nonsingleton_equivalence_classes st ++ [l]
     else nonsingleton_equivalence_classes st).

(** Steps 1b to 1g for one triple of the walk of a mutant. *)
Definition index_level (root : tree) (mid : string)
    (level : list string * list string * list string) (st : state)
  : result state :=
  let '(dirpath, _, filenames) := level in
  if decide (filenames = []) then Ok st
  else
    let relpath := os_path_relpath dirpath in
    let name_tuple := os_path_join relpath <$> sorted filenames in
    let '(d, hs) := PyDict.setdefault name_tuple ∅ (hashes st) in
    contents_tuple ← read_name_tuple_from_root name_tuple root;
    Ok (class_add name_tuple d contents_tuple mid
          (State (heap st) hs (nonsingleton_equivalence_classes st))).

(** The body of the loop over the mutants; [root] is the directory
    [os.path.join(mutants, mid)]. *)
Definition index_mutant (num_mutants : nat) (imid : nat * (string * tree))
    (st : state) : result state :=
  let '(i, (mid, root)) := imid in
  st' ← for_each (index_level root mid) (os_walk [] root) st;
  _ ← progress (i + 1) num_mutants 5;
  Ok st'.

(** The loop of step 1.  [mids = next(os.walk(mutants))[1]] are the
    names of the subdirectories of an existing directory [mutants]. *)
Definition index_mutants (mutants : tree) (st : state) : result state :=
  for_each (index_mutant (length (dirs mutants))) (enumerate (dirs mutants)) st.

(** The body of the loop of step 2. *)
Definition baseline_step (program : tree) (num_name_tuples : nat)
    (ikey : nat * list string) (st : state) : result state :=
  let '(i, name_tuple) := ikey in
  contents_tuple ← read_name_tuple_from_root name_tuple program;
  d ← match PyDict.get name_tuple (hashes st) with
      | Some d => Ok d
      | None => Raise KeyError
      end;
  let st' := class_add name_tuple d contents_tuple "0" st in
  _ ← progress (i + 1) num_name_tuples 5;
  Ok st'.

Definition baseline_pass (program : tree) (st : state) : result state :=
  for_each (baseline_step program (length (hashes st)))
           (enumerate (PyDict.keys (hashes st))) st.

(** *** The result *)

Record ClassificationResult := {
  all_equivalences : list (gset string);
  equivalent_mutants : list (gset string);
  redundant_mutants : list (gset string);
  num_total_equivalences : Z;
  num_equiv_mutants : Z;
  num_redundant_mutants : Z
}.

(** [sum([len(x) for x in classes]) - len(classes)] *)
Definition count_duplicates (classes : list (gset string)) : Z :=
  (Z.of_nat (sum_list (size <$> classes)) - Z.of_nat (length classes))%Z.

(** Lines 142 to 167: the sets are read through their locations, once
    both loops are over. *)
Definition summarize (st : state) : ClassificationResult :=
  let classes := deref st <$> nonsingleton_equivalence_classes st in
  let equivalent := filter (λ x, "0" ∈ x) classes in
  let redundant := filter (λ x, "0" ∉ x) classes in
  {| all_equivalences := classes;
     equivalent_mutants := equivalent;
     redundant_mutants := redundant;
     num_total_equivalences := count_duplicates classes;
     num_equiv_mutants := count_duplicates equivalent;
     num_redundant_mutants := count_duplicates redundant |}.

(** Both loops with the calls of [progress] that follow them. *)
Definition tce_loops (mutants program : tree) : result state :=
  let num_mutants := length (dirs mutants) in
  st1 ← index_mutants mutants init;
  _ ← progress num_mutants num_mutants 1;
  let num_name_tuples := length (hashes st1) in
  st2 ← baseline_pass program st1;
  _ ← progress num_name_tuples num_name_tuples 1;
  Ok st2.

Definition run_tce (mutants program : tree) : result ClassificationResult :=
  st ← tce_loops mutants program;
  Ok (summarize st).

(** *** The insertions of a run

    One insertion puts the id [mid] into the class found under a name
    tuple and a contents tuple: step 1d followed by steps 1f and 1g.
    Step 2 is the same insertion for the id ["0"], at a name tuple that
    is a key of [hashes]. *)
Definition event : Type := list string * list (list Byte.byte) * string.

Definition register (e : event) (st : state) : state :=
  let '(name_tuple, contents_tuple, mid) := e in
  let '(d, hs) := PyDict.setdefault name_tuple ∅ (hashes st) in
  class_add name_tuple d contents_tuple mid
    (State (heap st) hs (nonsingleton_equivalence_classes st)).

Definition replay (evs : list event) (st : state) : state :=
  foldl (λ st e, register e st) st evs.

(** Step 1c: the name tuple of a directory of a mutant. *)
Definition level_name_tuple (dirpath filenames : list string) : list string :=
  os_path_join (os_path_relpath dirpath) <$> sorted filenames.

(** The insertion made for one triple of the walk of a mutant. *)
Definition level_events (root : tree) (mid : string)
    (level : list string * list string * list string) : result (list event) :=
  let '(dirpath, _, filenames) := level in
  if decide (filenames = []) then Ok []
  else
    let name_tuple := level_name_tuple dirpath filenames in
    contents_tuple ← read_name_tuple_from_root name_tuple root;
    Ok [(name_tuple, contents_tuple, mid)].

Definition mutant_events (midroot : string * tree) : result (list event) :=
  evss ← mapM (level_events midroot.2 midroot.1) (os_walk [] midroot.2);
  Ok (concat evss).

Definition index_events (mutants : tree) : result (list event) :=
  evss ← mapM mutant_events (dirs mutants);
  Ok (concat evss).

(** The insertion made for one key in step 2. *)
Definition baseline_event (program : tree) (name_tuple : list string)
  : result (list event) :=
  contents_tuple ← read_name_tuple_from_root name_tuple program;
  Ok [(name_tuple, contents_tuple, "0")].

Definition baseline_events (program : tree) (st : state) : result (list event) :=
  evss ← mapM (baseline_event program) (PyDict.keys (hashes st));
  Ok (concat evss).

(** The name tuple and the id of an insertion. *)
Definition event_tag (e : event) : list string * string := (e.1.1, e.2).

(** *** Reading the state *)

(** the location of the class under a name tuple and a contents tuple *)
Definition lookup_class (st : state) (name_tuple : list string)
    (contents_tuple : list (list Byte.byte)) : option nat :=
  d ← PyDict.get name_tuple (hashes st); d !! contents_tuple.

(** the members of that class, none when there is no such class *)
Definition members (st : state) (name_tuple : list string)
    (contents_tuple : list (list Byte.byte)) : gset string :=
  from_option (deref st) ∅ (lookup_class st name_tuple contents_tuple).

(** the location an insertion under a name tuple and a contents tuple
    writes to: that of the class when there is one, a new one otherwise *)
Definition insertion_loc (st : state) (name_tuple : list string)
    (contents_tuple : list (list Byte.byte)) : nat :=
  default (length (heap st)) (lookup_class st name_tuple contents_tuple).

(** What holds of every state that insertions reach: the locations of
    the table are allocated and distinct, every allocated set is in the
    table, the list holds the locations of the sets of two members or
    more, and the keys of [hashes] are distinct. *)
Record inv (st : state) : Prop := {
  inv_bound : ∀ nt ct l, lookup_class st nt ct = Some l → l < length (heap st);
  inv_inj : ∀ nt ct nt' ct' l,
    lookup_class st nt ct = Some l → lookup_class st nt' ct' = Some l →
    nt = nt' ∧ ct = ct';
  inv_surj : ∀ l, l < length (heap st) → ∃ nt ct, lookup_class st nt ct = Some l;
  inv_ns : ∀ l,
    l ∈ nonsingleton_equivalence_classes st ↔ 2 ≤ size (deref st l);
  inv_keys : NoDup (PyDict.keys (hashes st))
}.

(** *** Notions of the specification *)

(** [Σ (|class| - 1)] over a collection of classes *)
Definition sum_duplicates (classes : list (gset string)) : Z :=
  foldr (λ c acc, (Z.of_nat (size c) - 1 + acc)%Z) 0%Z classes.

(** The files of a directory, with their contents, in the order of their
    sorted names. *)
Definition sorted_files (fs : list (string * list Byte.byte))
  : list (string * list Byte.byte) :=
  (λ n, (n, default [] (entry n fs))) <$> sorted fs.*1.

(** The components of [os.path.relpath] of a directory of the walk. *)
Definition relpath_comps (dirpath : list string) : list string :=
  if decide (dirpath = []) then ["."] else dirpath.

(** *** Trees as a file system presents them

    The names of a directory are distinct, not empty, not ["."] or
    [".."], and without ["/"]. *)
Fixpoint has_sep (s : string) : bool :=
  match s with
  | EmptyString => false
  | String c s' => bool_decide (c = "/"%char) || has_sep s'
  end.

Definition valid_name (n : string) : bool :=
  negb (bool_decide (n = "")) && negb (bool_decide (n = "."))
  && negb (bool_decide (n = "..")) && negb (has_sep n).

Fixpoint wf_tree (t : tree) : bool :=
  match t with
  | Dir fs ds =>
      bool_decide (NoDup fs.*1) && bool_decide (NoDup ds.*1)
      && forallb valid_name fs.*1 && forallb valid_name ds.*1
      && forallb (λ nd, wf_tree nd.2) ds
  end.

(** [subdir rel t t']: [t'] is the directory reached from [t] through
    the names [rel]. *)
Inductive subdir : list string → tree → tree → Prop :=
  | subdir_here t : subdir [] t t
  | subdir_below n d rel t t' :
      (n, d) ∈ dirs t → subdir rel d t' → subdir (n :: rel) t t'.

(** *** The files written and the bar

    Lines 145 to 158 write one line for each class: the members of the
    set in the order in which it is iterated, joined by spaces, then an
    end of line.  A file is modelled by its contents. *)
Definition write_lines (classes : list (list string)) : string :=
  foldr (λ eq_class rest,
           String.concat " " eq_class +:+ String "010" rest) "" classes.

(** [ls] gives, for each set of the list, one order in which the set
    can be iterated. *)
Definition iterations (classes : list (gset string)) (ls : list (list string))
  : Prop :=
  Forall2 (λ c l, l ≡ₚ elements c) classes ls.

(** The contents of [all-equivalences.txt], [equivalent-mutants.txt]
    and [redundant-mutants.txt], when the sets of
    [nonsingleton_equivalence_classes] are iterated in the orders [ls];
    a set in two of the lists is the same object and is iterated in the
    same order both times. *)
Definition output_files (r : ClassificationResult) (ls : list (list string))
  : string * string * string :=
  let both := zip (all_equivalences r) ls in
  (write_lines ls,
   write_lines (filter (λ cl, "0" ∈ cl.1) both).*2,
   write_lines (filter (λ cl, "0" ∉ cl.1) both).*2).

(** ['#' * n]: no character when [n] is not positive *)
Definition str_repeat (c : ascii) (n : Z) : string :=
  Nat.iter (Z.to_nat n) (String c) "".

(** Lines 172 to 176 of [progress]: the bar, for the text [summary]
    that line 171 formats (its last field is a float and is taken as
    given here). *)
Definition progress_bar (summary : string) (done total width : Z) : string :=
  let summary_width := Z.of_nat (String.length summary) in
  let bar_width := (width - summary_width - 2)%Z in
  let blocks_width := ((bar_width * done) `div` total)%Z in
  let spaces_width := (bar_width - blocks_width)%Z in
  String "013" (String "[" (str_repeat "#" blocks_width
    +:+ str_repeat " " spaces_width +:+ String "]" summary)).

(** A name tuple that a directory of a mutant gives: the directory
    holds at least one file. *)
Definition artifact_level (mutants : tree) (name_tuple : list string) : Prop :=
  ∃ mid root rel level,
    (mid, root) ∈ dirs mutants ∧ subdir rel root level ∧ files level ≠ []
    ∧ name_tuple = level_name_tuple rel (files level).*1.

(** *** A run on small trees *)

(** A tree of two mutants; the first has files in two directories. *)
Definition two_level_mutants : tree :=
  Dir [] [("1", Dir [("A.class", [Byte.x01])]
                    [("pkg", Dir [("C.class", [Byte.x03]);
                                  ("B.class", [Byte.x02])] [])]);
          ("2", Dir [("A.class", [Byte.x01])]
                    [("pkg", Dir [("C.class", [Byte.x03]);
                                  ("B.class", [Byte.x07])] [])])].

(** The tree of the original program for these mutants. *)
Definition two_level_program : tree :=
  Dir [("A.class", [Byte.x01])]
      [("pkg", Dir [("B.class", [Byte.x09]); ("C.class", [Byte.x03])] [])].

(** The insertions of the run on these trees: those of the loop over
    the mutants, then those of the loop over the keys. *)
Definition two_level_index_events : list event :=
  [(["./A.class"], [[Byte.x01]], "1");
   (["pkg/B.class"; "pkg/C.class"], [[Byte.x02]; [Byte.x03]], "1");
   (["./A.class"], [[Byte.x01]], "2");
   (["pkg/B.class"; "pkg/C.class"], [[Byte.x07]; [Byte.x03]], "2")].

Definition two_level_baseline_events : list event :=
  [(["./A.class"], [[Byte.x01]], "0");
   (["pkg/B.class"; "pkg/C.class"], [[Byte.x09]; [Byte.x03]], "0")].

(** A mutant whose directories hold no file. *)
Definition empty_mutants : tree := Dir [] [("1", Dir [] [("pkg", Dir [] [])])].

End Tce.

(** ** compare_equiv_files.py *)

Module Comparator.

(** [str.isspace] on the characters of ASCII; the ids of the files are
    ASCII tokens. *)
Definition isspace (c : ascii) : bool :=
  match c with
  | "009" | "010" | "011" | "012" | "013"
  | "028" | "029" | "030" | "031" | " " => true
  | _ => false
  end%char.

Fixpoint lstrip (s : string) : string :=
  match s with
  | String c s' => if isspace c then lstrip s' else s
  | EmptyString => EmptyString
  end.

(** [x.strip()] *)
Definition strip (s : string) : string :=
  String.rev (lstrip (String.rev (lstrip s))).

Fixpoint split_go (cur : option string) (s : string) : list string :=
  match s with
  | EmptyString => option_list cur
  | String c s' =>
      if isspace c then option_list cur ++ split_go None s'
      else split_go (Some (default "" cur +:+ String c "")) s'
  end.

(** [x.split()]: the maximal runs of characters that are not spaces *)
Definition split (s : string) : list string := split_go None s.

(** [[x.strip().split() for x in f if x.strip()]], [f] the lines of a file *)
Definition read_equivs (f : list string) : list (list string) :=
  (λ x, split (strip x)) <$> filter (λ x, strip x ≠ "") f.

(** What a visit prints for a class: the class alone, or the class and
    the list of the classes found for it in the other file. *)
Inductive report :=
  | Alone (ec : list string)
  | Both (ec : list string) (found : list (list string)).

Section main.
(** [set(equiv_class)]: the new set object, as the list of its members
    in the order in which it is iterated. *)
Variable py_set : list string → list string.

(** [for elem in equiv_class: mid_map[elem] = set(equiv_class)] *)
Definition map_class (mid_map : list (string * list string))
    (equiv_class : list string) : list (string * list string) :=
  foldl (λ m elem, PyDict.setitem elem (py_set equiv_class) m)
        mid_map equiv_class.

Definition build_mid_map (equivs : list (list string))
  : list (string * list string) :=
  foldl map_class [] equivs.

(** [mids], after both loops and the removal of ['0'] *)
Definition collect_mids (equivs1 equivs2 : list (list string)) : gset string :=
  let mids := foldl (λ mids ec, mids ∪ list_to_set ec) ∅ equivs1 in
  let mids := foldl (λ mids ec, mids ∪ list_to_set ec) mids equivs2 in
  if decide ("0" ∈ mids) then mids ∖ {["0"]} else mids.

(** Lines 59 to 68: the loop over the members of [ec1] that fills
    [equiv_classes_2]; the state is [(nested_visited, equiv_classes_2)]. *)
Definition find_step (mid_map_2 : list (string * list string))
    (acc : gset string * list (list string)) (m : string)
  : gset string * list (list string) :=
  let '(nested_visited, equiv_classes_2) := acc in
  if decide (m ∈ nested_visited) then acc
  else match PyDict.get m mid_map_2 with
       | None => acc
       | Some ec2 =>
           (nested_visited ∪ list_to_set ec2, equiv_classes_2 ++ [ec2])
       end.

Definition find_classes (mid_map_2 : list (string * list string))
    (ec1 : list string) : list (list string) :=
  (foldl (find_step mid_map_2) (∅, []) ec1).2.

(** Lines 51 to 74.  The state of the loop is [(visited, printed)]. *)
Definition visit_step_1 (mid_map_1 mid_map_2 : list (string * list string))
    (acc : gset string * list report) (mid : string)
  : gset string * list report :=
  let '(visited, printed) := acc in
  if decide (mid ∈ visited) then acc
  else match PyDict.get mid mid_map_1 with
       | None => acc
       | Some ec1 =>
           let visited := visited ∪ list_to_set ec1 in
           let equiv_classes_2 := find_classes mid_map_2 ec1 in
           if decide (length equiv_classes_2 ≠ 1)
           then (visited, printed ++ [Alone ec1])
           else if decide (ec1 ⊆ default [] (head equiv_classes_2))
                then (visited, printed)
                else (visited, printed ++ [Both ec1 equiv_classes_2])
       end.

Definition visit_file_1 (mid_map_1 mid_map_2 : list (string * list string))
  : list report :=
  (foldl (visit_step_1 mid_map_1 mid_map_2) ({["0"]}, [])
         (PyDict.keys mid_map_1)).2.

(** Lines 86 to 95: the same loop in the visit of file 2, where the
    variable [ec2] that holds the class being visited is assigned
    again in the body.  The loop still runs over the members of the
    class it started with; the state is
    [(ec2, nested_visited, equiv_classes_1)]. *)
Definition find_step_2 (mid_map_1 : list (string * list string))
    (acc : list string * gset string * list (list string)) (m : string)
  : list string * gset string * list (list string) :=
  let '(ec2, nested_visited, equiv_classes_1) := acc in
  if decide (m ∈ nested_visited) then acc
  else match PyDict.get m mid_map_1 with
       | None => acc
       | Some ec2' =>
           (ec2', nested_visited ∪ list_to_set ec2', equiv_classes_1 ++ [ec2'])
       end.

(** Lines 78 to 101. *)
Definition visit_step_2 (mid_map_1 mid_map_2 : list (string * list string))
    (acc : gset string * list report) (mid : string)
  : gset string * list report :=
  let '(visited, printed) := acc in
  if decide (mid ∈ visited) then acc
  else match PyDict.get mid mid_map_2 with
       | None => acc
       | Some ec2 =>
           let visited := visited ∪ list_to_set ec2 in
           let '(ec2, _, equiv_classes_1) :=
             foldl (find_step_2 mid_map_1) (ec2, ∅, []) ec2 in
           if decide (length equiv_classes_1 ≠ 1)
           then (visited, printed ++ [Alone ec2])
           else if decide (ec2 ⊆ default [] (head equiv_classes_1))
                then (visited, printed)
                else (visited, printed ++ [Both ec2 equiv_classes_1])
       end.

Definition visit_file_2 (mid_map_1 mid_map_2 : list (string * list string))
  : list report :=
  (foldl (visit_step_2 mid_map_1 mid_map_2) ({["0"]}, [])
         (PyDict.keys mid_map_2)).2.

(** [main], on the lines of the two files: what the visit of file 1
    and the visit of file 2 print below their headers. *)
Definition main (f1 f2 : list string) : list report * list report :=
  let equivs1 := read_equivs f1 in
  let equivs2 := read_equivs f2 in
  let mid_map_1 := build_mid_map equivs1 in
  let mid_map_2 := build_mid_map equivs2 in
  (visit_file_1 mid_map_1 mid_map_2, visit_file_2 mid_map_1 mid_map_2).
End main.

(** *** The files read

    [f.readlines()] on a file opened for reading text: ["\n"], ["\r"]
    and ["\r\n"] end a line and are read as ["\n"]; the last line may
    have no end. *)
Fixpoint readlines_go (cur : option string) (s : string) : list string :=
  match s with
  | EmptyString => option_list cur
  | String c s' =>
      if decide (c = "010"%char)
      then (default "" cur +:+ String "010" "") :: readlines_go None s'
      else if decide (c = "013"%char)
      then (default "" cur +:+ String "010" "")
             :: match s' with
                | String c' s'' =>
                    if decide (c' = "010"%char) then readlines_go None s''
                    else readlines_go None s'
                | EmptyString => readlines_go None s'
                end
      else readlines_go (Some (default "" cur +:+ String c "")) s'
  end.

Definition readlines (contents : string) : list string :=
  readlines_go None contents.

(** [main] on the contents of the two files (lines 25 to 28). *)
Definition main_on_files (py_set : list string → list string)
    (contents1 contents2 : string) : list report * list report :=
  main py_set (readlines contents1) (readlines contents2).

(** An id that a line can hold: not empty and without a space. *)
Fixpoint no_space (s : string) : bool :=
  match s with
  | EmptyString => true
  | String c s' => negb (isspace c) && no_space s'
  end.

Definition token (s : string) : bool :=
  negb (bool_decide (s = "")) && no_space s.

(** What the visit of file 2 prints for a class (lines 86 to 101). *)
Definition verdict_2 (mid_map_1 : list (string * list string))
    (ec2 : list string) : list report :=
  let '(ec2, _, equiv_classes_1) :=
    foldl (find_step_2 mid_map_1) (ec2, ∅, []) ec2 in
  if decide (length equiv_classes_1 ≠ 1) then [Alone ec2]
  else if decide (ec2 ⊆ default [] (head equiv_classes_1)) then []
       else [Both ec2 equiv_classes_1].

(** The body of a visit, for what it prints for a class. *)
Definition visit_step (verdict : list string → list report)
    (mid_map : list (string * list string))
    (acc : gset string * list report) (mid : string)
  : gset string * list report :=
  if decide (mid ∈ acc.1) then acc
  else match PyDict.get mid mid_map with
       | None => acc
       | Some ec => (acc.1 ∪ list_to_set ec, acc.2 ++ verdict ec)
       end.

(** A string without an end of line. *)
Fixpoint no_eol (s : string) : bool :=
  match s with
  | EmptyString => true
  | String c s' =>
      negb (bool_decide (c = "010"%char)) && negb (bool_decide (c = "013"%char))
      && no_eol s'
  end.

(** A string of spaces only. *)
Fixpoint blank (s : string) : bool :=
  match s with
  | EmptyString => true
  | String c s' => isspace c && blank s'
  end.

(** What the visit of file 1 prints for a class (lines 70 to 74). *)
Definition verdict_1 (mid_map_2 : list (string * list string))
    (ec1 : list string) : list report :=
  let equiv_classes_2 := find_classes mid_map_2 ec1 in
  if decide (length equiv_classes_2 ≠ 1) then [Alone ec1]
  else if decide (ec1 ⊆ default [] (head equiv_classes_2)) then []
       else [Both ec1 equiv_classes_2].

(** *** Notions of the specification *)

(** The classes of a file are pairwise disjoint. *)
Fixpoint pairwise_disjoint (equivs : list (list string)) : Prop :=
  match equivs with
  | [] => True
  | ec :: rest => Forall (λ ec', ec ## ec') rest ∧ pairwise_disjoint rest
  end.

(** The last line of a file on which an id occurs. *)
Definition last_line_with (mid : string) (equivs : list (list string))
  : option (list string) :=
  last (filter (λ ec, mid ∈ ec) equivs).

(** An index is consistent when the class of an id contains the id and
    is the class of each of its members. *)
Definition consistent (mid_map : list (string * list string)) : Prop :=
  ∀ mid ec, PyDict.get mid mid_map = Some ec →
    mid ∈ ec ∧ ∀ m, m ∈ ec → PyDict.get m mid_map = Some ec.

(** The state of the loop that collects the classes: the classes found
    are distinct classes of the index, and the ids marked are their
    members. *)
Definition found_inv (mid_map : list (string * list string))
    (acc : gset string * list (list string)) : Prop :=
  NoDup acc.2
  ∧ (∀ x, x ∈ acc.1 ↔ ∃ c, c ∈ acc.2 ∧ x ∈ c)
  ∧ (∀ c, c ∈ acc.2 → ∃ m0, PyDict.get m0 mid_map = Some c).

(** The class a printed line is about. *)
Definition report_class (r : report) : list string :=
  match r with Alone ec => ec | Both ec _ => ec end.

End Comparator.

(** * Properties *)

(** ** Dictionaries *)

Module PyDictFacts.
Import PyDict.
Section facts.
Context {K V : Type} `{EqDecision K}.
Implicit Types (k : K) (v : V) (d : list (K * V)).

Lemma get_setitem k k' v d :
  get k' (setitem k v d) = if decide (k' = k) then Some v else get k' d.
Proof.
  induction d as [|[k0 v0] d IH]; simpl.
  - by destruct (decide (k' = k)).
  - destruct (decide (k = k0)) as [->|Hne]; simpl.
    + by destruct (decide (k' = k0)).
    + destruct (decide (k' = k0)) as [->|]; [|done].
      by rewrite decide_False.
Qed.

Lemma get_setitem_eq k v d : get k (setitem k v d) = Some v.
Proof. by rewrite get_setitem, decide_True. Qed.

Lemma get_setitem_ne k k' v d : k' ≠ k → get k' (setitem k v d) = get k' d.
Proof. intros. by rewrite get_setitem, decide_False. Qed.

Lemma elem_of_keys k d : k ∈ keys d ↔ is_Some (get k d).
Proof.
  unfold keys. induction d as [|[k0 v0] d IH]; simpl.
  - rewrite elem_of_nil. split; [done|]. by intros [? ?].
  - rewrite elem_of_cons, IH. destruct (decide (k = k0)) as [->|Hne].
    + split; [by eexists|by left].
    + split; [by intros [?|?]|by right].
Qed.

Lemma get_None_keys k d : get k d = None ↔ k ∉ keys d.
Proof. rewrite elem_of_keys, eq_None_not_Some. done. Qed.

Lemma keys_setitem k v d :
  keys (setitem k v d) = if get k d is Some _ then keys d else keys d ++ [k].
Proof.
  unfold keys. induction d as [|[k0 v0] d IH]; csimpl; [done|].
  destruct (decide (k = k0)) as [->|]; csimpl; [done|].
  rewrite IH. by destruct (get k d).
Qed.

Lemma NoDup_keys_setitem k v d : NoDup (keys d) → NoDup (keys (setitem k v d)).
Proof.
  intros Hd. rewrite keys_setitem. destruct (get k d) eqn:E; [done|].
  apply NoDup_app. split_and!; [done| |apply NoDup_singleton].
  intros x Hx ->%list_elem_of_singleton. by apply get_None_keys in E.
Qed.

Lemma length_setitem k v d :
  length (setitem k v d) = if get k d is Some _ then length d else S (length d).
Proof.
  induction d as [|[k0 v0] d IH]; simpl; [done|].
  destruct (decide (k = k0)); simpl; [done|]. rewrite IH. by destruct (get k d).
Qed.
End facts.
End PyDictFacts.

(** ** The comparator *)

Module ComparatorFacts.
Import PyDict PyDictFacts Comparator.

Section facts.
Variable py_set : list string → list string.
Implicit Types (mid_map : list (string * list string)) (ec : list string).

(** *** The lines of a file *)

(** A line ["1<TAB>2<LF>"] gives the class of the ids ["1"] and ["2"]; a
    line that holds only an end of line gives no class. *)
Example read_equivs_lines :
  read_equivs [String "1" (String "009" (String "2" (String "010" "")));
               String "010" ""; " 3  4 "]
  = [["1"; "2"]; ["3"; "4"]].
Proof. reflexivity. Qed.

(** *** The index of a file *)

Lemma get_foldl_setitem (v : list string) mid_map ec mid :
  get mid (foldl (λ m elem, setitem elem v m) mid_map ec)
  = if decide (mid ∈ ec) then Some v else get mid mid_map.
Proof.
  revert mid_map. induction ec as [|x ec IH]; intros mid_map; cbn [foldl].
  - case_decide as Hin; [by apply elem_of_nil in Hin|done].
  - rewrite IH, get_setitem.
    repeat case_decide; try done; exfalso; set_solver.
Qed.

Lemma get_map_class mid_map ec mid :
  get mid (map_class py_set mid_map ec)
  = if decide (mid ∈ ec) then Some (py_set ec) else get mid mid_map.
Proof. apply get_foldl_setitem. Qed.

Lemma get_foldl_map_class mid_map equivs mid :
  get mid (foldl (map_class py_set) mid_map equivs)
  = match last_line_with mid equivs with
    | Some ec => Some (py_set ec)
    | None => get mid mid_map
    end.
Proof.
  unfold last_line_with. revert mid_map.
  induction equivs as [|ec equivs IH]; intros mid_map; simpl; [done|].
  rewrite IH, get_map_class, filter_cons.
  destruct (decide (mid ∈ ec)) as [Hin|Hnin]; [|done].
  rewrite last_cons. by destruct (last (filter _ equivs)).
Qed.

Lemma get_build_mid_map equivs mid :
  get mid (build_mid_map py_set equivs) = py_set <$> last_line_with mid equivs.
Proof.
  unfold build_mid_map. rewrite get_foldl_map_class.
  by destruct (last_line_with mid equivs).
Qed.

(** *** A file compared with itself *)

Lemma filter_unique_line equivs ec m :
  pairwise_disjoint equivs → ec ∈ equivs → m ∈ ec →
  filter (λ ec', m ∈ ec') equivs = [ec].
Proof.
  induction equivs as [|e rest IH]; intros Hpd Hin Hm.
  - by apply elem_of_nil in Hin.
  - destruct Hpd as [Hall Hpd]. apply elem_of_cons in Hin as [->|Hin].
    + rewrite filter_cons_True by done. f_equal.
      clear IH Hpd. induction Hall as [|e' rest Hd _ IH]; [done|].
      rewrite filter_cons_False; [done|].
      intros Hm'. by apply (Hd m).
    + rewrite filter_cons_False; [by apply IH|].
      intros Hm'. rewrite Forall_forall in Hall. by apply (Hall ec Hin m).
Qed.

Hypothesis py_set_elem : ∀ l x, x ∈ py_set l ↔ x ∈ l.

Lemma consistent_build_mid_map equivs :
  pairwise_disjoint equivs → consistent (build_mid_map py_set equivs).
Proof.
  intros Hpd mid ec. rewrite get_build_mid_map.
  destruct (last_line_with mid equivs) as [line|] eqn:Hlast; [|done].
  intros [= <-]. unfold last_line_with in Hlast.
  apply last_Some_elem_of, list_elem_of_filter in Hlast as [Hmid Hline].
  split; [by apply py_set_elem|].
  intros m Hm. apply (proj1 (py_set_elem _ _)) in Hm.
  rewrite get_build_mid_map. unfold last_line_with.
  by rewrite (filter_unique_line equivs line m).
Qed.
End facts.

Section quiet.
Implicit Types (mid_map : list (string * list string)) (ec : list string).

Lemma foldl_find_step_covered mid_map nested_visited found l :
  (∀ m, m ∈ l → m ∈ nested_visited) →
  foldl (find_step mid_map) (nested_visited, found) l = (nested_visited, found).
Proof.
  induction l as [|m l IH]; intros Hl; cbn [foldl]; [done|].
  unfold find_step at 2. rewrite decide_True by (apply Hl; by left).
  apply IH. intros m' Hm'. apply Hl. by right.
Qed.

Lemma find_classes_consistent mid_map mid ec :
  consistent mid_map → get mid mid_map = Some ec →
  find_classes mid_map ec = [ec].
Proof.
  intros Hc Hget. destruct (Hc _ _ Hget) as [Hmid Hall].
  unfold find_classes. destruct ec as [|m0 ec']; [by apply elem_of_nil in Hmid|].
  cbn [foldl]. unfold find_step at 2.
  rewrite decide_False by set_solver. rewrite Hall by (by left).
  rewrite foldl_find_step_covered; [done|].
  intros m Hm. apply elem_of_union_r, elem_of_list_to_set. by right.
Qed.

Lemma foldl_find_step_2_covered mid_map ec nested_visited found l :
  (∀ m, m ∈ l → m ∈ nested_visited) →
  foldl (find_step_2 mid_map) (ec, nested_visited, found) l
  = (ec, nested_visited, found).
Proof.
  induction l as [|m l IH]; intros Hl; cbn [foldl]; [done|].
  unfold find_step_2 at 2. rewrite decide_True by (apply Hl; by left).
  apply IH. intros m' Hm'. apply Hl. by right.
Qed.

Lemma find_step_2_single mid_map ec0 ec m0 l :
  get m0 mid_map = Some ec → (∀ m, m ∈ l → m ∈ ec) →
  foldl (find_step_2 mid_map) (ec0, ∅, []) (m0 :: l)
  = (ec, ∅ ∪ list_to_set ec, [ec]).
Proof.
  intros Hget Hl. cbn [foldl]. unfold find_step_2 at 2.
  rewrite decide_False by set_solver. rewrite Hget.
  rewrite foldl_find_step_2_covered; [done|].
  intros m Hm. apply elem_of_union_r, elem_of_list_to_set. by apply Hl.
Qed.

Lemma find_step_2_consistent mid_map mid ec :
  consistent mid_map → get mid mid_map = Some ec →
  foldl (find_step_2 mid_map) (ec, ∅, []) ec = (ec, ∅ ∪ list_to_set ec, [ec]).
Proof.
  intros Hc Hget. destruct (Hc _ _ Hget) as [Hmid Hall].
  destruct ec as [|m0 ec'] eqn:Hec; [by apply elem_of_nil in Hmid|].
  apply find_step_2_single; [apply Hall; by left|].
  intros m Hm. by right.
Qed.

Lemma visit_file_1_consistent mid_map :
  consistent mid_map → visit_file_1 mid_map mid_map = [].
Proof.
  intros Hc. unfold visit_file_1. generalize (keys mid_map).
  generalize ({["0"]} : gset string).
  intros visited ks. revert visited.
  induction ks as [|mid ks IH]; intros visited; cbn [foldl]; [done|].
  unfold visit_step_1 at 2. case_decide; [apply IH|].
  destruct (get mid mid_map) as [ec|] eqn:Hget; [|apply IH].
  rewrite (find_classes_consistent _ _ _ Hc Hget). cbn [length head default from_option id].
  rewrite decide_False by (intros ?; done).
  rewrite decide_True by done. apply IH.
Qed.

Lemma visit_file_2_consistent mid_map :
  consistent mid_map → visit_file_2 mid_map mid_map = [].
Proof.
  intros Hc. unfold visit_file_2. generalize (keys mid_map).
  generalize ({["0"]} : gset string).
  intros visited ks. revert visited.
  induction ks as [|mid ks IH]; intros visited; cbn [foldl]; [done|].
  unfold visit_step_2 at 2. case_decide; [apply IH|].
  destruct (get mid mid_map) as [ec|] eqn:Hget; [|apply IH].
  rewrite (find_step_2_consistent _ _ _ Hc Hget). cbn [length head default from_option id].
  rewrite decide_False by (intros ?; done).
  rewrite decide_True by done. apply IH.
Qed.
End quiet.

Section visits.
Implicit Types (mid_map : list (string * list string)) (ec : list string).

(** *** The classes found for a class *)

(** The visit of file 2 finds the same classes as the visit of file 1. *)
Lemma find_step_2_step mid_map ec nested_visited found m :
  ∃ ec', find_step_2 mid_map (ec, nested_visited, found) m
         = (ec', (find_step mid_map (nested_visited, found) m).1,
                 (find_step mid_map (nested_visited, found) m).2)
         ∧ ((find_step mid_map (nested_visited, found) m).2 ≠ [] →
            last found = Some ec ∨ found = [] →
            last (find_step mid_map (nested_visited, found) m).2 = Some ec').
Proof.
  unfold find_step_2, find_step. case_decide.
  - exists ec. split; [done|]. cbn [snd]. by intros ? [?|?].
  - destruct (get m mid_map) as [ec'|].
    + exists ec'. split; [done|]. intros _ _. apply last_snoc.
    + exists ec. split; [done|]. cbn [snd]. by intros ? [?|?].
Qed.

Lemma foldl_find_step_2_found mid_map ec nested_visited found l :
  ((foldl (find_step_2 mid_map) (ec, nested_visited, found) l).1.2,
   (foldl (find_step_2 mid_map) (ec, nested_visited, found) l).2)
  = foldl (find_step mid_map) (nested_visited, found) l.
Proof.
  revert ec nested_visited found.
  induction l as [|m l IH]; intros ec nested_visited found; cbn [foldl]; [done|].
  destruct (find_step_2_step mid_map ec nested_visited found m) as (ec' & -> & _).
  destruct (find_step mid_map (nested_visited, found) m) as [nv' found'].
  apply IH.
Qed.

(** After the loop of the visit of file 2, the variable [ec2] is the
    last class found, if one was found. *)
Lemma foldl_find_step_2_last mid_map ec nested_visited found l :
  last found = Some ec ∨ found = [] →
  (foldl (find_step_2 mid_map) (ec, nested_visited, found) l).2 ≠ [] →
  last (foldl (find_step_2 mid_map) (ec, nested_visited, found) l).2
  = Some (foldl (find_step_2 mid_map) (ec, nested_visited, found) l).1.1.
Proof.
  revert ec nested_visited found.
  induction l as [|m l IH]; intros ec nested_visited found Hlast;
    cbn [foldl].
  { cbn [fst snd]. by destruct Hlast. }
  destruct (find_step_2_step mid_map ec nested_visited found m)
    as (ec' & -> & Hstep).
  destruct (find_step mid_map (nested_visited, found) m) as [nv' found'].
  cbn [fst snd] in *. apply IH.
  destruct found' as [|c found']; [by right|]. left. by apply Hstep.
Qed.

Lemma foldl_find_step_unindexed mid_map nested_visited found l :
  (∀ m, m ∈ l → get m mid_map = None) →
  foldl (find_step mid_map) (nested_visited, found) l = (nested_visited, found).
Proof.
  induction l as [|m l IH]; intros Hl; cbn [foldl]; [done|].
  unfold find_step at 2. rewrite (Hl m) by (by left).
  case_decide; apply IH; intros m' Hm'; apply Hl; by right.
Qed.

Lemma find_classes_only_zero mid_map ec ec0 :
  NoDup ec → "0" ∈ ec → get "0" mid_map = Some ec0 →
  (∀ m, m ∈ ec → m ≠ "0" → get m mid_map = None) →
  find_classes mid_map ec = [ec0].
Proof.
  intros Hnd Hin Hget Hothers.
  apply list_elem_of_split in Hin as (l1 & l2 & ->).
  apply NoDup_app in Hnd as (_ & Hl1 & [Hl2 _]%NoDup_cons).
  unfold find_classes. rewrite foldl_app.
  rewrite foldl_find_step_unindexed.
  - cbn [foldl]. unfold find_step at 2.
    rewrite decide_False by set_solver. rewrite Hget.
    rewrite foldl_find_step_unindexed; [done|].
    intros m Hm. apply Hothers; [set_solver|]. by intros ->.
  - intros m Hm. apply Hothers; [set_solver|].
    intros ->. apply (Hl1 "0" Hm). by left.
Qed.

(** *** What the visits print *)

Lemma visit_file_1_starts mid_map_1 mid_map_2 r :
  r ∈ visit_file_1 mid_map_1 mid_map_2 →
  ∃ mid, mid ≠ "0" ∧ get mid mid_map_1 = Some (report_class r).
Proof.
  unfold visit_file_1. generalize (keys mid_map_1). intros ks.
  assert (∀ acc : gset string * list report,
    "0" ∈ acc.1 →
    (∀ r, r ∈ acc.2 →
       ∃ mid, mid ≠ "0" ∧ get mid mid_map_1 = Some (report_class r)) →
    ∀ r, r ∈ (foldl (visit_step_1 mid_map_1 mid_map_2) acc ks).2 →
       ∃ mid, mid ≠ "0" ∧ get mid mid_map_1 = Some (report_class r)) as Hfold.
  { induction ks as [|mid ks IH]; intros [visited printed] Hzero Hacc;
      cbn [foldl]; [done|].
    apply IH; unfold visit_step_1; case_decide as Hvis; try done;
      destruct (get mid mid_map_1) as [ec1|] eqn:Hget; try done;
      repeat case_decide; cbn [fst snd] in *; try done; set_solver. }
  apply Hfold; cbn [fst snd]; [set_solver|]. by intros r' ?%elem_of_nil.
Qed.

Lemma visit_file_2_alone mid_map_1 mid_map_2 r :
  r ∈ visit_file_2 mid_map_1 mid_map_2 → ∃ ec, r = Alone ec.
Proof.
  unfold visit_file_2. generalize (keys mid_map_2). intros ks.
  assert (∀ acc : gset string * list report,
    (∀ r, r ∈ acc.2 → ∃ ec, r = Alone ec) →
    ∀ r, r ∈ (foldl (visit_step_2 mid_map_1 mid_map_2) acc ks).2 →
       ∃ ec, r = Alone ec) as Hfold.
  { induction ks as [|mid ks IH]; intros [visited printed] Hacc;
      cbn [foldl]; [done|].
    apply IH. unfold visit_step_2. case_decide as Hvis; [done|].
    destruct (get mid mid_map_2) as [ec2|] eqn:Hget; [|done].
    pose proof (foldl_find_step_2_last mid_map_1 ec2 ∅ [] ec2) as Hlast.
    destruct (foldl (find_step_2 mid_map_1) (ec2, ∅, []) ec2)
      as [[ec2' nv] found].
    cbn [fst snd] in Hlast. case_decide as Hlen; cbn [fst snd].
    - intros r' [Hr'| ->%list_elem_of_singleton]%elem_of_app; [by apply Hacc|].
      by eexists.
    - destruct found as [|c [|? ?]]; try done.
      rewrite decide_True; [done|].
      specialize (Hlast ltac:(by right) ltac:(done)). by injection Hlast as ->. }
  apply Hfold. by intros r' ?%elem_of_nil.
Qed.

Lemma not_elem_of_collect_mids equivs1 equivs2 :
  "0" ∉ collect_mids equivs1 equivs2.
Proof. unfold collect_mids. case_decide; set_solver. Qed.
End visits.

Section zero.
Implicit Types (mid_map : list (string * list string)) (ec : list string).

(** *** The id ["0"] in the visits and in the collecting loops *)

(** A loop over the keys whose state holds ["0"] in its visited set
    does nothing at the key ["0"]. *)
Lemma foldl_skip_zero
    (f : gset string * list report → string → gset string * list report)
    (ks : list string) (acc : gset string * list report) :
  (∀ acc k, "0" ∈ acc.1 → "0" ∈ (f acc k).1) →
  (∀ acc, "0" ∈ acc.1 → f acc "0" = acc) →
  "0" ∈ acc.1 →
  foldl f acc ks = foldl f acc (filter (λ k, k ≠ "0") ks).
Proof.
  intros Hmono Hzero. revert acc.
  induction ks as [|k ks IH]; intros acc Hacc; [done|].
  rewrite filter_cons. cbn [foldl]. case_decide as Hk.
  - cbn [foldl]. apply IH. by apply Hmono.
  - subst k. rewrite Hzero by done. by apply IH.
Qed.

Lemma visit_file_1_skips_zero mid_map_1 mid_map_2 :
  visit_file_1 mid_map_1 mid_map_2
  = (foldl (visit_step_1 mid_map_1 mid_map_2) ({["0"]}, [])
           (filter (λ mid, mid ≠ "0") (keys mid_map_1))).2.
Proof.
  unfold visit_file_1. rewrite <-foldl_skip_zero; [done| | |set_solver].
  - intros [visited printed] k Hin. cbn [fst] in Hin. unfold visit_step_1.
    case_decide; [done|]. destruct (get k mid_map_1); [|done].
    repeat case_decide; cbn [fst]; set_solver.
  - intros [visited printed] Hin. cbn [fst] in Hin. unfold visit_step_1.
    by rewrite decide_True.
Qed.

Lemma visit_file_2_skips_zero mid_map_1 mid_map_2 :
  visit_file_2 mid_map_1 mid_map_2
  = (foldl (visit_step_2 mid_map_1 mid_map_2) ({["0"]}, [])
           (filter (λ mid, mid ≠ "0") (keys mid_map_2))).2.
Proof.
  unfold visit_file_2. rewrite <-foldl_skip_zero; [done| | |set_solver].
  - intros [visited printed] k Hin. cbn [fst] in Hin. unfold visit_step_2.
    case_decide; [done|]. destruct (get k mid_map_2) as [ec2|]; [|done].
    destruct (foldl (find_step_2 mid_map_1) (ec2, ∅, []) ec2) as [[? ?] ?].
    repeat case_decide; cbn [fst]; set_solver.
  - intros [visited printed] Hin. cbn [fst] in Hin. unfold visit_step_2.
    by rewrite decide_True.
Qed.

(** The loop that collects the classes: the classes collected are
    classes of the index, the ids marked are their members, and a member
    that the index knows has its class collected unless it was marked
    when its turn came. *)
Lemma foldl_find_step_member mid_map l nested_visited found :
  (∀ x, x ∈ nested_visited → ∃ c', c' ∈ found ∧ x ∈ c') →
  (∀ c', c' ∈ found → ∃ m', get m' mid_map = Some c') →
  (∀ c, c ∈ found
        → c ∈ (foldl (find_step mid_map) (nested_visited, found) l).2)
  ∧ (∀ c', c' ∈ (foldl (find_step mid_map) (nested_visited, found) l).2 →
           ∃ m', get m' mid_map = Some c')
  ∧ (∀ m c, m ∈ l → get m mid_map = Some c →
       c ∈ (foldl (find_step mid_map) (nested_visited, found) l).2
       ∨ ∃ c', c' ∈ (foldl (find_step mid_map) (nested_visited, found) l).2
               ∧ m ∈ c').
Proof.
  revert nested_visited found.
  induction l as [|m0 l IH]; intros nv found Hcov Hprov; cbn [foldl].
  { split_and!; [done..|]. by intros m c ?%elem_of_nil. }
  assert (find_step mid_map (nv, found) m0
          = if decide (m0 ∈ nv) then (nv, found)
            else match get m0 mid_map with
                 | None => (nv, found)
                 | Some ec2 => (nv ∪ list_to_set ec2, found ++ [ec2])
                 end) as -> by done.
  case_decide as Hm0.
  - destruct (IH nv found Hcov Hprov) as (Hmono & Hp & Hmem).
    split_and!; [done..|].
    intros m c [->|Hm]%elem_of_cons Hget; [|by apply Hmem].
    right. destruct (Hcov _ Hm0) as (c' & Hc' & Hin). exists c'.
    split; [by apply Hmono|done].
  - destruct (get m0 mid_map) as [c0|] eqn:Hget0.
    + destruct (IH (nv ∪ list_to_set c0) (found ++ [c0]))
        as (Hmono & Hp & Hmem).
      * intros x [Hx| Hx%elem_of_list_to_set]%elem_of_union.
        -- destruct (Hcov _ Hx) as (c' & Hc' & Hin). exists c'.
           split; [|done]. apply elem_of_app. by left.
        -- exists c0. split; [|done]. apply elem_of_app. right. by left.
      * intros c' [Hc'| ->%list_elem_of_singleton]%elem_of_app;
          [by apply Hprov|by exists m0].
      * split_and!; [|done|].
        -- intros c Hc. apply Hmono, elem_of_app. by left.
        -- intros m c [->|Hm]%elem_of_cons Hget; [|by apply Hmem].
           left. rewrite Hget0 in Hget. injection Hget as <-.
           apply Hmono, elem_of_app. right. by left.
    + destruct (IH nv found Hcov Hprov) as (Hmono & Hp & Hmem).
      split_and!; [done..|].
      intros m c [->|Hm]%elem_of_cons Hget; [|by apply Hmem].
      by rewrite Hget0 in Hget.
Qed.

Lemma find_classes_member mid_map ec m c :
  m ∈ ec → get m mid_map = Some c →
  c ∈ find_classes mid_map ec
  ∨ ∃ c', c' ∈ find_classes mid_map ec ∧ m ∈ c'.
Proof.
  intros Hm Hget. unfold find_classes.
  destruct (foldl_find_step_member mid_map ec ∅ []) as (_ & _ & Hmem).
  - by intros x ?%elem_of_empty.
  - by intros c' ?%elem_of_nil.
  - by apply Hmem.
Qed.

Lemma find_classes_collects mid_map ec m c :
  consistent mid_map → m ∈ ec → get m mid_map = Some c →
  c ∈ find_classes mid_map ec.
Proof.
  intros Hc Hm Hget. unfold find_classes.
  destruct (foldl_find_step_member mid_map ec ∅ []) as (_ & Hp & Hmem).
  - by intros x ?%elem_of_empty.
  - by intros c' ?%elem_of_nil.
  - destruct (Hmem m c Hm Hget) as [Hin|(c' & Hc' & Hin)]; [done|].
    destruct (Hp c' Hc') as [m' Hm'].
    destruct (Hc _ _ Hm') as [_ Hall].
    rewrite (Hall m Hin) in Hget. by injection Hget as <-.
Qed.
End zero.

(** *** The claims about the comparator *)

(** C10: the index built for a file maps every id to the set made from
    the last line of the file on which the id occurs, and to nothing
    when the id occurs on no line; both visits are computed from the
    two indexes alone, so no earlier line is consulted for the id. *)
Theorem mid_map_last_line (py_set : list string → list string)
    (f f' : list string) (mid : string) :
  get mid (build_mid_map py_set (read_equivs f))
  = py_set <$> last_line_with mid (read_equivs f)
  ∧ main py_set f f'
    = (visit_file_1 (build_mid_map py_set (read_equivs f))
                    (build_mid_map py_set (read_equivs f')),
       visit_file_2 (build_mid_map py_set (read_equivs f))
                    (build_mid_map py_set (read_equivs f'))).
Proof. split; [apply get_build_mid_map|done]. Qed.

(** C9: when the classes of a file are pairwise disjoint, comparing the
    file with itself prints no class, neither in the visit of file 1
    nor in the visit of file 2, whatever the iteration order of the
    sets. *)
Theorem comparator_reflexive (py_set : list string → list string)
    (f : list string) :
  (∀ l x, x ∈ py_set l ↔ x ∈ l) →
  pairwise_disjoint (read_equivs f) →
  main py_set f f = ([], []).
Proof.
  intros Hset Hpd. unfold main.
  pose proof (consistent_build_mid_map py_set Hset _ Hpd) as Hc.
  by rewrite visit_file_1_consistent, visit_file_2_consistent.
Qed.

Lemma comparator_reflexive_witness :
  (∀ (l : list string) x, x ∈ remove_dups l ↔ x ∈ l)
  ∧ pairwise_disjoint (read_equivs ["1 2"; " "; "3 0  4"; "5"])
  ∧ main remove_dups ["1 2"; " "; "3 0  4"; "5"] ["1 2"; " "; "3 0  4"; "5"]
    = ([], []).
Proof.
  assert (pairwise_disjoint (read_equivs ["1 2"; " "; "3 0  4"; "5"])) as Hpd.
  { change (pairwise_disjoint [["1"; "2"]; ["3"; "0"; "4"]; ["5"]]).
    cbn [pairwise_disjoint]. repeat split; repeat constructor; set_solver. }
  split_and!; [apply elem_of_remove_dups|exact Hpd|].
  apply comparator_reflexive; [apply elem_of_remove_dups|exact Hpd].
Defined.

(** C6, at the files ["1 2"] and ["1 2 3"]: the class of file 2 has
    exactly one class of file 1 found for it and is not included in it,
    yet the visit of file 2 prints nothing, while the visit of file 1
    prints the class with the class found when the files are swapped. *)
Theorem visit_file_2_misses_mismatch :
  let mid_map_1 := build_mid_map remove_dups (read_equivs ["1 2"]) in
  let mid_map_2 := build_mid_map remove_dups (read_equivs ["1 2 3"]) in
  get "1" mid_map_2 = Some ["1"; "2"; "3"]
  ∧ find_classes mid_map_1 ["1"; "2"; "3"] = [["1"; "2"]]
  ∧ ¬ ["1"; "2"; "3"] ⊆ ["1"; "2"]
  ∧ visit_file_2 mid_map_1 mid_map_2 = []
  ∧ visit_file_1 mid_map_2 mid_map_1 = [Both ["1"; "2"; "3"] [["1"; "2"]]].
Proof.
  cbv zeta. split_and!; try by vm_compute.
  intros Hsub. specialize (Hsub "3"). set_solver.
Qed.

(** C7, refuted at the files ["0 5"] and ["0 7"]: the member ["0"] of
    the class of file 1 has its class of file 2 found, no class is
    found without it, and the visit prints the class with the class
    found instead of the class alone. *)
Lemma zero_contributes_class :
  let mid_map_2 := build_mid_map remove_dups (read_equivs ["0 7"]) in
  find_classes mid_map_2 ["0"; "5"] = [["0"; "7"]]
  ∧ find_classes mid_map_2 ["5"] = []
  ∧ main remove_dups ["0 5"] ["0 7"] = ([Both ["0"; "5"] [["0"; "7"]]], []).
Proof. cbv zeta. split_and!; by vm_compute. Qed.

(** C7, amended: ["0"] is kept out of the collected ids, and neither
    visit starts at the key ["0"]: each visit is the visit over the keys
    other than ["0"].  In the loops that collect the classes of the
    other file, which collect the same list in both visits, ["0"] is a
    member like every other: a member that the index of the other file
    knows has its class collected, or belongs to a class collected for
    another member.  So, when the index of the other file is consistent,
    the class of ["0"] there is collected whenever ["0"] is a member
    that this index knows; and when ["0"] is the only member that the
    index of the other file knows, the class of ["0"] there is the one
    class found, in both visits. *)
Theorem zero_is_an_ordinary_member :
  (∀ equivs1 equivs2, "0" ∉ collect_mids equivs1 equivs2)
  ∧ (∀ mid_map_1 mid_map_2,
       visit_file_1 mid_map_1 mid_map_2
       = (foldl (visit_step_1 mid_map_1 mid_map_2) ({["0"]}, [])
                (filter (λ mid, mid ≠ "0") (keys mid_map_1))).2
       ∧ visit_file_2 mid_map_1 mid_map_2
         = (foldl (visit_step_2 mid_map_1 mid_map_2) ({["0"]}, [])
                  (filter (λ mid, mid ≠ "0") (keys mid_map_2))).2)
  ∧ (∀ mid_map_1 mid_map_2 r,
       r ∈ visit_file_1 mid_map_1 mid_map_2 →
       ∃ mid, mid ≠ "0" ∧ get mid mid_map_1 = Some (report_class r))
  ∧ (∀ mid_map ec,
       (foldl (find_step_2 mid_map) (ec, ∅, []) ec).2
       = find_classes mid_map ec)
  ∧ (∀ mid_map ec m c,
       m ∈ ec → get m mid_map = Some c →
       c ∈ find_classes mid_map ec
       ∨ ∃ c', c' ∈ find_classes mid_map ec ∧ m ∈ c')
  ∧ (∀ mid_map ec c,
       consistent mid_map → "0" ∈ ec → get "0" mid_map = Some c →
       c ∈ find_classes mid_map ec)
  ∧ (∀ mid_map ec ec0,
       NoDup ec → "0" ∈ ec → get "0" mid_map = Some ec0 →
       (∀ m, m ∈ ec → m ≠ "0" → get m mid_map = None) →
       find_classes mid_map ec = [ec0]
       ∧ (foldl (find_step_2 mid_map) (ec, ∅, []) ec).2 = [ec0]).
Proof.
  assert (∀ mid_map ec,
            (foldl (find_step_2 mid_map) (ec, ∅, []) ec).2
            = find_classes mid_map ec) as Hsame.
  { intros mid_map ec.
    pose proof (foldl_find_step_2_found mid_map ec ∅ [] ec) as Heq.
    unfold find_classes. by rewrite <-Heq. }
  split_and!.
  - apply not_elem_of_collect_mids.
  - intros mid_map_1 mid_map_2.
    split; [apply visit_file_1_skips_zero|apply visit_file_2_skips_zero].
  - apply visit_file_1_starts.
  - apply Hsame.
  - apply find_classes_member.
  - intros mid_map ec c Hc. by apply find_classes_collects.
  - intros mid_map ec ec0 Hnd Hin Hget Hothers. rewrite Hsame.
    by rewrite (find_classes_only_zero _ _ _ Hnd Hin Hget Hothers).
Qed.

Lemma zero_is_an_ordinary_member_witness :
  find_classes [("0", ["0"; "7"]); ("7", ["0"; "7"])] ["0"; "5"] = [["0"; "7"]].
Proof.
  apply (proj2 (proj2 (proj2 (proj2 (proj2 (proj2 zero_is_an_ordinary_member)))))
           [("0", ["0"; "7"]); ("7", ["0"; "7"])] ["0"; "5"] ["0"; "7"]).
  - repeat constructor; set_solver.
  - by left.
  - reflexivity.
  - intros m [->|[->|[]%elem_of_nil]%elem_of_cons]%elem_of_cons Hne; done.
Defined.

(** *** Further properties of the comparator *)

(** X2: the visit of file 2 never prints a class together with the class
    found for it: every line it prints is a class alone. *)
Theorem visit_file_2_prints_alone mid_map_1 mid_map_2 r :
  r ∈ visit_file_2 mid_map_1 mid_map_2 → ∃ ec, r = Alone ec.
Proof. apply visit_file_2_alone. Qed.

Lemma visit_file_2_prints_alone_witness :
  Alone ["3"; "4"]
    ∈ visit_file_2 (build_mid_map remove_dups (read_equivs ["1 2"; "3 4"]))
                   (build_mid_map remove_dups (read_equivs ["1 3"; "2 4"]))
  ∧ ∃ ec, Alone ["3"; "4"] = Alone ec.
Proof.
  assert (Alone ["3"; "4"]
            ∈ visit_file_2
                (build_mid_map remove_dups (read_equivs ["1 2"; "3 4"]))
                (build_mid_map remove_dups (read_equivs ["1 3"; "2 4"])))
    as Hin by (vm_compute; by left).
  split; [done|]. by apply (visit_file_2_prints_alone _ _ _ Hin).
Defined.

(** X4: two examples of the specification, for the visit of file 1: a class
    that is larger than the one class found for it is printed with that
    class, and a class whose members are in two classes of the other
    file is printed alone. *)
Example subset_tolerance_and_split :
  (main remove_dups ["1 2 3"] ["1 2"]).1 = [Both ["1"; "2"; "3"] [["1"; "2"]]]
  ∧ (main remove_dups ["1 2"; "3 4"] ["1 3"; "2 4"]).1
    = [Alone ["1"; "2"]; Alone ["3"; "4"]].
Proof. split; by vm_compute. Qed.
End ComparatorFacts.

(** ** Fallible maps over lists *)

Module ResultFacts.

Lemma mapM_fmap_result {A B C} (g : A → B) (f : B → result C) (l : list A) :
  mapM (f ∘ g) l = mapM f (g <$> l).
Proof.
  induction l as [|x l IH]; [done|].
  cbn. destruct (f (g x)); cbn; [|done]. by rewrite IH.
Qed.

Lemma mapM_Ok_fmap {A B} (f : A → result B) (g : A → B) (l : list A) :
  (∀ x, x ∈ l → f x = Ok (g x)) → mapM f l = Ok (g <$> l).
Proof.
  induction l as [|x l IH]; intros Hfg; [done|].
  cbn. rewrite Hfg by (by left). cbn.
  rewrite IH; [done|]. intros y Hy. apply Hfg. by right.
Qed.

Lemma mapM_Ok_Forall2 {A B} (f : A → result B) (l : list A) (k : list B) :
  mapM f l = Ok k → Forall2 (λ x y, f x = Ok y) l k.
Proof.
  revert k. induction l as [|x l IH]; intros k; cbn.
  - intros [= <-]. constructor.
  - destruct (f x) as [y|] eqn:Hx; [|done]. cbn.
    destruct (mapM f l) as [k'|]; [|done]. cbn.
    intros [= <-]. constructor; [done|]. by apply IH.
Qed.

Lemma mapM_Ok_Forall2_elem {A B} (Q : A → B → Prop) (f : A → result B)
    (l : list A) (ks : list B) :
  mapM f l = Ok ks → (∀ x k, x ∈ l → f x = Ok k → Q x k) → Forall2 Q l ks.
Proof.
  intros HF%mapM_Ok_Forall2 HQ. induction HF as [|x k l ks Hk HF IH];
    constructor.
  - apply HQ; [by left|done].
  - apply IH. intros x' k' Hx'. apply HQ. by right.
Qed.

Lemma elem_of_concat_mapM {A B} (f : A → result (list B)) (l : list A)
    (ks : list (list B)) (y : B) :
  mapM f l = Ok ks →
  y ∈ concat ks ↔ ∃ x k, x ∈ l ∧ f x = Ok k ∧ y ∈ k.
Proof.
  intros HF%mapM_Ok_Forall2. induction HF as [|x k l ks Hx HF IH]; cbn.
  - rewrite elem_of_nil. split; [done|]. by intros (? & ? & []%elem_of_nil & _).
  - rewrite elem_of_app, IH. split.
    + intros [Hy|(x' & k' & Hx' & Hk' & Hy)].
      * exists x, k. split_and!; [by left|done..].
      * exists x', k'. split_and!; [by right|done..].
    + intros (x' & k' & [->|Hx']%elem_of_cons & Hk' & Hy).
      * left. rewrite Hx in Hk'. by simplify_eq.
      * right. by exists x', k'.
Qed.


Lemma mapM_Raise {A B} (f : A → result B) (l : list A) x e :
  x ∈ l → f x = Raise e → ∃ e', mapM f l = Raise e'.
Proof.
  induction l as [|y l IH]; intros Hx Hf.
  - by apply elem_of_nil in Hx.
  - cbn. destruct (f y) as [b|e0] eqn:Hy; cbn; [|by eexists].
    apply elem_of_cons in Hx as [->|Hx]; [by rewrite Hf in Hy|].
    destruct (IH Hx Hf) as [e' ->]. by eexists.
Qed.
End ResultFacts.

(** ** Paths and trees *)

Module PathFacts.
Import Tce ResultFacts.

Lemma append_cons c (a b : string) : String c a +:+ b = String c (a +:+ b).
Proof. done. Qed.

Lemma append_nil_l (b : string) : "" +:+ b = b.
Proof. done. Qed.

Lemma split_sep_nonempty s : split_sep s ≠ [].
Proof.
  destruct s as [|c s]; cbn; [done|].
  case_decide; [done|]. by destruct (split_sep s).
Qed.

Lemma split_sep_no_sep s : has_sep s = false → split_sep s = [s].
Proof.
  induction s as [|c s IH]; cbn; [done|].
  intros [Hc Hs]%orb_false_iff. apply bool_decide_eq_false in Hc.
  rewrite decide_False by done. by rewrite IH.
Qed.

Lemma split_sep_app a b :
  split_sep (a +:+ String "/" b) = split_sep a ++ split_sep b.
Proof.
  induction a as [|c a IH].
  - rewrite append_nil_l. cbn. by rewrite decide_True.
  - rewrite append_cons. cbn. case_decide; [by rewrite IH|].
    rewrite IH. pose proof (split_sep_nonempty a).
    by destruct (split_sep a).
Qed.

Lemma valid_name_spec n :
  valid_name n = true ↔ n ≠ "" ∧ n ≠ "." ∧ n ≠ ".." ∧ has_sep n = false.
Proof.
  unfold valid_name. rewrite !andb_true_iff, !negb_true_iff.
  rewrite !bool_decide_eq_false. tauto.
Qed.

Lemma startswith_no_sep n : has_sep n = false → startswith_sep n = false.
Proof. destruct n; cbn; [done|]. by intros [? _]%orb_false_iff. Qed.

Lemma endswith_no_sep n : has_sep n = false → endswith_sep n = false.
Proof.
  induction n as [|c n IH]; cbn; [done|].
  intros [Hc Hn]%orb_false_iff. destruct n; [done|]. by apply IH.
Qed.

Lemma endswith_sep_cons c s : s ≠ "" → endswith_sep (String c s) = endswith_sep s.
Proof. by destruct s. Qed.

Lemma endswith_sep_app a b : b ≠ "" → endswith_sep (a +:+ b) = endswith_sep b.
Proof.
  intros Hb. induction a as [|c a IH]; [done|].
  rewrite append_cons, endswith_sep_cons; [done|].
  destruct a; [done|]. by rewrite append_cons.
Qed.

Lemma concat_sep_cons x y (rel : list string) :
  String.concat "/" (x :: y :: rel) = x +:+ String "/" (String.concat "/" (y :: rel)).
Proof. done. Qed.

Lemma concat_sep_nonempty x (rel : list string) :
  x ≠ "" → String.concat "/" (x :: rel) ≠ "".
Proof. destruct rel; [done|]. rewrite concat_sep_cons. by destruct x. Qed.

Lemma endswith_sep_concat (rel : list string) :
  Forall (λ n, valid_name n = true) rel →
  endswith_sep (String.concat "/" rel) = false.
Proof.
  induction 1 as [|x rel Hx Hrel IH]; [done|].
  apply valid_name_spec in Hx as (Hne & _ & _ & Hsep).
  destruct rel as [|y rel]; [by apply endswith_no_sep|].
  rewrite concat_sep_cons, endswith_sep_app by done.
  rewrite endswith_sep_cons; [done|].
  apply concat_sep_nonempty. apply Forall_inv in Hrel.
  by apply valid_name_spec in Hrel as (? & _).
Qed.

Lemma split_sep_concat (rel : list string) :
  rel ≠ [] → Forall (λ n, valid_name n = true) rel →
  split_sep (String.concat "/" rel) = rel.
Proof.
  intros Hne Hrel. induction Hrel as [|x rel Hx Hrel IH]; [done|].
  apply valid_name_spec in Hx as (_ & _ & _ & Hsep).
  destruct rel as [|y rel]; [by apply split_sep_no_sep|].
  rewrite concat_sep_cons, split_sep_app, split_sep_no_sep by done.
  by rewrite IH.
Qed.

Lemma split_sep_relpath dirpath :
  Forall (λ n, valid_name n = true) dirpath →
  split_sep (os_path_relpath dirpath) = relpath_comps dirpath.
Proof.
  intros Hrel. unfold relpath_comps, os_path_relpath.
  destruct dirpath as [|x rel]; [done|].
  rewrite decide_False by done. by apply split_sep_concat.
Qed.

Lemma os_path_join_relpath dirpath n :
  Forall (λ n, valid_name n = true) dirpath → valid_name n = true →
  os_path_join (os_path_relpath dirpath) n
  = os_path_relpath dirpath +:+ String "/" n.
Proof.
  intros Hrel (_ & _ & _ & Hn)%valid_name_spec. unfold os_path_join.
  rewrite startswith_no_sep by done.
  assert (os_path_relpath dirpath ≠ "") as Hne.
  { destruct dirpath as [|x rel]; [done|]. apply concat_sep_nonempty.
    apply Forall_inv in Hrel. by apply valid_name_spec in Hrel as (? & _). }
  assert (endswith_sep (os_path_relpath dirpath) = false) as ->.
  { destruct dirpath as [|x rel]; [done|]. by apply endswith_sep_concat. }
  by rewrite bool_decide_eq_false_2.
Qed.

Lemma split_sep_join dirpath n :
  Forall (λ n, valid_name n = true) dirpath → valid_name n = true →
  split_sep (os_path_join (os_path_relpath dirpath) n)
  = relpath_comps dirpath ++ [n].
Proof.
  intros Hrel Hn. rewrite os_path_join_relpath, split_sep_app by done.
  rewrite split_sep_relpath by done.
  apply valid_name_spec in Hn as (_ & _ & _ & Hn).
  by rewrite split_sep_no_sep.
Qed.

Lemma relpath_comps_inj rel1 rel2 :
  Forall (λ n, valid_name n = true) rel1 →
  Forall (λ n, valid_name n = true) rel2 →
  relpath_comps rel1 = relpath_comps rel2 → rel1 = rel2.
Proof.
  unfold relpath_comps. intros H1 H2.
  repeat case_decide; subst; try done; intros Heq.
  - subst rel2. apply Forall_inv in H2.
    by apply valid_name_spec in H2 as (_ & ? & _).
  - subst rel1. apply Forall_inv in H1.
    by apply valid_name_spec in H1 as (_ & ? & _).
Qed.

(** Names under one directory are ordered as the names themselves. *)
Lemma compare_app_l p a b :
  String.compare (p +:+ a) (p +:+ b) = String.compare a b.
Proof.
  induction p as [|c p IH]; [done|]. rewrite !append_cons. cbn.
  unfold Ascii.compare. by rewrite N.compare_refl.
Qed.

Lemma le_app_l p a b : String.le a b → String.le (p +:+ a) (p +:+ b).
Proof. unfold String.le, String.leb. by rewrite compare_app_l. Qed.

(** *** Trees *)

Lemma tree_ind_dirs (P : tree → Prop) :
  (∀ fs ds, Forall (λ nd, P nd.2) ds → P (Dir fs ds)) → ∀ t, P t.
Proof.
  intros HP. fix IH 1. intros [fs ds]. apply HP.
  induction ds as [|[n d] ds IHds]; constructor; [apply IH|apply IHds].
Qed.

Lemma forallb_Forall {A} (f : A → bool) (l : list A) :
  forallb f l = true ↔ Forall (λ x, f x = true) l.
Proof.
  induction l as [|x l IH]; cbn.
  - split; [constructor|done].
  - rewrite andb_true_iff, IH, Forall_cons. done.
Qed.

Lemma wf_tree_Dir fs ds :
  wf_tree (Dir fs ds) = true ↔
    NoDup fs.*1 ∧ NoDup ds.*1
    ∧ Forall (λ n, valid_name n = true) fs.*1
    ∧ Forall (λ n, valid_name n = true) ds.*1
    ∧ Forall (λ nd, wf_tree nd.2 = true) ds.
Proof.
  cbn [wf_tree]. rewrite !andb_true_iff, !forallb_Forall, !bool_decide_eq_true.
  tauto.
Qed.

Lemma entry_Some {A} (l : list (string * A)) n a :
  NoDup l.*1 → (n, a) ∈ l → entry n l = Some a.
Proof.
  induction l as [|[n' a'] l IH]; csimpl; intros Hnd Hin.
  - by apply elem_of_nil in Hin.
  - apply NoDup_cons in Hnd as [Hn' Hnd].
    apply elem_of_cons in Hin as [[= -> ->]|Hin].
    + by rewrite decide_True.
    + rewrite decide_False; [by apply IH|].
      intros ->. apply Hn', list_elem_of_fmap. by exists (n', a).
Qed.

Lemma subdir_wf rel t t' :
  wf_tree t = true → subdir rel t t' →
  wf_tree t' = true ∧ Forall (λ n, valid_name n = true) rel.
Proof.
  intros Hwf Hsub. induction Hsub as [t|n d rel t t' Hin Hsub IH]; [done|].
  destruct t as [fs ds]. apply wf_tree_Dir in Hwf as (_ & _ & _ & Hnames & Hsubs).
  cbn in Hin. rewrite Forall_forall in Hsubs. rewrite Forall_forall in Hnames.
  destruct IH as [Hwf' Hrel]; [by apply (Hsubs (n, d))|].
  split; [done|]. constructor; [|done].
  apply Hnames, list_elem_of_fmap. by exists (n, d).
Qed.

Lemma elem_of_os_walk pre t x :
  x ∈ os_walk pre t ↔
    ∃ rel t', subdir rel t t' ∧ x = (pre ++ rel, (dirs t').*1, (files t').*1).
Proof.
  split.
  - revert pre. induction t as [fs ds IH] using tree_ind_dirs. intros pre.
    cbn [os_walk]. intros [->|Hin]%elem_of_cons.
    + exists [], (Dir fs ds). split; [constructor|]. by rewrite app_nil_r.
    + apply list_elem_of_In, in_flat_map in Hin as ([n d] & Hnd & Hin).
      apply list_elem_of_In in Hnd, Hin. rewrite Forall_forall in IH.
      destruct (IH _ Hnd _ Hin) as (rel & t' & Hsub & ->).
      exists (n :: rel), t'. split; [by econstructor|].
      cbn [fst]. by rewrite <- app_assoc.
  - intros (rel & t' & Hsub & ->). revert pre.
    induction Hsub as [t|n d rel t t' Hin Hsub IH]; intros pre.
    + destruct t as [fs ds]. cbn [os_walk]. rewrite app_nil_r. by left.
    + destruct t as [fs ds]. cbn [os_walk]. right.
      apply list_elem_of_In, in_flat_map. exists (n, d).
      split; [by apply list_elem_of_In|]. apply list_elem_of_In.
      cbn [fst snd]. specialize (IH (pre ++ [n])).
      by rewrite <- app_assoc in IH.
Qed.

Lemma resolve_file rel t t' n b :
  wf_tree t = true → subdir rel t t' → (n, b) ∈ files t' →
  resolve (rel ++ [n]) t = Some b.
Proof.
  intros Hwf Hsub Hn. induction Hsub as [t|n0 d rel t t' Hin Hsub IH].
  - destruct t as [fs ds]. apply wf_tree_Dir in Hwf as (Hnd & _ & Hnames & _).
    cbn in *. rewrite Forall_forall in Hnames.
    assert (valid_name n = true) as (? & ? & _)%valid_name_spec.
    { apply Hnames, list_elem_of_fmap. by exists (n, b). }
    rewrite decide_False by (by intros [?|?]). by apply entry_Some.
  - destruct t as [fs ds].
    apply wf_tree_Dir in Hwf as (_ & Hnd & _ & Hnames & Hsubs).
    cbn in Hin. rewrite Forall_forall in Hsubs. rewrite Forall_forall in Hnames.
    assert (valid_name n0 = true) as (? & ? & _)%valid_name_spec.
    { apply Hnames, list_elem_of_fmap. by exists (n0, d). }
    cbn [app resolve]. rewrite decide_False by (by intros [?|?]).
    cbn [dirs]. rewrite (entry_Some _ _ _ Hnd Hin).
    rewrite (IH (Hsubs (n0, d) Hin) Hn).
    by destruct (rel ++ [n]) eqn:Hrel; [destruct rel|].
Qed.

Lemma resolve_relpath_comps rel t t' n b :
  wf_tree t = true → subdir rel t t' → (n, b) ∈ files t' →
  resolve (relpath_comps rel ++ [n]) t = Some b.
Proof.
  intros Hwf Hsub Hn. unfold relpath_comps. case_decide as Hrel.
  - subst rel. cbn [app resolve]. rewrite decide_True by (by right).
    by apply (resolve_file [] t t').
  - by apply (resolve_file rel t t').
Qed.

Lemma open_read_level rel root level n b :
  wf_tree root = true → subdir rel root level → (n, b) ∈ files level →
  open_read root (os_path_join (os_path_relpath rel) n) = Ok b.
Proof.
  intros Hwf Hsub Hn. destruct (subdir_wf _ _ _ Hwf Hsub) as [Hwf' Hrel].
  unfold open_read. rewrite split_sep_join; [|done|].
  - by rewrite (resolve_relpath_comps _ _ _ _ _ Hwf Hsub Hn).
  - destruct level as [fs ds]. apply wf_tree_Dir in Hwf' as (_ & _ & Hnames & _).
    rewrite Forall_forall in Hnames. apply Hnames, list_elem_of_fmap.
    by exists (n, b).
Qed.

Lemma sorted_files_Permutation (fs : list (string * list Byte.byte)) :
  NoDup fs.*1 → sorted_files fs ≡ₚ fs.
Proof.
  intros Hnd. unfold sorted_files, sorted. rewrite merge_sort_Permutation.
  assert ((λ n, (n, default [] (entry n fs))) <$> fs.*1 = fs) as Heq;
    [|by rewrite Heq].
  rewrite <- list_fmap_compose.
  transitivity (id <$> fs); [|apply list_fmap_id].
  apply list_fmap_ext. intros i [n b] Hi. cbn.
  by rewrite (entry_Some fs n b Hnd) by (by eapply list_elem_of_lookup_2).
Qed.

Lemma elem_of_sorted n (l : list string) : n ∈ sorted l ↔ n ∈ l.
Proof. unfold sorted. by rewrite merge_sort_Permutation. Qed.

Lemma sorted_nil_inv (l : list string) : sorted l = [] → l = [].
Proof.
  intros Hs. apply Permutation_nil_r. rewrite <- Hs. unfold sorted.
  by rewrite merge_sort_Permutation.
Qed.

Lemma fst_sorted_files fs : (sorted_files fs).*1 = sorted fs.*1.
Proof.
  unfold sorted_files. rewrite <- list_fmap_compose.
  transitivity (id <$> sorted fs.*1); [|apply list_fmap_id].
  by apply list_fmap_ext.
Qed.

Lemma level_name_tuple_sorted_files rel fs :
  level_name_tuple rel fs.*1
  = os_path_join (os_path_relpath rel) <$> (sorted_files fs).*1.
Proof. by rewrite fst_sorted_files. Qed.

(** The files of a directory of a well-formed mutant are read, in the
    order of the name tuple. *)
Lemma read_level rel root level :
  wf_tree root = true → subdir rel root level →
  read_name_tuple_from_root (level_name_tuple rel (files level).*1) root
  = Ok (sorted_files (files level)).*2.
Proof.
  intros Hwf Hsub. destruct (subdir_wf _ _ _ Hwf Hsub) as [Hwf' Hrel].
  unfold read_name_tuple_from_root, level_name_tuple.
  rewrite <- mapM_fmap_result. unfold sorted_files.
  rewrite <- list_fmap_compose.
  apply mapM_Ok_fmap. intros n Hn. apply (proj1 (elem_of_sorted _ _)) in Hn.
  apply list_elem_of_fmap in Hn as ([n' b] & -> & Hin). cbn.
  destruct level as [fs ds]. pose proof Hwf' as (Hnd & _)%wf_tree_Dir.
  cbn [files] in *. rewrite (entry_Some fs n' b Hnd Hin). cbn.
  by apply (open_read_level rel root (Dir fs ds)).
Qed.

Lemma level_name_tuple_inj rel1 fns1 rel2 fns2 :
  Forall (λ n, valid_name n = true) rel1 →
  Forall (λ n, valid_name n = true) rel2 →
  Forall (λ n, valid_name n = true) fns1 →
  Forall (λ n, valid_name n = true) fns2 →
  fns1 ≠ [] →
  level_name_tuple rel1 fns1 = level_name_tuple rel2 fns2 → rel1 = rel2.
Proof.
  intros Hrel1 Hrel2 Hfns1 Hfns2 Hne. unfold level_name_tuple.
  destruct (sorted fns1) as [|n1 l1] eqn:Hs1; [by apply sorted_nil_inv in Hs1|].
  destruct (sorted fns2) as [|n2 l2] eqn:Hs2; [done|]. csimpl.
  intros [= Hjoin _]. apply (f_equal split_sep) in Hjoin.
  rewrite Forall_forall in Hfns1. rewrite Forall_forall in Hfns2.
  rewrite !split_sep_join in Hjoin; [|done|..|done|].
  - apply app_inj_tail in Hjoin as [Hcomps _].
    by apply relpath_comps_inj.
  - apply Hfns2, elem_of_sorted. rewrite Hs2. by left.
  - apply Hfns1, elem_of_sorted. rewrite Hs1. by left.
Qed.

Lemma NoDup_fmap_elem_inj {A B} (f : A → B) (l : list A) x y :
  NoDup (f <$> l) → x ∈ l → y ∈ l → f x = f y → x = y.
Proof.
  induction l as [|z l IH]; csimpl; intros Hnd Hx Hy Hxy.
  - by apply elem_of_nil in Hx.
  - apply NoDup_cons in Hnd as [Hz Hnd].
    apply elem_of_cons in Hx as [->|Hx]; apply elem_of_cons in Hy as [->|Hy];
      try done.
    + destruct Hz. rewrite Hxy. by apply list_elem_of_fmap_2.
    + destruct Hz. rewrite <- Hxy. by apply list_elem_of_fmap_2.
    + by apply IH.
Qed.

(** The directories of the walk of a well-formed tree are distinct. *)
Lemma NoDup_os_walk pre t :
  wf_tree t = true → NoDup ((λ x, x.1.1) <$> os_walk pre t).
Proof.
  revert pre. induction t as [fs ds IH] using tree_ind_dirs. intros pre Hwf.
  apply wf_tree_Dir in Hwf as (_ & Hnd & _ & _ & Hsubs).
  cbn [os_walk]. csimpl. apply NoDup_cons. split.
  - intros ([[dp dns] fns] & Hdp & Hin)%list_elem_of_fmap. cbn in Hdp. subst dp.
    apply list_elem_of_In, in_flat_map in Hin as ([n d] & _ & Hin).
    apply list_elem_of_In, elem_of_os_walk in Hin as (rel & t' & _ & [= Hpre _ _]).
    cbn in Hpre. apply (f_equal length) in Hpre.
    rewrite !length_app in Hpre. cbn in Hpre. lia.
  - clear fs. induction ds as [|[n d] ds IHds]; [constructor|].
    cbn [flat_map fst snd]. rewrite fmap_app.
    apply Forall_cons in IH as [IHd IH]. apply Forall_cons in Hsubs as [Hd Hsubs].
    csimpl in Hnd. apply NoDup_cons in Hnd as [Hn Hnd].
    apply NoDup_app. split_and!; [by apply IHd| |by apply IHds].
    intros dp ([[dp1 dns1] fns1] & Hdp1 & Hin1)%list_elem_of_fmap
              ([[dp2 dns2] fns2] & Hdp2 & Hin2)%list_elem_of_fmap.
    cbn in Hdp1, Hdp2. subst dp1 dp2.
    apply elem_of_os_walk in Hin1 as (rel1 & t1 & _ & [= Hdp1 _ _]).
    apply list_elem_of_In, in_flat_map in Hin2 as ([n' d'] & Hnd' & Hin2).
    apply list_elem_of_In, elem_of_os_walk in Hin2 as (rel2 & t2 & _ & [= Hdp2 _ _]).
    apply list_elem_of_In in Hnd'. cbn in *. rewrite Hdp1 in Hdp2.
    rewrite <- !app_assoc in Hdp2. apply app_inv_head in Hdp2.
    injection Hdp2 as -> _. apply Hn, list_elem_of_fmap. by exists (n', d').
Qed.
End PathFacts.

(** ** The indexer and the classifier *)

Module TceFacts.
Import PyDict PyDictFacts Tce ResultFacts PathFacts.

(** *** Loops as lists of insertions *)

Lemma replay_app evs1 evs2 st :
  replay (evs1 ++ evs2) st = replay evs2 (replay evs1 st).
Proof. apply foldl_app. Qed.

(** A loop whose body makes the insertions [ev x], as long as [I] holds
    of the state, makes the insertions of all its rounds. *)
Lemma for_each_events {A} (I : state → Prop) (body : A → state → result state)
    (ev : A → result (list event)) (l : list A) (st : state) :
  (∀ x s, x ∈ l → I s → body x s = evs ← ev x; Ok (replay evs s)) →
  (∀ x s evs, x ∈ l → I s → ev x = Ok evs → I (replay evs s)) →
  I st →
  for_each body l st = evss ← mapM ev l; Ok (replay (concat evss) st).
Proof.
  revert st. induction l as [|x l IH]; intros st Hbody HI Hst; cbn; [done|].
  rewrite Hbody by (done || by left).
  destruct (ev x) as [evs|] eqn:Hx; [|done]. cbn.
  rewrite IH.
  - destruct (mapM ev l) as [evss|]; [|done].
    cbn [mbind result_bind mret result_ret concat]. by rewrite replay_app.
  - intros y s Hy. apply Hbody. by right.
  - intros y s evs' Hy. apply HI. by right.
  - apply (HI x); [by left|done..].
Qed.

Lemma progress_Ok done total increment :
  total ≠ 0 → increment ≠ 0 → progress done total increment = Ok ().
Proof. intros. unfold progress. by repeat case_decide. Qed.

Lemma index_level_events root mid level st :
  index_level root mid level st
  = evs ← level_events root mid level; Ok (replay evs st).
Proof.
  destruct level as [[dirpath dirnames] filenames].
  unfold index_level, level_events. case_decide; [done|].
  destruct (read_name_tuple_from_root _ root) as [contents_tuple|]; csimpl.
  - unfold register. by destruct (setdefault _ _ _).
  - by destruct (setdefault _ _ _).
Qed.

Lemma index_mutant_events num_mutants i midroot st :
  num_mutants ≠ 0 →
  index_mutant num_mutants (i, midroot) st
  = evs ← mutant_events midroot; Ok (replay evs st).
Proof.
  intros Hn. destruct midroot as [mid root]. unfold index_mutant, mutant_events.
  cbn [fst snd].
  rewrite (for_each_events (λ _, True) _ (level_events root mid)); try done.
  - destruct (mapM _ _) as [evss|]; [|done]. csimpl.
    by rewrite progress_Ok.
  - intros. apply index_level_events.
Qed.

Lemma snd_enumerate {A} (l : list A) : (enumerate l).*2 = l.
Proof. unfold enumerate. apply snd_zip. by rewrite length_seq. Qed.

Lemma index_mutants_events mutants st :
  index_mutants mutants st = evs ← index_events mutants; Ok (replay evs st).
Proof.
  unfold index_mutants, index_events.
  rewrite (for_each_events (λ _, True) _ (mutant_events ∘ snd)); try done.
  - rewrite mapM_fmap_result, snd_enumerate.
    by destruct (mapM mutant_events (dirs mutants)).
  - intros [i midroot] s Hin _. apply index_mutant_events.
    destruct (dirs mutants); [by apply elem_of_nil in Hin|done].
Qed.

(** *** One insertion *)

Lemma lookup_class_register nt ct mid st nt' ct' :
  lookup_class (register (nt, ct, mid) st) nt' ct'
  = if decide (nt' = nt ∧ ct' = ct) then Some (insertion_loc st nt ct)
    else lookup_class st nt' ct'.
Proof.
  unfold insertion_loc, lookup_class, register, class_add, setdefault.
  destruct (get nt (hashes st)) as [d|] eqn:Hd; cbn [mbind option_bind default from_option id].
  - destruct (d !! ct) as [l|] eqn:Hl; cbn [hashes heap default from_option id];
      rewrite get_setitem; destruct (decide (nt' = nt)) as [->|Hnt];
      cbn [mbind option_bind].
    + case_decide as Hboth; [by destruct Hboth as [_ ->]|by rewrite Hd].
    + rewrite decide_False; [done|]. by intros [? _].
    + case_decide as Hboth.
      * destruct Hboth as [_ ->]. by rewrite lookup_insert_eq.
      * rewrite lookup_insert_ne, Hd; [done|]. intros ->. by apply Hboth.
    + rewrite decide_False; [done|]. by intros [? _].
  - rewrite lookup_empty. cbn [hashes heap default from_option id].
    rewrite get_setitem; destruct (decide (nt' = nt)) as [->|Hnt];
      cbn [mbind option_bind].
    + case_decide as Hboth.
      * destruct Hboth as [_ ->]. by rewrite lookup_insert_eq.
      * rewrite lookup_insert_ne, Hd; [done|]. intros ->. by apply Hboth.
    + rewrite decide_False by (by intros [? _]). by rewrite get_setitem_ne.
Qed.

Lemma heap_register nt ct mid st :
  heap (register (nt, ct, mid) st)
  = alter (λ eq_class, {[mid]} ∪ eq_class) (insertion_loc st nt ct)
      (if lookup_class st nt ct is Some _ then heap st else heap st ++ [∅]).
Proof.
  unfold insertion_loc, lookup_class, register, class_add, setdefault.
  destruct (get nt (hashes st)) as [d|] eqn:Hd; cbn [mbind option_bind default from_option id].
  - by destruct (d !! ct) as [l|] eqn:Hl.
  - by rewrite lookup_empty.
Qed.

Lemma ns_register nt ct mid st :
  nonsingleton_equivalence_classes (register (nt, ct, mid) st)
  = nonsingleton_equivalence_classes st
    ++ (if decide (size (deref (register (nt, ct, mid) st)
                           (insertion_loc st nt ct)) = 2)
        then [insertion_loc st nt ct] else []).
Proof.
  unfold insertion_loc, lookup_class, deref, register, class_add, setdefault.
  destruct (get nt (hashes st)) as [d|] eqn:Hd; cbn [mbind option_bind default from_option id].
  - destruct (d !! ct) as [l|] eqn:Hl;
      cbn [heap nonsingleton_equivalence_classes default from_option id];
      case_decide; by rewrite ?app_nil_r.
  - rewrite lookup_empty.
    cbn [heap nonsingleton_equivalence_classes default from_option id].
    case_decide; by rewrite ?app_nil_r.
Qed.

Lemma keys_register nt ct mid st :
  keys (hashes (register (nt, ct, mid) st))
  = if get nt (hashes st) is Some _ then keys (hashes st)
    else keys (hashes st) ++ [nt].
Proof.
  unfold register, class_add, setdefault.
  destruct (get nt (hashes st)) as [d|] eqn:Hd.
  - destruct (d !! ct); cbn [hashes]; by rewrite keys_setitem, Hd.
  - rewrite lookup_empty. cbn [hashes].
    by rewrite keys_setitem, get_setitem_eq, keys_setitem, Hd.
Qed.

Lemma deref_register nt ct mid st l :
  (∀ l', lookup_class st nt ct = Some l' → l' < length (heap st)) →
  deref (register (nt, ct, mid) st) l
  = if decide (l = insertion_loc st nt ct) then {[mid]} ∪ deref st l
    else deref st l.
Proof.
  intros Hbound. unfold deref. rewrite heap_register. unfold insertion_loc.
  destruct (lookup_class st nt ct) as [l'|] eqn:Hl'; cbn [default from_option id].
  - case_decide as Heq.
    + subst l. rewrite list_lookup_alter_eq.
      specialize (Hbound _ eq_refl). apply lookup_lt_is_Some in Hbound as [x ->].
      done.
    + by rewrite list_lookup_alter_ne.
  - case_decide as Heq.
    + subst l. rewrite list_lookup_alter_eq.
      rewrite lookup_app_r, Nat.sub_diag by done.
      rewrite (lookup_ge_None_2 (heap st)) by done. done.
    + rewrite list_lookup_alter_ne by done.
      destruct (decide (l < length (heap st))).
      * by rewrite lookup_app_l.
      * rewrite !lookup_ge_None_2; [done|lia|]. rewrite length_app. simpl. lia.
Qed.

Lemma length_heap_register nt ct mid st :
  length (heap (register (nt, ct, mid) st))
  = if lookup_class st nt ct is Some _ then length (heap st)
    else S (length (heap st)).
Proof.
  rewrite heap_register, length_alter.
  destruct (lookup_class st nt ct); [done|]. rewrite length_app. simpl. lia.
Qed.

Lemma size_add (x : string) (X : gset string) :
  size ({[x]} ∪ X) = if decide (x ∈ X) then size X else S (size X).
Proof.
  case_decide as Hx.
  - f_equal. set_solver.
  - rewrite size_union by set_solver. by rewrite size_singleton.
Qed.

Lemma insertion_loc_bound st nt ct :
  inv st → insertion_loc st nt ct ≤ length (heap st).
Proof.
  intros Hinv. unfold insertion_loc.
  destruct (lookup_class st nt ct) as [l|] eqn:Hl; cbn; [|done].
  apply Nat.lt_le_incl. by eapply inv_bound.
Qed.

Lemma deref_ge st l : length (heap st) ≤ l → deref st l = ∅.
Proof. intros. unfold deref. by rewrite lookup_ge_None_2. Qed.

Lemma members_insertion_loc st nt ct :
  members st nt ct = deref st (insertion_loc st nt ct).
Proof.
  unfold members, insertion_loc.
  destruct (lookup_class st nt ct); cbn; [done|]. by rewrite deref_ge.
Qed.

Lemma inv_init : inv init.
Proof.
  split; try done.
  - cbn. lia.
  - intros l. rewrite deref_ge by (cbn; lia). cbn.
    rewrite elem_of_nil, size_empty. lia.
  - constructor.
Qed.

Lemma inv_register e st : inv st → inv (register e st).
Proof.
  destruct e as [[nt ct] mid]. intros Hinv.
  pose proof (inv_bound _ Hinv) as Hbound.
  assert (∀ l', lookup_class st nt ct = Some l' → l' < length (heap st))
    as Hb by (intros; by eapply Hbound).
  split.
  - intros nt' ct' l. rewrite lookup_class_register, length_heap_register.
    case_decide as Htarget.
    + intros [= <-]. unfold insertion_loc.
      destruct (lookup_class st nt ct) as [l'|] eqn:Hl'; cbn; [by eapply Hbound|lia].
    + intros Hl%Hbound. destruct (lookup_class st nt ct); lia.
  - intros nt1 ct1 nt2 ct2 l. rewrite !lookup_class_register.
    unfold insertion_loc.
    repeat case_decide; destruct_and?; simplify_eq; try done;
      destruct (lookup_class st nt ct) as [l'|] eqn:Hl'; cbn;
      intros; simplify_eq;
      try (by eapply (inv_inj _ Hinv));
      try (match goal with H : lookup_class st _ _ = Some (length (heap st)) |- _ =>
             apply Hbound in H; lia end).
  - intros l. rewrite length_heap_register. intros Hl.
    destruct (decide (l < length (heap st))) as [Hlt|Hge].
    + destruct (inv_surj _ Hinv l Hlt) as (nt' & ct' & Hl').
      exists nt', ct'. rewrite lookup_class_register. case_decide as Htarget; [|done].
      destruct Htarget as [-> ->]. unfold insertion_loc. by rewrite Hl'.
    + exists nt, ct. rewrite lookup_class_register, decide_True by done.
      unfold insertion_loc.
      destruct (lookup_class st nt ct); cbn; [lia|]. f_equal. lia.
  - intros l. rewrite ns_register, elem_of_app, !deref_register by done.
    rewrite (decide_True (P := insertion_loc st nt ct = insertion_loc st nt ct))
      by done.
    rewrite (inv_ns _ Hinv), size_add.
    destruct (decide (l = insertion_loc st nt ct)) as [->|Hne].
    + rewrite size_add. repeat case_decide; rewrite ?list_elem_of_singleton,
        ?elem_of_nil; lia.
    + repeat case_decide; rewrite ?list_elem_of_singleton, ?elem_of_nil;
        naive_solver.
  - rewrite keys_register. destruct (get nt (hashes st)) eqn:Hget.
    + by apply inv_keys.
    + apply NoDup_app. split_and!; [by apply inv_keys| |apply NoDup_singleton].
      intros x Hx ->%list_elem_of_singleton. by apply get_None_keys in Hget.
Qed.

Lemma inv_replay evs st : inv st → inv (replay evs st).
Proof.
  revert st. induction evs as [|e evs IH]; intros st Hinv; [done|].
  apply IH. by apply inv_register.
Qed.

Lemma members_register nt ct mid st nt' ct' :
  inv st →
  members (register (nt, ct, mid) st) nt' ct'
  = if decide (nt' = nt ∧ ct' = ct) then {[mid]} ∪ members st nt ct
    else members st nt' ct'.
Proof.
  intros Hinv.
  assert (∀ l', lookup_class st nt ct = Some l' → l' < length (heap st))
    as Hb by (intros; by eapply inv_bound).
  unfold members at 1. rewrite lookup_class_register.
  case_decide as Htarget; cbn [from_option].
  - rewrite deref_register, decide_True by done.
    by rewrite members_insertion_loc.
  - unfold members. destruct (lookup_class st nt' ct') as [l|] eqn:Hl;
      cbn [from_option]; [|done].
    rewrite deref_register, decide_False; [done| |done].
    unfold insertion_loc. intros ->.
    destruct (lookup_class st nt ct) as [l'|] eqn:Hl'; cbn in Hl.
    + destruct (inv_inj _ Hinv _ _ _ _ _ Hl Hl'). by apply Htarget.
    + apply (inv_bound _ Hinv) in Hl. lia.
Qed.

Lemma elem_of_members_replay evs st nt ct mid :
  inv st →
  mid ∈ members (replay evs st) nt ct
  ↔ mid ∈ members st nt ct ∨ (nt, ct, mid) ∈ evs.
Proof.
  revert st. induction evs as [|[[nt' ct'] mid'] evs IH]; intros st Hinv.
  - cbn. rewrite elem_of_nil. naive_solver.
  - cbn [replay foldl]. fold (replay evs (register (nt', ct', mid') st)).
    rewrite IH by (by apply inv_register). rewrite members_register by done.
    rewrite elem_of_cons. case_decide as Htarget.
    + destruct Htarget as [-> ->]. rewrite elem_of_union, elem_of_singleton.
      naive_solver.
    + naive_solver.
Qed.

Lemma is_Some_lookup_class_replay evs st nt ct :
  is_Some (lookup_class (replay evs st) nt ct)
  ↔ is_Some (lookup_class st nt ct) ∨ ∃ mid, (nt, ct, mid) ∈ evs.
Proof.
  revert st. induction evs as [|[[nt' ct'] mid'] evs IH]; intros st.
  - cbn. split; [by left|]. intros [?|[? []%elem_of_nil]]. done.
  - cbn [replay foldl]. fold (replay evs (register (nt', ct', mid') st)).
    rewrite IH, lookup_class_register. case_decide as Htarget.
    + destruct Htarget as [-> ->]. split.
      * intros _. right. eexists. by left.
      * intros _. left. by eexists.
    + split.
      * intros [?|[mid Hin]]; [by left|]. right. exists mid. by right.
      * intros [?|[mid Hin]]; [by left|]. right. exists mid.
        apply elem_of_cons in Hin as [[= -> -> ->]|?]; [|done].
        by destruct Htarget.
Qed.

Lemma elem_of_keys_replay evs st nt :
  nt ∈ keys (hashes (replay evs st))
  ↔ nt ∈ keys (hashes st) ∨ ∃ ct mid, (nt, ct, mid) ∈ evs.
Proof.
  revert st. induction evs as [|[[nt' ct'] mid'] evs IH]; intros st.
  - cbn. split; [by left|]. intros [?|(? & ? & []%elem_of_nil)]. done.
  - cbn [replay foldl]. fold (replay evs (register (nt', ct', mid') st)).
    rewrite IH, keys_register.
    assert (nt ∈ (if get nt' (hashes st) is Some _ then keys (hashes st)
                  else keys (hashes st) ++ [nt'])
            ↔ nt ∈ keys (hashes st) ∨ nt = nt') as ->.
    { destruct (get nt' (hashes st)) eqn:Hget.
      - split; [by left|]. intros [?| ->]; [done|].
        apply elem_of_keys. by rewrite Hget.
      - by rewrite elem_of_app, list_elem_of_singleton. }
    split.
    + intros [[?| ->]|(ct & mid & Hin)]; [by left| |].
      * right. do 2 eexists. by left.
      * right. exists ct, mid. by right.
    + intros [?|(ct & mid & Hin)]; [by left; left|].
      apply elem_of_cons in Hin as [[= -> -> ->]|?]; [by left; right|].
      right. by exists ct, mid.
Qed.

(** *** The insertions of the two loops *)

Lemma level_events_Ok root mid dirpath dirnames filenames evs :
  level_events root mid (dirpath, dirnames, filenames) = Ok evs →
  ∀ nt ct id, (nt, ct, id) ∈ evs ↔
    filenames ≠ [] ∧ id = mid
    ∧ nt = level_name_tuple dirpath filenames
    ∧ read_name_tuple_from_root nt root = Ok ct.
Proof.
  unfold level_events. case_decide as Hfiles.
  - intros [= <-] nt ct id. rewrite elem_of_nil. naive_solver.
  - destruct (read_name_tuple_from_root _ root) as [ct0|] eqn:Hread; [|done].
    cbn. intros [= <-] nt ct id. rewrite list_elem_of_singleton. split.
    + by intros [= -> -> ->].
    + intros (_ & -> & -> & Hct). rewrite Hread in Hct. by simplify_eq.
Qed.

Lemma elem_of_mutant_events mid root evs nt ct id :
  mutant_events (mid, root) = Ok evs →
  (nt, ct, id) ∈ evs ↔
    id = mid ∧ ∃ dirpath dirnames filenames,
      (dirpath, dirnames, filenames) ∈ os_walk [] root ∧ filenames ≠ []
      ∧ nt = level_name_tuple dirpath filenames
      ∧ read_name_tuple_from_root nt root = Ok ct.
Proof.
  unfold mutant_events. cbn [fst snd].
  destruct (mapM _ _) as [evss|] eqn:HM; [|done]. cbn. intros [= <-].
  rewrite (elem_of_concat_mapM _ _ _ _ HM). split.
  - intros ([[dp dns] fns] & k & Hin & Hk & Hy).
    apply (level_events_Ok _ _ _ _ _ _ Hk) in Hy as (? & ? & ? & ?).
    split; [done|]. by exists dp, dns, fns.
  - intros (-> & dp & dns & fns & Hin & Hfns & Hnt & Hct).
    pose proof (mapM_Ok_Forall2 _ _ _ HM) as HF.
    apply list_elem_of_lookup in Hin as [i Hi].
    destruct (Forall2_lookup_l _ _ _ _ _ HF Hi) as (k & _ & Hk).
    exists (dp, dns, fns), k. split_and!; [by eapply list_elem_of_lookup_2|done|].
    by apply (level_events_Ok _ _ _ _ _ _ Hk).
Qed.

Lemma elem_of_index_events mutants evs nt ct id :
  index_events mutants = Ok evs →
  (nt, ct, id) ∈ evs ↔
    ∃ root dirpath dirnames filenames,
      (id, root) ∈ dirs mutants
      ∧ (dirpath, dirnames, filenames) ∈ os_walk [] root ∧ filenames ≠ []
      ∧ nt = level_name_tuple dirpath filenames
      ∧ read_name_tuple_from_root nt root = Ok ct.
Proof.
  unfold index_events.
  destruct (mapM _ _) as [evss|] eqn:HM; [|done]. cbn. intros [= <-].
  rewrite (elem_of_concat_mapM _ _ _ _ HM). split.
  - intros ([mid root] & k & Hin & Hk & Hy).
    apply (elem_of_mutant_events _ _ _ _ _ _ Hk) in Hy
      as (-> & dp & dns & fns & ?). by exists root, dp, dns, fns.
  - intros (root & dp & dns & fns & Hin & Hrest).
    pose proof (mapM_Ok_Forall2 _ _ _ HM) as HF.
    apply list_elem_of_lookup in Hin as [i Hi].
    destruct (Forall2_lookup_l _ _ _ _ _ HF Hi) as (k & _ & Hk).
    exists (id, root), k. split_and!; [by eapply list_elem_of_lookup_2|done|].
    apply (elem_of_mutant_events _ _ _ _ _ _ Hk). split; [done|].
    by exists dp, dns, fns.
Qed.

Lemma elem_of_baseline_events program st evs nt ct id :
  baseline_events program st = Ok evs →
  (nt, ct, id) ∈ evs ↔
    nt ∈ keys (hashes st) ∧ id = "0"
    ∧ read_name_tuple_from_root nt program = Ok ct.
Proof.
  unfold baseline_events.
  destruct (mapM _ _) as [evss|] eqn:HM; [|done]. cbn. intros [= <-].
  rewrite (elem_of_concat_mapM _ _ _ _ HM). split.
  - intros (nt' & k & Hin & Hk & Hy). unfold baseline_event in Hk.
    destruct (read_name_tuple_from_root nt' program) as [ct'|] eqn:Hread; [|done].
    cbn in Hk. simplify_eq. apply list_elem_of_singleton in Hy. by simplify_eq.
  - intros (Hin & -> & Hread).
    pose proof (mapM_Ok_Forall2 _ _ _ HM) as HF.
    apply list_elem_of_lookup in Hin as [i Hi].
    destruct (Forall2_lookup_l _ _ _ _ _ HF Hi) as (k & _ & Hk).
    exists nt, k. split_and!; [by eapply list_elem_of_lookup_2|done|].
    unfold baseline_event in Hk. rewrite Hread in Hk. cbn in Hk.
    simplify_eq. by left.
Qed.

Lemma baseline_step_events program n i nt st :
  n ≠ 0 → nt ∈ keys (hashes st) →
  baseline_step program n (i, nt) st
  = evs ← baseline_event program nt; Ok (replay evs st).
Proof.
  intros Hn [d Hd]%elem_of_keys. unfold baseline_step, baseline_event.
  destruct (read_name_tuple_from_root nt program) as [ct|]; [|done].
  cbn. rewrite Hd. cbn. rewrite progress_Ok by done. cbn.
  unfold register, setdefault. rewrite Hd. by destruct st.
Qed.

Lemma baseline_pass_events program st :
  baseline_pass program st
  = evs ← baseline_events program st; Ok (replay evs st).
Proof.
  unfold baseline_pass, baseline_events.
  rewrite (for_each_events
             (λ s, ∀ nt, nt ∈ keys (hashes st) → nt ∈ keys (hashes s))
             _ (baseline_event program ∘ snd)); [|..|done].
  - rewrite mapM_fmap_result, snd_enumerate.
    by destruct (mapM (baseline_event program) (keys (hashes st))).
  - intros [i nt] s Hin Hs. apply baseline_step_events.
    + unfold keys in Hin. destruct (hashes st); [by apply elem_of_nil in Hin|done].
    + apply Hs. rewrite <- (snd_enumerate (keys (hashes st))).
      apply list_elem_of_fmap. by exists (i, nt).
  - intros [i nt] s evs _ Hs _ nt' Hnt'. apply elem_of_keys_replay. left. by apply Hs.
Qed.

Lemma tce_loops_Ok mutants program st :
  tce_loops mutants program = Ok st →
  ∃ evs1 evs2,
    index_events mutants = Ok evs1
    ∧ index_mutants mutants init = Ok (replay evs1 init)
    ∧ baseline_events program (replay evs1 init) = Ok evs2
    ∧ st = replay (evs1 ++ evs2) init.
Proof.
  unfold tce_loops. rewrite index_mutants_events.
  destruct (index_events mutants) as [evs1|] eqn:H1; cbn; [|done].
  destruct (progress (length (dirs mutants)) _ 1); cbn; [|done].
  rewrite baseline_pass_events.
  destruct (baseline_events program _) as [evs2|] eqn:H2; cbn; [|done].
  destruct (progress _ _ 1); cbn; [|done]. intros [= <-].
  exists evs1, evs2. by rewrite replay_app.
Qed.

Lemma tce_loops_inv mutants program st :
  tce_loops mutants program = Ok st → inv st.
Proof.
  intros (evs1 & evs2 & _ & _ & _ & ->)%tce_loops_Ok.
  apply inv_replay, inv_init.
Qed.

Lemma keys_replay_known evs st :
  (∀ nt ct mid, (nt, ct, mid) ∈ evs → nt ∈ keys (hashes st)) →
  keys (hashes (replay evs st)) = keys (hashes st).
Proof.
  revert st. induction evs as [|[[nt ct] mid] evs IH]; intros st Hevs; [done|].
  cbn [replay foldl]. fold (replay evs (register (nt, ct, mid) st)).
  assert (keys (hashes (register (nt, ct, mid) st)) = keys (hashes st)) as Hk.
  { rewrite keys_register.
    destruct (get nt (hashes st)) eqn:Hget; [done|].
    apply get_None_keys in Hget. destruct Hget. eapply Hevs. by left. }
  rewrite IH, Hk; [done|]. intros nt' ct' mid' Hin. rewrite Hk.
  eapply Hevs. by right.
Qed.

Lemma concat_fmap_nil {A B} (l : list A) : concat ((λ _, @nil B) <$> l) = [].
Proof. by induction l. Qed.

Lemma not_elem_of_members_index mutants evs nt ct mid :
  index_events mutants = Ok evs → mid ∉ (dirs mutants).*1 →
  mid ∉ members (replay evs init) nt ct.
Proof.
  intros Hevs Hmid. rewrite elem_of_members_replay by apply inv_init.
  intros [[]%not_elem_of_empty|Hin].
  apply (elem_of_index_events _ _ _ _ _ Hevs) in Hin
    as (root & ? & ? & ? & Hin & _).
  apply Hmid, list_elem_of_fmap. by exists (mid, root).
Qed.

(** *** The claims about the classifier *)

(** C2: when no mutant is called ["0"] and the baseline has the files of
    every name tuple of the table, the loop of step 2 returns, keeps the
    keys of the table, and for every key puts ["0"] into the class of
    the contents read from the baseline and into no other class of that
    key; the classes keep their mutants, and the class of ["0"] is a new
    class [{"0"}] when no mutant has the contents of the baseline. *)
Theorem baseline_joins_matching_class mutants program st1 :
  "0" ∉ (dirs mutants).*1 →
  index_mutants mutants init = Ok st1 →
  (∀ nt, nt ∈ keys (hashes st1) →
         ∃ ct, read_name_tuple_from_root nt program = Ok ct) →
  ∃ st2, baseline_pass program st1 = Ok st2
    ∧ keys (hashes st2) = keys (hashes st1)
    ∧ ∀ nt ct0, nt ∈ keys (hashes st1) →
        read_name_tuple_from_root nt program = Ok ct0 →
        is_Some (lookup_class st2 nt ct0)
        ∧ (∀ ct, "0" ∈ members st2 nt ct ↔ ct = ct0)
        ∧ (∀ ct, members st2 nt ct
                 = if decide (ct = ct0) then {["0"]} ∪ members st1 nt ct
                   else members st1 nt ct)
        ∧ (lookup_class st1 nt ct0 = None → members st2 nt ct0 = {["0"]}).
Proof.
  intros Hzero Hidx Hread. rewrite index_mutants_events in Hidx.
  destruct (index_events mutants) as [evs1|] eqn:Hevs1; [|done].
  cbn in Hidx. injection Hidx as <-.
  set (st1 := replay evs1 init) in *.
  assert (inv st1) as Hinv by apply inv_replay, inv_init.
  set (ct_of nt := match read_name_tuple_from_root nt program with
                   | Ok ct => ct | Raise _ => [] end).
  assert (mapM (baseline_event program) (keys (hashes st1))
          = Ok ((λ nt, [(nt, ct_of nt, "0")]) <$> keys (hashes st1))) as HM.
  { apply mapM_Ok_fmap. intros nt [ct Hct]%Hread.
    unfold baseline_event, ct_of. by rewrite Hct. }
  assert (∃ evs2, baseline_events program st1 = Ok evs2) as [evs2 Hevs2].
  { unfold baseline_events. rewrite HM. by eexists. }
  exists (replay evs2 st1). rewrite baseline_pass_events, Hevs2.
  split; [done|]. split.
  { apply keys_replay_known. intros nt ct mid Hin.
    by apply (elem_of_baseline_events _ _ _ _ _ _ Hevs2) in Hin as [? _]. }
  intros nt ct0 Hnt Hct0.
  assert (∀ ct, members (replay evs2 st1) nt ct
                = if decide (ct = ct0) then {["0"]} ∪ members st1 nt ct
                  else members st1 nt ct) as Hmem.
  { intros ct. apply set_eq. intros mid.
    rewrite elem_of_members_replay by done.
    rewrite (elem_of_baseline_events _ _ _ _ _ _ Hevs2).
    case_decide as Hct; [subst ct; rewrite elem_of_union, elem_of_singleton|].
    - naive_solver.
    - split; [|by left]. intros [?|(_ & _ & Hct')]; [done|].
      rewrite Hct0 in Hct'. by simplify_eq. }
  assert (∀ ct, "0" ∉ members st1 nt ct) as Hnot
    by (intros; by eapply not_elem_of_members_index).
  split_and!; [|      |done|].
  - apply is_Some_lookup_class_replay. right. exists "0".
    by apply (elem_of_baseline_events _ _ _ _ _ _ Hevs2).
  - intros ct. rewrite Hmem. case_decide as Hct.
    + split; [done|]. intros _. apply elem_of_union_l. by apply elem_of_singleton.
    + split; [|done]. intros ?. by destruct (Hnot ct).
  - intros Hnone. rewrite Hmem, decide_True by done.
    unfold members. rewrite Hnone. cbn. set_solver.
Qed.

Lemma baseline_joins_matching_class_witness :
  ("0" ∉ (dirs two_level_mutants).*1)
  ∧ index_mutants two_level_mutants init = Ok (replay two_level_index_events init)
  ∧ ∃ st2,
      baseline_pass two_level_program (replay two_level_index_events init) = Ok st2
      ∧ keys (hashes st2) = keys (hashes (replay two_level_index_events init)).
Proof.
  assert ("0" ∉ (dirs two_level_mutants).*1) as Hzero.
  { cbn. intros [?|[?|[]%elem_of_nil]%elem_of_cons]%elem_of_cons; done. }
  assert (index_mutants two_level_mutants init
          = Ok (replay two_level_index_events init)) as Hidx by (by vm_compute).
  split_and!; [done..|].
  destruct (baseline_joins_matching_class two_level_mutants two_level_program
              _ Hzero Hidx) as (st2 & Hst2 & Hkeys & _).
  - assert (keys (hashes (replay two_level_index_events init))
            = [["./A.class"]; ["pkg/B.class"; "pkg/C.class"]]) as ->
      by (by vm_compute).
    intros nt [->|[->|[]%elem_of_nil]%elem_of_cons]%elem_of_cons;
      eexists; by vm_compute.
  - by exists st2.
Defined.

(** C3: in the result of a run, every class of the equivalent mutants
    contains ["0"], no class of the redundant mutants does, the two
    collections together are the collection of all the classes kept,
    and a set is in that collection exactly when it is the set of a
    class of the table with two members or more. *)
Theorem equivalent_redundant_split mutants program r :
  run_tce mutants program = Ok r →
  (∀ c, c ∈ equivalent_mutants r → "0" ∈ c)
  ∧ (∀ c, c ∈ redundant_mutants r → "0" ∉ c)
  ∧ (∀ c, c ∈ equivalent_mutants r ∨ c ∈ redundant_mutants r
          ↔ c ∈ all_equivalences r)
  ∧ ∃ st, tce_loops mutants program = Ok st
      ∧ ∀ c, c ∈ all_equivalences r
             ↔ ∃ nt ct, is_Some (lookup_class st nt ct)
                        ∧ members st nt ct = c ∧ 2 ≤ size c.
Proof.
  unfold run_tce. destruct (tce_loops mutants program) as [st|] eqn:Hst; [|done].
  cbn. intros [= <-]. cbn [summarize equivalent_mutants redundant_mutants
                            all_equivalences].
  pose proof (tce_loops_inv _ _ _ Hst) as Hinv.
  split_and!.
  - by intros c [? _]%list_elem_of_filter.
  - by intros c [? _]%list_elem_of_filter.
  - intros c. rewrite !list_elem_of_filter.
    destruct (decide ("0" ∈ c)); naive_solver.
  - exists st. split; [done|]. intros c. rewrite list_elem_of_fmap. split.
    + intros (l & -> & Hl). apply (inv_ns _ Hinv) in Hl.
      destruct (decide (l < length (heap st))) as [Hlt|Hge].
      * destruct (inv_surj _ Hinv l Hlt) as (nt & ct & Hnt).
        exists nt, ct. unfold members. rewrite Hnt. by split_and!.
      * rewrite deref_ge, size_empty in Hl by lia. lia.
    + intros (nt & ct & [l Hl] & <- & Hsize). unfold members in *.
      rewrite Hl in *. cbn in *. exists l. split; [done|].
      by apply (inv_ns _ Hinv).
Qed.

Lemma equivalent_redundant_split_witness :
  run_tce two_level_mutants two_level_program
  = Ok (summarize (replay (two_level_index_events ++ two_level_baseline_events)
                          init))
  ∧ ∀ c,
      c ∈ equivalent_mutants
            (summarize (replay (two_level_index_events
                                  ++ two_level_baseline_events) init)) →
      "0" ∈ c.
Proof.
  assert (run_tce two_level_mutants two_level_program
          = Ok (summarize (replay (two_level_index_events
                                     ++ two_level_baseline_events) init)))
    as Hrun by (by vm_compute).
  split; [done|]. apply (equivalent_redundant_split _ _ _ Hrun).
Defined.

Lemma count_duplicates_sum classes :
  count_duplicates classes = sum_duplicates classes.
Proof.
  unfold count_duplicates. induction classes as [|c classes IH]; [done|].
  cbn [sum_duplicates foldr]. fold (sum_duplicates classes). rewrite <- IH.
  cbn. lia.
Qed.

(** C5: the three counts of the result of a run are the sums of the
    sizes less one over all the classes kept, over the classes of the
    equivalent mutants and over the classes of the redundant mutants. *)
Theorem count_identity mutants program r :
  run_tce mutants program = Ok r →
  num_total_equivalences r = sum_duplicates (all_equivalences r)
  ∧ num_equiv_mutants r = sum_duplicates (equivalent_mutants r)
  ∧ num_redundant_mutants r = sum_duplicates (redundant_mutants r).
Proof.
  unfold run_tce. destruct (tce_loops mutants program) as [st|]; [|done].
  cbn. intros [= <-]. cbn. by rewrite !count_duplicates_sum.
Qed.

Lemma count_identity_witness :
  run_tce two_level_mutants two_level_program
  = Ok (summarize (replay (two_level_index_events ++ two_level_baseline_events)
                          init))
  ∧ num_total_equivalences
      (summarize (replay (two_level_index_events ++ two_level_baseline_events)
                         init))
    = sum_duplicates
        (all_equivalences
           (summarize (replay (two_level_index_events
                                 ++ two_level_baseline_events) init))).
Proof.
  assert (run_tce two_level_mutants two_level_program
          = Ok (summarize (replay (two_level_index_events
                                     ++ two_level_baseline_events) init)))
    as Hrun by (by vm_compute).
  split; [done|]. apply (count_identity _ _ _ Hrun).
Defined.

(** C8: when no directory of any mutant holds a file, and so also when
    there is no mutant, the run does not return a result: the call of
    [progress] with a total of zero raises [ZeroDivisionError]. *)
Theorem run_tce_without_artifacts_raises mutants program :
  (∀ mid root dirpath dirnames filenames,
     (mid, root) ∈ dirs mutants →
     (dirpath, dirnames, filenames) ∈ os_walk [] root → filenames = []) →
  run_tce mutants program = Raise ZeroDivisionError.
Proof.
  intros Hempty.
  assert (index_events mutants = Ok []) as Hevs.
  { unfold index_events.
    rewrite (mapM_Ok_fmap _ (λ _, []));
      [cbn [mbind result_bind]; by rewrite concat_fmap_nil|].
    intros [mid root] Hin. unfold mutant_events. cbn [fst snd].
    rewrite (mapM_Ok_fmap _ (λ _, []));
      [cbn [mbind result_bind]; by rewrite concat_fmap_nil|].
    intros [[dirpath dirnames] filenames] Hlevel. unfold level_events.
    by rewrite decide_True by (by eapply Hempty). }
  unfold run_tce, tce_loops. rewrite index_mutants_events, Hevs. cbn.
  destruct (dirs mutants); by cbn.
Qed.

Lemma run_tce_without_artifacts_raises_witness :
  run_tce empty_mutants two_level_program = Raise ZeroDivisionError
  ∧ run_tce (Dir [] []) two_level_program = Raise ZeroDivisionError.
Proof.
  split; apply run_tce_without_artifacts_raises.
  - intros mid root dirpath dirnames filenames
      [[= -> ->]|[]%elem_of_nil]%elem_of_cons.
    cbn. intros [[= _ _ ->]|[[= _ _ ->]|[]%elem_of_nil]%elem_of_cons]%elem_of_cons;
      done.
  - by intros mid root dirpath dirnames filenames []%elem_of_nil.
Defined.

(** *** Insertions are not repeated *)

Lemma NoDup_concat_sources {A B C} (g : B → C) (P : A → C → Prop)
    (l : list A) (ks : list (list B)) :
  NoDup l →
  Forall2 (λ x k, NoDup (g <$> k) ∧ ∀ y, y ∈ k → P x (g y)) l ks →
  (∀ x x' z, x ∈ l → x' ∈ l → P x z → P x' z → x = x') →
  NoDup (g <$> concat ks).
Proof.
  intros Hnd HF. induction HF as [|x k l ks [Hk HP] HF IH]; intros Hfun.
  - constructor.
  - apply NoDup_cons in Hnd as [Hx Hnd]. cbn [concat]. rewrite fmap_app.
    apply NoDup_app. split_and!; [done| |].
    + intros z (y & -> & Hy)%list_elem_of_fmap (y' & Hz & Hy')%list_elem_of_fmap.
      apply list_elem_of_In, in_concat in Hy' as (k' & Hk' & Hy').
      apply list_elem_of_In in Hk', Hy'.
      apply list_elem_of_lookup in Hk' as [i Hi].
      destruct (Forall2_lookup_r _ _ _ _ _ HF Hi) as (x' & Hx' & _ & HP').
      apply list_elem_of_lookup_2 in Hx'.
      assert (x = x') as ->; [|done].
      apply (Hfun x x' (g y)); [by left|by right|by apply HP|].
      rewrite Hz. by apply HP'.
    + apply IH; [done|]. intros x1 x2 z H1 H2. apply Hfun; by right.
Qed.

Lemma level_valid root rel level :
  wf_tree root = true → subdir rel root level →
  Forall (λ n, valid_name n = true) rel
  ∧ Forall (λ n, valid_name n = true) (files level).*1.
Proof.
  intros Hwf Hsub. destruct (subdir_wf _ _ _ Hwf Hsub) as [Hwf' Hrel].
  split; [done|]. destruct level as [fs ds].
  by apply wf_tree_Dir in Hwf' as (_ & _ & ? & _).
Qed.

Lemma NoDup_tags_mutant mid root evs :
  wf_tree root = true → mutant_events (mid, root) = Ok evs →
  NoDup (event_tag <$> evs).
Proof.
  intros Hwf. unfold mutant_events. cbn [fst snd].
  destruct (mapM _ _) as [evss|] eqn:HM; [|done]. cbn. intros [= <-].
  apply (NoDup_concat_sources event_tag
           (λ lvl tag, lvl ∈ os_walk [] root ∧ lvl.2 ≠ []
                       ∧ tag.1 = level_name_tuple lvl.1.1 lvl.2)
           (os_walk [] root)).
  - eapply NoDup_fmap_1, (NoDup_os_walk [] root Hwf).
  - apply (mapM_Ok_Forall2_elem _ _ _ _ HM).
    intros [[dp dns] fns] k Hin Hk. unfold level_events in Hk. case_decide.
    + injection Hk as <-. split; [constructor|]. by intros ? ?%elem_of_nil.
    + destruct (read_name_tuple_from_root _ root); [|done]. cbn in Hk.
      injection Hk as <-. split; [apply NoDup_singleton|].
      intros y ->%list_elem_of_singleton. by cbn.
  - intros [[dp1 dns1] fns1] [[dp2 dns2] fns2] tag _ _
      (Hin1 & Hne1 & Htag1) (Hin2 & Hne2 & Htag2). cbn [fst snd] in *.
    pose proof (NoDup_os_walk [] root Hwf) as Hnd.
    apply (NoDup_fmap_elem_inj _ _ _ _ Hnd Hin1 Hin2). cbn [fst snd].
    apply elem_of_os_walk in Hin1 as (rel1 & t1 & Hsub1 & [= -> -> ->]).
    apply elem_of_os_walk in Hin2 as (rel2 & t2 & Hsub2 & [= -> -> ->]).
    cbn [app] in *. destruct (level_valid _ _ _ Hwf Hsub1).
    destruct (level_valid _ _ _ Hwf Hsub2).
    apply (level_name_tuple_inj rel1 (files t1).*1 rel2 (files t2).*1);
      [done..|]. by rewrite <- Htag1.
Qed.

Lemma NoDup_tags_index mutants evs :
  wf_tree mutants = true → index_events mutants = Ok evs →
  NoDup (event_tag <$> evs).
Proof.
  intros Hwf. unfold index_events.
  destruct (mapM _ _) as [evss|] eqn:HM; [|done]. cbn. intros [= <-].
  destruct mutants as [fs ds]. apply wf_tree_Dir in Hwf as (_ & Hnd & _ & _ & Hsubs).
  cbn [dirs] in *.
  apply (NoDup_concat_sources event_tag (λ midroot tag, tag.2 = midroot.1) ds).
  - by eapply NoDup_fmap_1.
  - apply (mapM_Ok_Forall2_elem _ _ _ _ HM).
    intros [mid root] k Hin Hk. rewrite Forall_forall in Hsubs. split.
    + eapply NoDup_tags_mutant; [|done]. by apply (Hsubs (mid, root)).
    + intros [[nt ct] id] Hy.
      by apply (elem_of_mutant_events _ _ _ _ _ _ Hk) in Hy as [-> _].
  - intros x x' tag Hx Hx' H1 H2.
    apply (NoDup_fmap_elem_inj fst ds); [done..|]. by rewrite <- H1.
Qed.

Lemma NoDup_tags_baseline program st evs :
  NoDup (keys (hashes st)) → baseline_events program st = Ok evs →
  NoDup (event_tag <$> evs).
Proof.
  intros Hnd. unfold baseline_events.
  destruct (mapM _ _) as [evss|] eqn:HM; [|done]. cbn. intros [= <-].
  apply (NoDup_concat_sources event_tag (λ nt tag, tag.1 = nt)
           (keys (hashes st))); [done| |].
  - apply (mapM_Ok_Forall2_elem _ _ _ _ HM).
    intros nt k _ Hk. unfold baseline_event in Hk.
    destruct (read_name_tuple_from_root nt program); [|done]. cbn in Hk.
    injection Hk as <-. split; [apply NoDup_singleton|].
    by intros y ->%list_elem_of_singleton.
  - intros x x' tag _ _ <- <-. done.
Qed.

Lemma NoDup_tags_run mutants program evs1 evs2 :
  wf_tree mutants = true → "0" ∉ (dirs mutants).*1 →
  index_events mutants = Ok evs1 →
  baseline_events program (replay evs1 init) = Ok evs2 →
  NoDup (event_tag <$> (evs1 ++ evs2)).
Proof.
  intros Hwf Hzero Hevs1 Hevs2. rewrite fmap_app. apply NoDup_app. split_and!.
  - by eapply NoDup_tags_index.
  - intros tag ([[nt ct] id] & -> & Hin1)%list_elem_of_fmap
               ([[nt' ct'] id'] & [= -> ->] & Hin2)%list_elem_of_fmap.
    apply (elem_of_baseline_events _ _ _ _ _ _ Hevs2) in Hin2 as (_ & -> & _).
    apply (elem_of_index_events _ _ _ _ _ Hevs1) in Hin1
      as (root & ? & ? & ? & Hin & _).
    apply Hzero, list_elem_of_fmap. by exists ("0", root).
  - eapply NoDup_tags_baseline; [|done]. apply inv_keys, inv_replay, inv_init.
Qed.

Lemma not_elem_of_members_fresh evs pre nt ct mid post :
  NoDup (event_tag <$> evs) → evs = pre ++ (nt, ct, mid) :: post →
  mid ∉ members (replay pre init) nt ct.
Proof.
  intros Hnd ->. rewrite elem_of_members_replay by apply inv_init.
  intros [[]%not_elem_of_empty|Hin].
  rewrite fmap_app in Hnd. apply NoDup_app in Hnd as (_ & Hdisj & _).
  apply (Hdisj (nt, mid)).
  - apply list_elem_of_fmap. by exists (nt, ct, mid).
  - csimpl. by left.
Qed.

(** An insertion of an id that the class does not have makes the class
    one larger, and appends its location exactly when the class had one
    member. *)
Lemma register_fresh st nt ct mid :
  inv st → mid ∉ members st nt ct →
  size (members (register (nt, ct, mid) st) nt ct) = S (size (members st nt ct))
  ∧ nonsingleton_equivalence_classes (register (nt, ct, mid) st)
    = nonsingleton_equivalence_classes st
      ++ (if decide (size (members st nt ct) = 1)
          then [insertion_loc st nt ct] else []).
Proof.
  intros Hinv Hfresh.
  assert (members (register (nt, ct, mid) st) nt ct = {[mid]} ∪ members st nt ct)
    as Hmem by (by rewrite members_register, decide_True).
  assert (size (members (register (nt, ct, mid) st) nt ct)
          = S (size (members st nt ct))) as Hsize
    by (by rewrite Hmem, size_add, decide_False).
  split; [done|]. rewrite ns_register.
  assert (deref (register (nt, ct, mid) st) (insertion_loc st nt ct)
          = members (register (nt, ct, mid) st) nt ct) as ->.
  { unfold members at 1. by rewrite lookup_class_register, decide_True. }
  rewrite Hsize. by repeat case_decide; try lia.
Qed.

Lemma NoDup_ns_replay evs :
  NoDup (event_tag <$> evs) →
  NoDup (nonsingleton_equivalence_classes (replay evs init)).
Proof.
  induction evs as [|[[nt ct] mid] evs IH] using rev_ind; intros Hnd.
  - constructor.
  - pose proof (not_elem_of_members_fresh _ evs nt ct mid [] Hnd eq_refl) as Hfresh.
    rewrite fmap_app in Hnd. apply NoDup_app in Hnd as (Hnd & _ & _).
    rewrite replay_app. cbn [replay foldl]. fold (replay evs init).
    assert (inv (replay evs init)) as Hinv by apply inv_replay, inv_init.
    destruct (register_fresh _ _ _ _ Hinv Hfresh) as [_ ->].
    case_decide as Hsize; [|rewrite app_nil_r; by apply IH].
    apply NoDup_app. split_and!; [by apply IH| |apply NoDup_singleton].
    intros l Hl ->%list_elem_of_singleton.
    apply (inv_ns _ Hinv) in Hl. rewrite <- members_insertion_loc in Hl. lia.
Qed.

(** *** The claims about the indexer *)

Lemma index_events_wf mutants :
  wf_tree mutants = true → ∃ evs, index_events mutants = Ok evs.
Proof.
  intros Hwf. destruct mutants as [fs ds].
  apply wf_tree_Dir in Hwf as (_ & _ & _ & _ & Hsubs).
  rewrite Forall_forall in Hsubs. unfold index_events. cbn [dirs].
  set (ct_of (root : tree) nt :=
         match read_name_tuple_from_root nt root with
         | Ok ct => ct | Raise _ => [] end).
  set (g_level (root : tree) (mid : string)
               (lvl : list string * list string * list string) :=
         if decide (lvl.2 = []) then []
         else [(level_name_tuple lvl.1.1 lvl.2,
                ct_of root (level_name_tuple lvl.1.1 lvl.2), mid)]).
  rewrite (mapM_Ok_fmap _
             (λ midroot : string * tree,
                concat (g_level midroot.2 midroot.1 <$> os_walk [] midroot.2))).
  - by eexists.
  - intros [mid root] Hin. unfold mutant_events. cbn [fst snd].
    rewrite (mapM_Ok_fmap _ (g_level root mid)); [done|].
    intros [[dp dns] fns] Hlvl. unfold level_events, g_level. cbn [fst snd].
    case_decide; [done|].
    apply elem_of_os_walk in Hlvl as (rel & level & Hsub & [= -> -> ->]).
    cbn [app]. unfold ct_of.
    by rewrite (read_level rel root level) by (done || by apply (Hsubs (mid, root))).
Qed.

Lemma elem_of_index_events_subdir mutants evs nt ct mid :
  index_events mutants = Ok evs →
  (nt, ct, mid) ∈ evs ↔
    ∃ root rel level,
      (mid, root) ∈ dirs mutants ∧ subdir rel root level ∧ files level ≠ []
      ∧ nt = level_name_tuple rel (files level).*1
      ∧ read_name_tuple_from_root nt root = Ok ct.
Proof.
  intros Hevs. rewrite (elem_of_index_events _ _ _ _ _ Hevs). split.
  - intros (root & dp & dns & fns & Hin & Hlvl & Hne & Hnt & Hct).
    apply elem_of_os_walk in Hlvl as (rel & level & Hsub & [= -> -> ->]).
    exists root, rel, level. split_and!; try done. by intros Hnil; rewrite Hnil in Hne.
  - intros (root & rel & level & Hin & Hsub & Hne & Hnt & Hct).
    exists root, rel, (dirs level).*1, (files level).*1. split_and!; try done.
    + apply elem_of_os_walk. by exists rel, level.
    + by intros ?%fmap_nil_inv.
Qed.

Lemma StronglySorted_level_name_tuple rel fns :
  Forall (λ n, valid_name n = true) rel →
  Forall (λ n, valid_name n = true) fns →
  StronglySorted String.le (level_name_tuple rel fns).
Proof.
  intros Hrel Hfns. unfold level_name_tuple.
  assert (os_path_join (os_path_relpath rel) <$> sorted fns
          = (λ n, os_path_relpath rel +:+ String "/" n) <$> sorted fns) as ->.
  { apply Forall_fmap_ext, Forall_forall. intros n Hn.
    apply (proj1 (elem_of_sorted _ _)) in Hn. rewrite Forall_forall in Hfns.
    apply os_path_join_relpath; [done|by apply Hfns]. }
  apply (StronglySorted_fmap _ String.le String.le).
  - intros a b Hab. by apply le_app_l.
  - apply StronglySorted_merge_sort; apply _.
Qed.

(** C1: on a well-formed tree of mutants the loop of step 1 returns, and
    an id is in the class under a name tuple and a contents tuple
    exactly when it is the id of a mutant that has a directory with at
    least one file whose name tuple and contents these are; the keys of
    the table are the name tuples of these directories.  The name tuple
    of such a directory is sorted and consists of the names of the files
    of the directory joined to the path of the directory relative to the
    mutant; the contents tuple holds the bytes of these files in the
    order of the name tuple; the directories of one mutant have distinct
    name tuples, and one mutant can be registered under several. *)
Theorem indexer_registers_levels mutants :
  wf_tree mutants = true →
  (∃ st, index_mutants mutants init = Ok st
     ∧ (∀ nt ct mid,
          mid ∈ members st nt ct ↔
            ∃ root rel level,
              (mid, root) ∈ dirs mutants ∧ subdir rel root level
              ∧ files level ≠ []
              ∧ nt = level_name_tuple rel (files level).*1
              ∧ read_name_tuple_from_root nt root = Ok ct)
     ∧ (∀ nt,
          nt ∈ keys (hashes st) ↔
            ∃ mid root rel level,
              (mid, root) ∈ dirs mutants ∧ subdir rel root level
              ∧ files level ≠ []
              ∧ nt = level_name_tuple rel (files level).*1)
     ∧ (∀ mid root rel level,
          (mid, root) ∈ dirs mutants → subdir rel root level →
          files level ≠ [] →
          ∃ fs, fs ≡ₚ files level
            ∧ StronglySorted String.le fs.*1
            ∧ level_name_tuple rel (files level).*1
              = os_path_join (os_path_relpath rel) <$> fs.*1
            ∧ StronglySorted String.le (level_name_tuple rel (files level).*1)
            ∧ read_name_tuple_from_root
                (level_name_tuple rel (files level).*1) root = Ok fs.*2
            ∧ mid ∈ members st (level_name_tuple rel (files level).*1) fs.*2))
  ∧ (∀ mid root rel1 level1 rel2 level2,
       (mid, root) ∈ dirs mutants →
       subdir rel1 root level1 → subdir rel2 root level2 →
       files level1 ≠ [] →
       level_name_tuple rel1 (files level1).*1
       = level_name_tuple rel2 (files level2).*1 →
       rel1 = rel2)
  ∧ (∃ st nt1 ct1 nt2 ct2,
       index_mutants two_level_mutants init = Ok st
       ∧ nt1 ≠ nt2 ∧ "1" ∈ members st nt1 ct1 ∧ "1" ∈ members st nt2 ct2).
Proof.
  intros Hwf.
  assert (∀ mid root, (mid, root) ∈ dirs mutants → wf_tree root = true)
    as Hroot.
  { destruct mutants as [fs ds].
    apply wf_tree_Dir in Hwf as (_ & _ & _ & _ & Hsubs).
    rewrite Forall_forall in Hsubs. intros mid root Hin.
    by apply (Hsubs (mid, root)). }
  split_and!.
  - destruct (index_events_wf _ Hwf) as [evs Hevs].
    exists (replay evs init). rewrite index_mutants_events, Hevs.
    split; [done|].
    assert (∀ nt ct mid,
      mid ∈ members (replay evs init) nt ct ↔
        ∃ root rel level,
          (mid, root) ∈ dirs mutants ∧ subdir rel root level
          ∧ files level ≠ []
          ∧ nt = level_name_tuple rel (files level).*1
          ∧ read_name_tuple_from_root nt root = Ok ct) as Hmem.
    { intros nt ct mid. rewrite elem_of_members_replay by apply inv_init.
      rewrite <- (elem_of_index_events_subdir _ _ _ _ _ Hevs).
      split; [|by right]. by intros [[]%not_elem_of_empty|?]. }
    split_and!; [done| |].
    + intros nt. rewrite elem_of_keys_replay. split.
      * intros [[]%elem_of_nil|(ct & mid & Hin)].
        apply (elem_of_index_events_subdir _ _ _ _ _ Hevs) in Hin
          as (root & rel & level & ? & ? & ? & ? & _).
        by exists mid, root, rel, level.
      * intros (mid & root & rel & level & Hin & Hsub & Hne & ->). right.
        exists (sorted_files (files level)).*2, mid.
        apply (elem_of_index_events_subdir _ _ _ _ _ Hevs).
        exists root, rel, level. split_and!; try done.
        apply read_level; [by eapply Hroot|done].
    + intros mid root rel level Hin Hsub Hne.
      pose proof (Hroot _ _ Hin) as Hwfr.
      destruct (level_valid _ _ _ Hwfr Hsub) as [Hrel Hfns].
      destruct (subdir_wf _ _ _ Hwfr Hsub) as [Hwfl _].
      exists (sorted_files (files level)). split_and!.
      * apply sorted_files_Permutation. destruct level as [fs ds].
        by apply wf_tree_Dir in Hwfl as (? & _).
      * rewrite fst_sorted_files. apply StronglySorted_merge_sort; apply _.
      * apply level_name_tuple_sorted_files.
      * by apply StronglySorted_level_name_tuple.
      * by apply read_level.
      * apply Hmem. exists root, rel, level. split_and!; try done.
        by apply read_level.
  - intros mid root rel1 level1 rel2 level2 Hin Hsub1 Hsub2 Hne Heq.
    pose proof (Hroot _ _ Hin) as Hwfr.
    destruct (level_valid _ _ _ Hwfr Hsub1) as [Hrel1 Hfns1].
    destruct (level_valid _ _ _ Hwfr Hsub2) as [Hrel2 Hfns2].
    apply (level_name_tuple_inj rel1 (files level1).*1 rel2 (files level2).*1);
      try done.
    by intros ?%fmap_nil_inv.
  - exists (replay [(["./A.class"], [[Byte.x01]], "1");
                    (["pkg/B.class"; "pkg/C.class"], [[Byte.x02]; [Byte.x03]], "1");
                    (["./A.class"], [[Byte.x01]], "2");
                    (["pkg/B.class"; "pkg/C.class"], [[Byte.x07]; [Byte.x03]], "2")]
                   init),
      ["./A.class"], [[Byte.x01]],
      ["pkg/B.class"; "pkg/C.class"], [[Byte.x02]; [Byte.x03]].
    split_and!; [by vm_compute|done|..];
      apply elem_of_members_replay; try apply inv_init; right;
      repeat first [by left | right].
Qed.

(** C4: in a run on well-formed trees with no mutant called ["0"], the
    insertions of the two loops are such that each of them makes its
    class one larger and appends the class to the list exactly when the
    class had one member before and so has two after; at the end no
    class is twice in the list, and a class is in the list exactly when
    it has two members or more. *)
Theorem promoted_exactly_once mutants program st :
  wf_tree mutants = true → "0" ∉ (dirs mutants).*1 →
  tce_loops mutants program = Ok st →
  ∃ evs1 evs2,
    index_events mutants = Ok evs1
    ∧ baseline_events program (replay evs1 init) = Ok evs2
    ∧ st = replay (evs1 ++ evs2) init
    ∧ (∀ pre nt ct mid post,
         evs1 ++ evs2 = pre ++ (nt, ct, mid) :: post →
         size (members (register (nt, ct, mid) (replay pre init)) nt ct)
         = S (size (members (replay pre init) nt ct))
         ∧ nonsingleton_equivalence_classes
             (register (nt, ct, mid) (replay pre init))
           = nonsingleton_equivalence_classes (replay pre init)
             ++ (if decide (size (members (replay pre init) nt ct) = 1)
                 then [insertion_loc (replay pre init) nt ct] else []))
    ∧ NoDup (nonsingleton_equivalence_classes st)
    ∧ (∀ l, l ∈ nonsingleton_equivalence_classes st ↔ 2 ≤ size (deref st l)).
Proof.
  intros Hwf Hzero (evs1 & evs2 & Hevs1 & _ & Hevs2 & ->)%tce_loops_Ok.
  pose proof (NoDup_tags_run _ _ _ _ Hwf Hzero Hevs1 Hevs2) as Hnd.
  exists evs1, evs2. split_and!; try done.
  - intros pre nt ct mid post Hsplit. apply register_fresh.
    + apply inv_replay, inv_init.
    + by eapply not_elem_of_members_fresh.
  - by apply NoDup_ns_replay.
  - apply inv_ns, inv_replay, inv_init.
Qed.

Lemma promoted_exactly_once_witness :
  wf_tree two_level_mutants = true
  ∧ ("0" ∉ (dirs two_level_mutants).*1)
  ∧ tce_loops two_level_mutants two_level_program
    = Ok (replay (two_level_index_events ++ two_level_baseline_events) init)
  ∧ NoDup (nonsingleton_equivalence_classes
             (replay (two_level_index_events ++ two_level_baseline_events)
                     init)).
Proof.
  assert ("0" ∉ (dirs two_level_mutants).*1) as Hzero.
  { cbn. intros [?|[?|[]%elem_of_nil]%elem_of_cons]%elem_of_cons; done. }
  assert (tce_loops two_level_mutants two_level_program
          = Ok (replay (two_level_index_events ++ two_level_baseline_events)
                       init)) as Hrun by (by vm_compute).
  split_and!; [by vm_compute|done..|].
  destruct (promoted_exactly_once two_level_mutants two_level_program _
              eq_refl Hzero Hrun)
    as (? & ? & _ & _ & _ & _ & Hnd & _).
  exact Hnd.
Defined.

Lemma indexer_registers_levels_witness :
  wf_tree two_level_mutants = true
  ∧ ∃ st, index_mutants two_level_mutants init = Ok st
      ∧ "2" ∈ members st ["pkg/B.class"; "pkg/C.class"] [[Byte.x07]; [Byte.x03]].
Proof.
  split; [by vm_compute|].
  destruct (indexer_registers_levels two_level_mutants eq_refl)
    as [(st & Hst & Hmem & _) _].
  exists st. split; [done|]. apply Hmem.
  exists (Dir [("A.class", [Byte.x01])]
              [("pkg", Dir [("C.class", [Byte.x03]); ("B.class", [Byte.x07])] [])]),
    ["pkg"], (Dir [("C.class", [Byte.x03]); ("B.class", [Byte.x07])] []).
  split_and!.
  - right. by left.
  - econstructor; [by left|constructor].
  - done.
  - by vm_compute.
  - by vm_compute.
Defined.

(** *** Further properties of the run *)

(** X1: in a run on well-formed trees with no mutant called ["0"], an
    id is in one class at most under one name tuple. *)
Theorem one_class_per_key mutants program st nt ct1 ct2 mid :
  wf_tree mutants = true → "0" ∉ (dirs mutants).*1 →
  tce_loops mutants program = Ok st →
  mid ∈ members st nt ct1 → mid ∈ members st nt ct2 → ct1 = ct2.
Proof.
  intros Hwf Hzero (evs1 & evs2 & Hevs1 & _ & Hevs2 & ->)%tce_loops_Ok.
  pose proof (NoDup_tags_run _ _ _ _ Hwf Hzero Hevs1 Hevs2) as Hnd.
  rewrite !elem_of_members_replay by apply inv_init.
  intros [[]%not_elem_of_empty|H1] [[]%not_elem_of_empty|H2].
  assert ((nt, ct1, mid) = (nt, ct2, mid)) as [= ->]; [|done].
  by apply (NoDup_fmap_elem_inj event_tag (evs1 ++ evs2)).
Qed.

Lemma one_class_per_key_witness :
  wf_tree two_level_mutants = true
  ∧ ("0" ∉ (dirs two_level_mutants).*1)
  ∧ tce_loops two_level_mutants two_level_program
    = Ok (replay (two_level_index_events ++ two_level_baseline_events) init)
  ∧ ∀ ct,
      "0" ∈ members (replay (two_level_index_events
                               ++ two_level_baseline_events) init)
                    ["./A.class"] ct →
      [[Byte.x01]] = ct.
Proof.
  assert ("0" ∉ (dirs two_level_mutants).*1) as Hzero.
  { cbn. intros [?|[?|[]%elem_of_nil]%elem_of_cons]%elem_of_cons; done. }
  assert (tce_loops two_level_mutants two_level_program
          = Ok (replay (two_level_index_events ++ two_level_baseline_events)
                       init)) as Hrun by (by vm_compute).
  split_and!; [by vm_compute|done..|].
  intros ct. apply (one_class_per_key two_level_mutants two_level_program _
                      _ _ _ _ eq_refl Hzero Hrun).
  apply elem_of_members_replay; [apply inv_init|]. right.
  repeat first [by left | right].
Defined.

(** X5: a file of a name tuple that cannot be read from the original
    program ends the loop of step 2 with an exception. *)
Theorem missing_baseline_artifact_raises program st nt e :
  nt ∈ keys (hashes st) →
  read_name_tuple_from_root nt program = Raise e →
  ∃ e', baseline_pass program st = Raise e'.
Proof.
  intros Hnt Hread. rewrite baseline_pass_events. unfold baseline_events.
  destruct (mapM_Raise (baseline_event program) (keys (hashes st)) nt e Hnt)
    as [e' ->]; [|by eexists].
  unfold baseline_event. by rewrite Hread.
Qed.

Lemma missing_baseline_artifact_raises_witness :
  ["./A.class"] ∈ keys (hashes (replay two_level_index_events init))
  ∧ read_name_tuple_from_root ["./A.class"] (Dir [] []) = Raise FileNotFoundError
  ∧ ∃ e', baseline_pass (Dir [] []) (replay two_level_index_events init)
          = Raise e'.
Proof.
  assert (["./A.class"] ∈ keys (hashes (replay two_level_index_events init)))
    as Hnt by (vm_compute; by left).
  assert (read_name_tuple_from_root ["./A.class"] (Dir [] [])
          = Raise FileNotFoundError) as Hread by (by vm_compute).
  split_and!; [done..|].
  apply (missing_baseline_artifact_raises _ _ _ _ Hnt Hread).
Defined.

(** X3: the example of the specification: one mutant whose only file is the
    file of the original program gives one class of equivalent mutants,
    no class of redundant mutants, and one equivalent mutant. *)
Example end_to_end :
  ∃ r,
    run_tce (Dir [] [("5", Dir [] [("pkg", Dir [("Foo.class", [Byte.x2a])] [])])])
            (Dir [] [("pkg", Dir [("Foo.class", [Byte.x2a])] [])]) = Ok r
    ∧ equivalent_mutants r = [{["0"; "5"]}]
    ∧ redundant_mutants r = []
    ∧ num_equiv_mutants r = 1%Z.
Proof. eexists. split_and!; by vm_compute. Qed.
End TceFacts.

(** ** Lines and tokens *)

Module TextFacts.
Import Tce Comparator PathFacts.

Lemma sapp_assoc (a b c : string) : (a +:+ b) +:+ c = a +:+ (b +:+ c).
Proof. induction a as [|x a IH]; [done|]. by rewrite !append_cons, IH. Qed.

Lemma sapp_nil_r (a : string) : a +:+ "" = a.
Proof. induction a as [|x a IH]; [done|]. by rewrite append_cons, IH. Qed.

Lemma app_snoc (a : string) c (b : string) :
  (a +:+ String c "") +:+ b = a +:+ String c b.
Proof. by rewrite sapp_assoc. Qed.

(** *** Reversal *)

Lemma rev_app_spec (s acc : string) :
  String.rev_app s acc = String.rev s +:+ acc.
Proof.
  unfold String.rev. revert acc. induction s as [|x s IH]; intros acc; [done|].
  cbn. rewrite (IH (String x "")), IH. by rewrite app_snoc.
Qed.

Lemma rev_cons x (s : string) : String.rev (String x s) = String.rev s +:+ String x "".
Proof. unfold String.rev at 1. cbn. apply rev_app_spec. Qed.

Lemma rev_app (a b : string) : String.rev (a +:+ b) = String.rev b +:+ String.rev a.
Proof.
  induction a as [|x a IH]; [by rewrite append_nil_l, sapp_nil_r|].
  by rewrite append_cons, !rev_cons, IH, sapp_assoc.
Qed.

Lemma rev_involutive (s : string) : String.rev (String.rev s) = s.
Proof.
  induction s as [|x s IH]; [done|]. by rewrite rev_cons, rev_app, IH.
Qed.

Lemma blank_app (a b : string) : blank (a +:+ b) = blank a && blank b.
Proof.
  induction a as [|x a IH]; [done|].
  rewrite append_cons. cbn. by rewrite IH, andb_assoc.
Qed.

Lemma blank_rev (s : string) : blank (String.rev s) = blank s.
Proof.
  induction s as [|x s IH]; [done|].
  rewrite rev_cons, blank_app, IH. cbn. by rewrite andb_true_r, andb_comm.
Qed.

(** *** strip *)

Lemma lstrip_spec (s : string) :
  ∃ sp, blank sp = true ∧ s = sp +:+ lstrip s.
Proof.
  induction s as [|x s (sp & Hsp & IH)]; [by exists ""|].
  cbn. destruct (isspace x) eqn:Hx.
  - exists (String x sp). cbn. rewrite Hx, Hsp. split; [done|].
    by rewrite append_cons, <- IH.
  - by exists "".
Qed.

Lemma lstrip_blank (s : string) : blank s = true → lstrip s = "".
Proof.
  induction s as [|x s IH]; [done|]. cbn.
  intros [Hx Hs]%andb_true_iff. rewrite Hx. by apply IH.
Qed.

Lemma lstrip_head (s : string) :
  blank (lstrip s) = true → lstrip s = "".
Proof.
  induction s as [|x s IH]; [done|]. cbn.
  destruct (isspace x) eqn:Hx; [done|]. cbn. by rewrite Hx.
Qed.

Lemma strip_spec (s : string) :
  ∃ sp1 sp2, blank sp1 = true ∧ blank sp2 = true
             ∧ s = sp1 +:+ strip s +:+ sp2.
Proof.
  destruct (lstrip_spec s) as (sp1 & Hsp1 & Hs).
  destruct (lstrip_spec (String.rev (lstrip s))) as (sp2 & Hsp2 & Hr).
  exists sp1, (String.rev sp2). rewrite blank_rev. split_and!; [done..|].
  unfold strip. rewrite <- rev_app, <- Hr, rev_involutive. done.
Qed.

Lemma strip_blank (s : string) : blank (strip s) = true → strip s = "".
Proof.
  unfold strip. rewrite blank_rev. by intros ->%lstrip_head.
Qed.

(** *** split *)

Lemma split_go_blank cur (sp : string) :
  blank sp = true → split_go cur sp = option_list cur.
Proof.
  revert cur. induction sp as [|x sp IH]; intros cur; [done|]. cbn.
  intros [Hx Hsp]%andb_true_iff. rewrite Hx, (IH None Hsp). cbn.
  by rewrite app_nil_r.
Qed.

Lemma split_go_blank_l cur (sp s : string) :
  blank sp = true → sp ≠ "" →
  split_go cur (sp +:+ s) = option_list cur ++ split_go None s.
Proof.
  revert cur. induction sp as [|x sp IH]; intros cur Hsp Hne; [done|].
  rewrite append_cons. cbn. cbn in Hsp.
  apply andb_true_iff in Hsp as [Hx Hsp]. rewrite Hx. f_equal.
  destruct sp as [|y sp]; [done|]. by rewrite (IH None).
Qed.

Lemma split_go_None_blank_l (sp s : string) :
  blank sp = true → split_go None (sp +:+ s) = split_go None s.
Proof.
  intros Hsp. destruct sp as [|x sp]; [done|].
  by rewrite split_go_blank_l.
Qed.

Lemma split_go_blank_r cur (s sp : string) :
  blank sp = true → split_go cur (s +:+ sp) = split_go cur s.
Proof.
  intros Hsp. revert cur. induction s as [|x s IH]; intros cur.
  - rewrite append_nil_l. by apply split_go_blank.
  - rewrite append_cons. cbn. destruct (isspace x); by rewrite IH.
Qed.

(** [strip] removes only what [split] skips. *)
Lemma split_strip (s : string) : split (strip s) = split s.
Proof.
  destruct (strip_spec s) as (sp1 & sp2 & Hsp1 & Hsp2 & Hs).
  unfold split. rewrite Hs at 2.
  by rewrite split_go_None_blank_l, split_go_blank_r.
Qed.

Lemma split_go_nil_blank cur (s : string) :
  split_go cur s = [] → cur = None ∧ blank s = true.
Proof.
  revert cur. induction s as [|x s IH]; intros cur; cbn.
  - by destruct cur.
  - destruct (isspace x) eqn:Hx.
    + intros [Hcur Hs]%app_eq_nil. destruct cur; [done|].
      by destruct (IH None Hs) as [_ ->].
    + by intros [? _]%IH.
Qed.

Lemma split_nil_iff (s : string) : split s = [] ↔ blank s = true.
Proof.
  split; [by intros [_ ?]%split_go_nil_blank|].
  intros Hs. unfold split. by rewrite split_go_blank.
Qed.

Lemma strip_empty_iff (s : string) : strip s = "" ↔ split s = [].
Proof.
  rewrite <- split_strip. split; [by intros ->|].
  intros Hs%split_nil_iff. by apply strip_blank.
Qed.

Lemma no_space_app (a b : string) : no_space (a +:+ b) = no_space a && no_space b.
Proof.
  induction a as [|x a IH]; [done|].
  rewrite append_cons. cbn. by rewrite IH, andb_assoc.
Qed.

Lemma token_snoc (w : string) c :
  no_space w = true → isspace c = false → token (w +:+ String c "") = true.
Proof.
  intros Hw Hc. unfold token. rewrite no_space_app, Hw. cbn. rewrite Hc.
  rewrite andb_true_r. apply negb_true_iff, bool_decide_eq_false.
  by destruct w.
Qed.

Lemma token_no_space (w : string) : token w = true → no_space w = true.
Proof. by intros [_ ?]%andb_true_iff. Qed.

Lemma split_go_tokens cur (s : string) :
  (∀ w, cur = Some w → token w = true) →
  Forall (λ w, token w = true) (split_go cur s).
Proof.
  revert cur. induction s as [|x s IH]; intros cur Hcur; cbn.
  - destruct cur; cbn; [|done]. constructor; [by apply Hcur|done].
  - destruct (isspace x) eqn:Hx.
    + apply Forall_app. split; [|by apply IH].
      destruct cur; cbn; [|done]. constructor; [by apply Hcur|done].
    + apply IH. intros w [= <-]. apply token_snoc; [|done].
      destruct cur as [w|]; cbn; [|done]. by apply token_no_space, Hcur.
Qed.

Lemma split_go_token cur (w s : string) :
  no_space w = true →
  split_go cur (w +:+ s)
  = split_go (if decide (w = "") then cur else Some (default "" cur +:+ w)) s.
Proof.
  revert cur. induction w as [|x w IH]; intros cur Hw; [done|].
  cbn in Hw. apply andb_true_iff in Hw as [Hx Hw].
  apply negb_true_iff in Hx.
  rewrite append_cons. cbn. rewrite Hx, IH by done.
  rewrite (decide_False (P := String x w = "")) by done. case_decide as Hnil.
  - by subst w.
  - cbn. by rewrite app_snoc.
Qed.

(** A line of tokens joined by spaces, with its end, is split into the
    tokens. *)
Lemma split_join (ws : list string) (sp : string) :
  Forall (λ w, token w = true) ws → blank sp = true →
  split (String.concat " " ws +:+ sp) = ws.
Proof.
  intros Hws Hsp. unfold split. induction Hws as [|w ws Hw Hws IH].
  - rewrite append_nil_l. by apply split_go_blank.
  - apply andb_true_iff in Hw as [Hne Hw].
    apply negb_true_iff, bool_decide_eq_false in Hne.
    destruct ws as [|w' ws].
    + cbn [String.concat]. rewrite split_go_token, decide_False by done.
      cbn. by rewrite split_go_blank.
    + change (String.concat " " (w :: w' :: ws))
        with (w +:+ String " " (String.concat " " (w' :: ws))).
      rewrite !sapp_assoc.
      rewrite split_go_token, decide_False by done.
      cbn [default from_option id]. rewrite append_nil_l, append_cons.
      cbn. f_equal. exact IH.
Qed.
End TextFacts.

(** ** More on the comparator *)

Module ComparatorMore.
Import PyDict PyDictFacts Comparator ComparatorFacts.

Implicit Types (mid_map : list (string * list string)) (ec : list string).

(** *** The visits as one loop *)

Lemma visit_step_1_eq mid_map_1 mid_map_2 acc mid :
  visit_step_1 mid_map_1 mid_map_2 acc mid
  = visit_step (verdict_1 mid_map_2) mid_map_1 acc mid.
Proof.
  destruct acc as [visited printed]. unfold visit_step_1, visit_step, verdict_1.
  cbn [fst snd]. case_decide; [done|].
  destruct (get mid mid_map_1) as [ec1|]; [|done].
  repeat case_decide; by rewrite ?app_nil_r.
Qed.

Lemma visit_step_2_eq mid_map_1 mid_map_2 acc mid :
  visit_step_2 mid_map_1 mid_map_2 acc mid
  = visit_step (verdict_2 mid_map_1) mid_map_2 acc mid.
Proof.
  destruct acc as [visited printed]. unfold visit_step_2, visit_step, verdict_2.
  cbn [fst snd]. case_decide; [done|].
  destruct (get mid mid_map_2) as [ec2|]; [|done].
  destruct (foldl (find_step_2 mid_map_1) (ec2, ∅, []) ec2) as [[ec2' nv] found].
  repeat case_decide; by rewrite ?app_nil_r.
Qed.

Lemma foldl_ext_eq {A B} (f g : A → B → A) (l : list B) (a : A) :
  (∀ a b, f a b = g a b) → foldl f a l = foldl g a l.
Proof.
  intros Hfg. revert a. induction l as [|b l IH]; intros a; [done|].
  cbn. by rewrite Hfg, IH.
Qed.

(** What a visit prints comes from the classes of the ids other than
    ["0"]. *)
Lemma visit_sound verdict mid_map ks acc r :
  "0" ∈ acc.1 →
  (∀ r, r ∈ acc.2 →
     ∃ mid ec, mid ≠ "0" ∧ get mid mid_map = Some ec ∧ r ∈ verdict ec) →
  r ∈ (foldl (visit_step verdict mid_map) acc ks).2 →
  ∃ mid ec, mid ≠ "0" ∧ get mid mid_map = Some ec ∧ r ∈ verdict ec.
Proof.
  revert acc. induction ks as [|k ks IH]; intros acc Hzero Hacc; cbn [foldl].
  { apply Hacc. }
  apply IH; unfold visit_step; case_decide as Hk; try done;
    destruct (get k mid_map) as [ec|] eqn:Hget; try done; cbn [fst snd].
  - set_solver.
  - intros r' [Hr'|Hr']%elem_of_app; [by apply Hacc|].
    exists k, ec. split_and!; [by intros ->|done..].
Qed.

(** For a consistent index, a visit prints what it prints for the class
    of every id other than ["0"]. *)
Lemma visit_complete verdict mid_map ks acc :
  consistent mid_map →
  (∀ k, k ∈ ks → is_Some (get k mid_map)) →
  "0" ∈ acc.1 →
  (∀ x, x ∈ acc.1 → x ≠ "0" →
     ∃ ec, get x mid_map = Some ec ∧ ∀ r, r ∈ verdict ec → r ∈ acc.2) →
  let acc' := foldl (visit_step verdict mid_map) acc ks in
  (∀ k, k ∈ ks → k ∈ acc'.1)
  ∧ (∀ x, x ∈ acc.1 → x ∈ acc'.1)
  ∧ (∀ x, x ∈ acc'.1 → x ≠ "0" →
       ∃ ec, get x mid_map = Some ec ∧ ∀ r, r ∈ verdict ec → r ∈ acc'.2).
Proof.
  intros Hc. revert acc. induction ks as [|k ks IH]; intros acc Hks Hzero Hacc;
    cbn [foldl].
  { split_and!; [by intros ? ?%elem_of_nil|done..]. }
  assert (∀ k', k' ∈ ks → is_Some (get k' mid_map)) as Hks'
    by (intros; apply Hks; by right).
  destruct (Hks k ltac:(by left)) as [ec Hget].
  destruct (Hc _ _ Hget) as [Hkin Hall].
  set (acc1 := visit_step verdict mid_map acc k).
  assert (k ∈ acc1.1 ∧ (∀ x, x ∈ acc.1 → x ∈ acc1.1)
          ∧ "0" ∈ acc1.1
          ∧ (∀ x, x ∈ acc1.1 → x ≠ "0" →
               ∃ ec, get x mid_map = Some ec
                     ∧ ∀ r, r ∈ verdict ec → r ∈ acc1.2))
    as (Hk1 & Hmono & Hzero1 & Hacc1).
  { unfold acc1, visit_step. case_decide as Hk; [done|]. rewrite Hget.
    cbn [fst snd]. split_and!.
    - apply elem_of_union_r. by apply elem_of_list_to_set.
    - intros x Hx. by apply elem_of_union_l.
    - by apply elem_of_union_l.
    - intros x [Hx|Hx]%elem_of_union Hne.
      + destruct (Hacc x Hx Hne) as (ec' & Hec' & Hr). exists ec'.
        split; [done|]. intros r Hr'. apply elem_of_app. left. by apply Hr.
      + apply elem_of_list_to_set in Hx. exists ec. split; [by apply Hall|].
        intros r Hr. apply elem_of_app. by right. }
  destruct (IH acc1 Hks' Hzero1 Hacc1) as (Hin & Hmono' & Hfinal).
  split_and!; [|by intros x Hx; apply Hmono', Hmono|done].
  intros k' [->|Hk']%elem_of_cons; [by apply Hmono'|by apply Hin].
Qed.

Lemma visit_spec verdict mid_map r :
  consistent mid_map →
  r ∈ (foldl (visit_step verdict mid_map) ({["0"]}, []) (keys mid_map)).2
  ↔ ∃ mid ec, mid ≠ "0" ∧ get mid mid_map = Some ec ∧ r ∈ verdict ec.
Proof.
  intros Hc. split.
  - apply visit_sound; cbn [fst snd]; [set_solver|]. by intros ? ?%elem_of_nil.
  - intros (mid & ec & Hne & Hget & Hr).
    destruct (visit_complete verdict mid_map (keys mid_map) ({["0"]}, []) Hc)
      as (Hin & _ & Hfinal); cbn [fst snd].
    + intros k. by rewrite elem_of_keys.
    + set_solver.
    + intros x ->%elem_of_singleton. done.
    + destruct (Hfinal mid) as (ec' & Hget' & Hall); [|done|].
      * apply Hin, elem_of_keys. by rewrite Hget.
      * rewrite Hget in Hget'. injection Hget' as <-. by apply Hall.
Qed.
(** *** The classes found in a consistent index *)

Lemma find_step_inv mid_map acc m :
  consistent mid_map → found_inv mid_map acc →
  found_inv mid_map (find_step mid_map acc m)
  ∧ ∀ c, c ∈ (find_step mid_map acc m).2
         ↔ c ∈ acc.2 ∨ get m mid_map = Some c.
Proof.
  intros Hc (Hnd & Hnv & Hcls). destruct acc as [nv found].
  cbn [fst snd] in *. unfold find_step. case_decide as Hm.
  - split; [done|]. intros c. split; [by left|]. intros [Hin|Hget]; [done|].
    apply Hnv in Hm as (c0 & Hc0 & Hmc0).
    destruct (Hcls _ Hc0) as [m0 Hm0]. destruct (Hc _ _ Hm0) as [_ Hall].
    rewrite (Hall m Hmc0) in Hget. by injection Hget as <-.
  - destruct (get m mid_map) as [c'|] eqn:Hget; cbn [fst snd].
    + destruct (Hc _ _ Hget) as [Hmc' _].
      assert (c' ∉ found) as Hnew.
      { intros Hin. apply Hm, Hnv. by exists c'. }
      split; [unfold found_inv; cbn [fst snd]; split_and!|].
      * apply NoDup_app. split_and!; [done| |apply NoDup_singleton].
        intros c Hin ->%list_elem_of_singleton. done.
      * intros x. rewrite elem_of_union, elem_of_list_to_set, Hnv. split.
        -- intros [(c & Hin & Hx)|Hx].
           ++ exists c. split; [|done]. apply elem_of_app. by left.
           ++ exists c'. split; [|done]. apply elem_of_app. right. by left.
        -- intros (c & [Hin| ->%list_elem_of_singleton]%elem_of_app & Hx);
             [left; by exists c|by right].
      * intros c [Hin| ->%list_elem_of_singleton]%elem_of_app;
          [by apply Hcls|by exists m].
      * intros c. rewrite elem_of_app, list_elem_of_singleton. split.
        -- intros [Hin| ->]; [by left|by right].
        -- intros [Hin|[= <-]]; [by left|by right].
    + split; [done|]. intros c. split; [by left|]. by intros [Hin|?].
Qed.

Lemma foldl_find_step_inv mid_map acc l :
  consistent mid_map → found_inv mid_map acc →
  found_inv mid_map (foldl (find_step mid_map) acc l)
  ∧ ∀ c, c ∈ (foldl (find_step mid_map) acc l).2
         ↔ c ∈ acc.2 ∨ ∃ m, m ∈ l ∧ get m mid_map = Some c.
Proof.
  intros Hc. revert acc. induction l as [|m l IH]; intros acc Hinv; cbn [foldl].
  - split; [done|]. intros c. split; [by left|].
    intros [Hin|(m & Hm%elem_of_nil & _)]; done.
  - destruct (find_step_inv mid_map acc m Hc Hinv) as [Hinv1 Hstep].
    destruct (IH _ Hinv1) as [Hinv' Hfold]. split; [done|].
    intros c. rewrite Hfold, Hstep. split.
    + intros [[Hin|Hget]|(m' & Hm' & Hget)]; [by left|right..].
      * exists m. split; [by left|done].
      * exists m'. split; [by right|done].
    + intros [Hin|(m' & [->|Hm']%elem_of_cons & Hget)];
        [left; by left|left; by right|right; by exists m'].
Qed.
Lemma found_inv_init mid_map : found_inv mid_map (∅, []).
Proof.
  unfold found_inv. cbn [fst snd]. split_and!; [apply NoDup_nil_2| |].
  - intros x. split; [by intros ?%elem_of_empty|].
    by intros (c & ?%elem_of_nil & _).
  - by intros c ?%elem_of_nil.
Qed.

Lemma find_classes_included mid_map ec1 ec2 :
  consistent mid_map → ec1 ≠ [] →
  (∀ m, m ∈ ec1 → get m mid_map = Some ec2) →
  find_classes mid_map ec1 = [ec2] ∧ ec1 ⊆ ec2.
Proof.
  intros Hc Hne Hall. split.
  - destruct ec1 as [|m0 ec1]; [done|]. unfold find_classes. cbn [foldl].
    unfold find_step at 2. rewrite decide_False by set_solver.
    rewrite Hall by (by left). rewrite foldl_find_step_covered; [done|].
    intros m Hm. apply elem_of_union_r, elem_of_list_to_set.
    apply (Hc m ec2). apply Hall. by right.
  - intros m Hm. apply (Hc m ec2). by apply Hall.
Qed.

Lemma verdict_1_nil mid_map ec1 :
  consistent mid_map →
  verdict_1 mid_map ec1 = []
  ↔ ec1 ≠ [] ∧ ∃ ec2, ∀ m, m ∈ ec1 → get m mid_map = Some ec2.
Proof.
  intros Hc. split.
  - unfold verdict_1. case_decide as Hlen; [done|].
    case_decide as Hsub; [|done]. intros _.
    destruct (foldl_find_step_inv mid_map (∅, []) ec1 Hc (found_inv_init _))
      as [_ Hfound]. fold (find_classes mid_map ec1) in Hfound.
    destruct (find_classes mid_map ec1) as [|ec2 [|]] eqn:Hf; cbn in Hlen;
      [lia| |lia].
    cbn in Hsub. destruct (proj1 (Hfound ec2)) as [?%elem_of_nil|(m0 & Hm0 & Hget)];
      [by left|done|].
    split; [by intros ->; apply elem_of_nil in Hm0|].
    exists ec2. intros m Hm. by apply (Hc m0 ec2 Hget), Hsub.
  - intros (Hne & ec2 & Hall).
    destruct (find_classes_included mid_map ec1 ec2 Hc Hne Hall) as [Hf Hsub].
    unfold verdict_1. rewrite Hf. cbn.
    rewrite decide_False by lia. by rewrite decide_True.
Qed.

(** *** The variable assigned again in the visit of file 2 *)

Lemma foldl_find_step_2_keeps mid_map ec nested_visited found l :
  (foldl (find_step_2 mid_map) (ec, nested_visited, found) l).2 = found →
  (foldl (find_step_2 mid_map) (ec, nested_visited, found) l).1.1 = ec.
Proof.
  assert (∀ l ec nv found,
            ∃ extra, (foldl (find_step_2 mid_map) (ec, nv, found) l).2
                     = found ++ extra
                     ∧ (extra = [] →
                        (foldl (find_step_2 mid_map) (ec, nv, found) l).1.1
                        = ec)) as Hgen.
  { clear. induction l as [|m l IH]; intros ec nv found; cbn [foldl].
    { exists []. by rewrite app_nil_r. }
    unfold find_step_2 at 2 4. case_decide; [apply IH|].
    destruct (get m mid_map) as [ec'|]; [|apply IH].
    destruct (IH ec' (nv ∪ list_to_set ec') (found ++ [ec']))
      as (extra & -> & _).
    exists (ec' :: extra). split; [by rewrite <-app_assoc|done]. }
  intros Hf. destruct (Hgen l ec nested_visited found) as (extra & He & Hec).
  apply Hec. rewrite He in Hf.
  apply (f_equal length) in Hf. rewrite length_app in Hf.
  destruct extra; [done|cbn in Hf; lia].
Qed.

Lemma verdict_2_spec mid_map ec2 :
  verdict_2 mid_map ec2
  = match find_classes mid_map ec2 with
    | [] => [Alone ec2]
    | [_] => []
    | found => [Alone (default ec2 (last found))]
    end.
Proof.
  unfold verdict_2, find_classes.
  pose proof (foldl_find_step_2_found mid_map ec2 ∅ [] ec2) as Hfound.
  pose proof (foldl_find_step_2_last mid_map ec2 ∅ [] ec2 (or_intror eq_refl))
    as Hlast.
  pose proof (foldl_find_step_2_keeps mid_map ec2 ∅ [] ec2) as Hkeep.
  destruct (foldl (find_step_2 mid_map) (ec2, ∅, []) ec2) as [[e nv] found].
  cbn [fst snd] in *. rewrite <-Hfound. cbn [snd].
  destruct found as [|c [|c' found]].
  - rewrite Hkeep by done. by rewrite decide_True.
  - specialize (Hlast ltac:(done)). cbn in Hlast. injection Hlast as <-.
    cbn. rewrite decide_False by lia. by rewrite decide_True.
  - rewrite Hlast by done. cbn [length default].
    by rewrite decide_True by (cbn; lia).
Qed.
Lemma consistent_remove_dups (equivs : list (list string)) :
  pairwise_disjoint equivs → consistent (build_mid_map remove_dups equivs).
Proof. apply consistent_build_mid_map, elem_of_remove_dups. Qed.

Ltac solve_disjoint :=
  cbn [pairwise_disjoint]; repeat split; repeat constructor; set_solver.

(** *** Further properties of the two visits *)

(** X6: in a consistent index (the index of a file with pairwise
    disjoint classes), the classes collected for a class are distinct,
    and a class is collected exactly when it is the class of a member of
    the visited class, in whatever order the members are iterated. *)
Theorem classes_found_in_consistent_index mid_map ec :
  consistent mid_map →
  NoDup (find_classes mid_map ec)
  ∧ ∀ c, c ∈ find_classes mid_map ec ↔ ∃ m, m ∈ ec ∧ get m mid_map = Some c.
Proof.
  intros Hc.
  destruct (foldl_find_step_inv mid_map (∅, []) ec Hc (found_inv_init _))
    as [(Hnd & _) Hfound].
  split; [done|]. intros c. unfold find_classes. rewrite Hfound. split.
  - by intros [?%elem_of_nil|?].
  - by right.
Qed.

Lemma classes_found_in_consistent_index_witness :
  consistent (build_mid_map remove_dups [["1"; "3"]; ["2"; "4"]])
  ∧ NoDup (find_classes (build_mid_map remove_dups [["1"; "3"]; ["2"; "4"]])
                        ["1"; "2"; "3"])
  ∧ ∀ c, c ∈ find_classes (build_mid_map remove_dups [["1"; "3"]; ["2"; "4"]])
                          ["1"; "2"; "3"]
         ↔ ∃ m, m ∈ ["1"; "2"; "3"]
                ∧ get m (build_mid_map remove_dups [["1"; "3"]; ["2"; "4"]])
                  = Some c.
Proof.
  assert (consistent (build_mid_map remove_dups [["1"; "3"]; ["2"; "4"]]))
    as Hc by (apply consistent_remove_dups; solve_disjoint).
  split; [exact Hc|].
  exact (classes_found_in_consistent_index _ ["1"; "2"; "3"] Hc).
Defined.

(** X7: for a file 1 with a consistent index, the visit of file 1 prints
    exactly what lines 70 to 74 print for the class of every id of file 1
    other than ["0"]: no such class is skipped, and nothing else is
    printed. *)
Theorem visit_file_1_reports mid_map_1 mid_map_2 r :
  consistent mid_map_1 →
  r ∈ visit_file_1 mid_map_1 mid_map_2
  ↔ ∃ mid ec1, mid ≠ "0" ∧ get mid mid_map_1 = Some ec1
               ∧ r ∈ verdict_1 mid_map_2 ec1.
Proof.
  intros Hc. unfold visit_file_1.
  rewrite (foldl_ext_eq _ (visit_step (verdict_1 mid_map_2) mid_map_1))
    by apply visit_step_1_eq.
  by apply visit_spec.
Qed.

Lemma visit_file_1_reports_witness :
  consistent (build_mid_map remove_dups [["1"; "2"]; ["3"; "4"]])
  ∧ Alone ["3"; "4"]
      ∈ visit_file_1 (build_mid_map remove_dups [["1"; "2"]; ["3"; "4"]])
                     (build_mid_map remove_dups [["1"; "3"]; ["2"; "4"]]).
Proof.
  assert (consistent (build_mid_map remove_dups [["1"; "2"]; ["3"; "4"]]))
    as Hc by (apply consistent_remove_dups; solve_disjoint).
  split; [exact Hc|].
  apply (proj2 (visit_file_1_reports _ _ _ Hc)).
  exists "4", ["3"; "4"]. split_and!; [done|by vm_compute|vm_compute; by left].
Defined.

(** X8: for a file 2 with a consistent index, the visit of file 2 prints
    for the class of every id of file 2 other than ["0"]: the class
    itself when no class of file 1 is found for it, the class of file 1
    found last when two or more are found, and nothing when exactly one
    is found; it prints nothing else. *)
Theorem visit_file_2_reports mid_map_1 mid_map_2 r :
  consistent mid_map_2 →
  r ∈ visit_file_2 mid_map_1 mid_map_2
  ↔ ∃ mid ec2, mid ≠ "0" ∧ get mid mid_map_2 = Some ec2
      ∧ ((find_classes mid_map_1 ec2 = [] ∧ r = Alone ec2)
         ∨ ∃ c, 2 ≤ length (find_classes mid_map_1 ec2)
                ∧ last (find_classes mid_map_1 ec2) = Some c ∧ r = Alone c).
Proof.
  intros Hc. unfold visit_file_2.
  rewrite (foldl_ext_eq _ (visit_step (verdict_2 mid_map_1) mid_map_2))
    by apply visit_step_2_eq.
  rewrite visit_spec by done.
  assert (∀ ec2, r ∈ verdict_2 mid_map_1 ec2
            ↔ (find_classes mid_map_1 ec2 = [] ∧ r = Alone ec2)
              ∨ ∃ c, 2 ≤ length (find_classes mid_map_1 ec2)
                     ∧ last (find_classes mid_map_1 ec2) = Some c
                     ∧ r = Alone c) as Hv.
  { intros ec2. rewrite verdict_2_spec.
    destruct (find_classes mid_map_1 ec2) as [|c [|c' found]] eqn:Hf.
    - rewrite list_elem_of_singleton. split; [by left|].
      intros [[_ ->]|(c & Hlen & _)]; [done|cbn in Hlen; lia].
    - split; [by intros ?%elem_of_nil|].
      intros [[? _]|(c0 & Hlen & _)]; [done|cbn in Hlen; lia].
    - rewrite list_elem_of_singleton.
      destruct (last (c :: c' :: found)) as [cl|] eqn:Hl.
      + cbn [default]. split.
        * intros ->. right. exists cl. split_and!; [cbn; lia|done..].
        * intros [[? _]|(c0 & _ & [= <-] & ->)]; done.
      + by rewrite last_cons_cons, last_None in Hl; destruct found. }
  split; intros (mid & ec2 & Hne & Hget & Hr); exists mid, ec2;
    (split_and!; [done..|by apply Hv]).
Qed.

Lemma visit_file_2_reports_witness :
  consistent (build_mid_map remove_dups [["1"; "3"]; ["2"; "4"]])
  ∧ Alone ["3"; "4"]
      ∈ visit_file_2 (build_mid_map remove_dups [["1"; "2"]; ["3"; "4"]])
                     (build_mid_map remove_dups [["1"; "3"]; ["2"; "4"]]).
Proof.
  assert (consistent (build_mid_map remove_dups [["1"; "3"]; ["2"; "4"]]))
    as Hc by (apply consistent_remove_dups; solve_disjoint).
  split; [exact Hc|].
  apply (proj2 (visit_file_2_reports _ _ _ Hc)).
  exists "1", ["1"; "3"]. split_and!; [done|by vm_compute|].
  right. exists ["3"; "4"]. split_and!; [vm_compute; lia|by vm_compute|done].
Defined.

(** X9: for two files with consistent indexes, the visit of file 1 prints
    nothing exactly when, for every class of file 1 reached from an id
    other than ["0"], all the members of the class are in one and the
    same class of file 2. *)
Theorem visit_file_1_silent_iff mid_map_1 mid_map_2 :
  consistent mid_map_1 → consistent mid_map_2 →
  visit_file_1 mid_map_1 mid_map_2 = []
  ↔ ∀ mid ec1, mid ≠ "0" → get mid mid_map_1 = Some ec1 →
      ∃ ec2, ∀ m, m ∈ ec1 → get m mid_map_2 = Some ec2.
Proof.
  intros Hc1 Hc2.
  assert (∀ r, r ∈ visit_file_1 mid_map_1 mid_map_2
            ↔ ∃ mid ec1, mid ≠ "0" ∧ get mid mid_map_1 = Some ec1
                         ∧ r ∈ verdict_1 mid_map_2 ec1) as Hvisit.
  { intros r. unfold visit_file_1.
    rewrite (foldl_ext_eq _ (visit_step (verdict_1 mid_map_2) mid_map_1))
      by apply visit_step_1_eq.
    by apply visit_spec. }
  split.
  - intros Hnil mid ec1 Hne Hget.
    assert (verdict_1 mid_map_2 ec1 = []) as Hv.
    { destruct (verdict_1 mid_map_2 ec1) as [|r rs] eqn:Hv; [done|].
      assert (r ∈ visit_file_1 mid_map_1 mid_map_2) as Hr.
      { apply Hvisit. exists mid, ec1. rewrite Hv. split_and!; [done..|by left]. }
      rewrite Hnil in Hr. by apply elem_of_nil in Hr. }
    by apply verdict_1_nil in Hv as [_ ?].
  - intros Hall.
    destruct (visit_file_1 mid_map_1 mid_map_2) as [|r rs] eqn:Hv; [done|].
    destruct (proj1 (Hvisit r) ltac:(by left)) as (mid & ec1 & Hne & Hget & Hr).
    assert (verdict_1 mid_map_2 ec1 = []) as Hnil.
    { apply verdict_1_nil; [done|]. split; [|by apply (Hall mid)].
      intros ->. destruct (Hc1 _ _ Hget) as [Hin _].
      by apply elem_of_nil in Hin. }
    rewrite Hnil in Hr. by apply elem_of_nil in Hr.
Qed.

Lemma visit_file_1_silent_iff_witness :
  consistent (build_mid_map remove_dups [["1"; "2"]; ["3"]])
  ∧ consistent (build_mid_map remove_dups [["1"; "2"; "3"]])
  ∧ visit_file_1 (build_mid_map remove_dups [["1"; "2"]; ["3"]])
                 (build_mid_map remove_dups [["1"; "2"; "3"]]) = []
  ∧ ∃ ec2, ∀ m, m ∈ ["1"; "2"] →
      get m (build_mid_map remove_dups [["1"; "2"; "3"]]) = Some ec2.
Proof.
  assert (consistent (build_mid_map remove_dups [["1"; "2"]; ["3"]]))
    as Hc1 by (apply consistent_remove_dups; solve_disjoint).
  assert (consistent (build_mid_map remove_dups [["1"; "2"; "3"]]))
    as Hc2 by (apply consistent_remove_dups; solve_disjoint).
  split_and!; [exact Hc1|exact Hc2|by vm_compute|].
  apply (proj1 (visit_file_1_silent_iff _ _ Hc1 Hc2) eq_refl "1" ["1"; "2"]);
    [done|by vm_compute].
Defined.
End ComparatorMore.

(** ** The files written and read *)

Module FilesFacts.
Import Tce Comparator PathFacts TextFacts.

Lemma no_space_no_eol (w : string) : no_space w = true → no_eol w = true.
Proof.
  induction w as [|c w IH]; [done|]. cbn [no_space no_eol].
  intros [Hc Hw]%andb_true_iff. rewrite (IH Hw), andb_true_r.
  apply andb_true_iff.
  split; apply negb_true_iff, bool_decide_eq_false; by intros ->.
Qed.

Lemma no_eol_app (a b : string) : no_eol (a +:+ b) = no_eol a && no_eol b.
Proof.
  induction a as [|c a IH]; [done|]. rewrite append_cons. cbn [no_eol].
  by rewrite IH, andb_assoc.
Qed.

Lemma no_eol_concat (ws : list string) :
  Forall (λ w, token w = true) ws → no_eol (String.concat " " ws) = true.
Proof.
  induction 1 as [|w ws Hw Hws IH]; [done|].
  destruct ws as [|w' ws].
  - by apply no_space_no_eol, token_no_space.
  - change (String.concat " " (w :: w' :: ws))
      with (w +:+ String " " (String.concat " " (w' :: ws))).
    rewrite no_eol_app, (no_space_no_eol w) by by apply token_no_space.
    cbn [no_eol]. by rewrite IH.
Qed.

Lemma readlines_go_line cur (b rest : string) :
  no_eol b = true →
  readlines_go cur (b +:+ String "010" rest)
  = ((default "" cur +:+ b) +:+ String "010" "") :: readlines_go None rest.
Proof.
  revert cur. induction b as [|c b IH]; intros cur Hb.
  - rewrite append_nil_l, sapp_nil_r. cbn [readlines_go].
    by rewrite decide_True.
  - cbn [no_eol] in Hb.
    apply andb_true_iff in Hb as [[Hc1 Hc2]%andb_true_iff Hb].
    apply negb_true_iff, bool_decide_eq_false in Hc1.
    apply negb_true_iff, bool_decide_eq_false in Hc2.
    rewrite append_cons. cbn [readlines_go].
    rewrite !decide_False by done. rewrite IH by done.
    cbn [default from_option id]. by rewrite app_snoc.
Qed.

Lemma write_lines_cons (l : list string) (ls : list (list string)) :
  write_lines (l :: ls)
  = String.concat " " l +:+ String "010" (write_lines ls).
Proof. done. Qed.

(** The lines read back from a file written by [write_lines]. *)
Lemma readlines_write_lines (ls : list (list string)) :
  Forall (Forall (λ w, token w = true)) ls →
  readlines (write_lines ls)
  = (λ l, String.concat " " l +:+ String "010" "") <$> ls.
Proof.
  unfold readlines. induction 1 as [|l ls Hl Hls IH]; [done|].
  rewrite write_lines_cons, readlines_go_line by by apply no_eol_concat.
  cbn [default]. rewrite append_nil_l, IH. done.
Qed.

Lemma read_equivs_cons (x : string) (f : list string) :
  read_equivs (x :: f)
  = if decide (strip x ≠ "") then split (strip x) :: read_equivs f
    else read_equivs f.
Proof. unfold read_equivs. rewrite filter_cons. by case_decide. Qed.

(** X10: the parser gives only classes that are not empty and whose ids
    are not empty and hold no space character: a line of spaces (or an
    empty line) gives no class. *)
Theorem read_equivs_classes (f : list string) :
  Forall (λ ec, ec ≠ [] ∧ Forall (λ w, token w = true) ec) (read_equivs f).
Proof.
  induction f as [|x f IH]; [by constructor|].
  rewrite read_equivs_cons. case_decide as Hx; [|done].
  constructor; [|done]. rewrite split_strip. split.
  - intros Hnil. by apply Hx, strip_empty_iff.
  - by apply split_go_tokens.
Qed.

Lemma read_equivs_write_lines (ls : list (list string)) :
  Forall (λ l, l ≠ [] ∧ Forall (λ w, token w = true) l) ls →
  read_equivs (readlines (write_lines ls)) = ls.
Proof.
  intros Hls. rewrite readlines_write_lines
    by (eapply Forall_impl; [done|by intros ? [_ ?]]).
  induction Hls as [|l ls [Hne Hl] Hls IH]; [done|].
  rewrite fmap_cons, read_equivs_cons.
  assert (split (String.concat " " l +:+ String "010" "") = l) as Hsplit
    by by apply split_join.
  rewrite decide_True.
  - by rewrite split_strip, Hsplit, IH.
  - rewrite strip_empty_iff. by rewrite Hsplit.
Qed.

(** X11: what [write_lines] writes is read back by the parser of the
    comparator: for classes that are not empty and whose ids are not
    empty and hold no space character, the written file, cut into lines
    and parsed, gives the classes again, members in the order written. *)
Theorem read_written_lines (ls : list (list string)) :
  Forall (λ l, l ≠ [] ∧ Forall (λ w, token w = true) l) ls →
  read_equivs (readlines (write_lines ls)) = ls.
Proof. apply read_equivs_write_lines. Qed.

Lemma read_written_lines_witness :
  Forall (λ l, l ≠ [] ∧ Forall (λ w, token w = true) l)
         [["0"; "5"]; ["1"; "2"; "3"]]
  ∧ read_equivs (readlines (write_lines [["0"; "5"]; ["1"; "2"; "3"]]))
    = [["0"; "5"]; ["1"; "2"; "3"]].
Proof.
  assert (Forall (λ l, l ≠ [] ∧ Forall (λ w, token w = true) l)
                 [["0"; "5"]; ["1"; "2"; "3"]]) as H
    by (repeat constructor; done).
  split; [exact H|]. exact (read_written_lines _ H).
Defined.
End FilesFacts.

(** ** More on the classifier *)

Module TceMore.
Import PyDict PyDictFacts Tce ResultFacts PathFacts TceFacts.

(** *** How a run ends *)











Lemma wf_dirs mutants mid root :
  wf_tree mutants = true → (mid, root) ∈ dirs mutants → wf_tree root = true.
Proof.
  intros Hwf Hin. destruct mutants as [fs ds].
  apply wf_tree_Dir in Hwf as (_ & _ & _ & _ & Hsubs).
  rewrite Forall_forall in Hsubs. by apply (Hsubs (mid, root)).
Qed.

(** The insertions of step 1 on well-formed trees. *)
Lemma elem_of_index_events_wf mutants evs nt ct mid :
  wf_tree mutants = true → index_events mutants = Ok evs →
  (nt, ct, mid) ∈ evs ↔
    ∃ root rel level,
      (mid, root) ∈ dirs mutants ∧ subdir rel root level ∧ files level ≠ []
      ∧ nt = level_name_tuple rel (files level).*1
      ∧ ct = (sorted_files (files level)).*2.
Proof.
  intros Hwf Hevs. rewrite (elem_of_index_events_subdir _ _ _ _ _ Hevs).
  split; intros (root & rel & level & Hin & Hsub & Hne & -> & Hct);
    exists root, rel, level; (split_and!; [done..|]).
  - rewrite read_level in Hct by eauto using wf_dirs. by injection Hct.
  - subst ct. apply read_level; eauto using wf_dirs.
Qed.

Lemma keys_index mutants evs nt :
  wf_tree mutants = true → index_events mutants = Ok evs →
  nt ∈ keys (hashes (replay evs init)) ↔ artifact_level mutants nt.
Proof.
  intros Hwf Hevs. rewrite elem_of_keys_replay. split.
  - intros [Hin|(ct & mid & Hin)]; [by apply elem_of_nil in Hin|].
    apply (elem_of_index_events_wf _ _ _ _ _ Hwf Hevs) in Hin
      as (root & rel & level & Hin & Hsub & Hne & -> & _).
    by exists mid, root, rel, level.
  - intros (mid & root & rel & level & Hin & Hsub & Hne & ->). right.
    exists (sorted_files (files level)).*2, mid.
    apply (elem_of_index_events_wf _ _ _ _ _ Hwf Hevs).
    by exists root, rel, level.
Qed.





(** *** What the classes mean *)

Lemma sorted_Permutation (l1 l2 : list string) :
  l1 ≡ₚ l2 → sorted l1 = sorted l2.
Proof.
  intros Hp. unfold sorted. apply (StronglySorted_unique String.le).
  - apply StronglySorted_merge_sort; apply _.
  - apply StronglySorted_merge_sort; apply _.
  - by rewrite !merge_sort_Permutation.
Qed.

Lemma sorted_files_Permutation_eq fs1 fs2 :
  NoDup fs1.*1 → fs1 ≡ₚ fs2 → sorted_files fs1 = sorted_files fs2.
Proof.
  intros Hnd Hp. assert (NoDup fs2.*1) as Hnd2 by by rewrite <-Hp.
  unfold sorted_files.
  rewrite <-(sorted_Permutation fs1.*1 fs2.*1) by by rewrite Hp.
  apply Forall_fmap_ext, Forall_forall. intros n Hn.
  apply (proj1 (elem_of_sorted _ _)) in Hn.
  apply list_elem_of_fmap in Hn as ([n' b] & -> & Hin). cbn.
  rewrite (entry_Some fs1 n' b Hnd Hin).
  by rewrite (entry_Some fs2 n' b Hnd2) by by rewrite <-Hp.
Qed.

Lemma sapp_inj (p a b : string) : p +:+ a = p +:+ b → a = b.
Proof.
  induction p as [|c p IH]; [done|]. rewrite !append_cons.
  intros [= H]. by apply IH.
Qed.

Lemma fmap_join_inj rel (l1 l2 : list string) :
  Forall (λ n, valid_name n = true) rel →
  Forall (λ n, valid_name n = true) l1 →
  Forall (λ n, valid_name n = true) l2 →
  os_path_join (os_path_relpath rel) <$> l1
  = os_path_join (os_path_relpath rel) <$> l2 →
  l1 = l2.
Proof.
  intros Hrel H1. revert l2.
  induction H1 as [|n l1 Hn H1 IH]; intros l2 H2 Heq.
  - symmetry in Heq. by apply fmap_nil_inv in Heq.
  - destruct H2 as [|n2 l2 Hn2 H2]; [done|]. csimpl in Heq.
    injection Heq as Hh Ht. rewrite !os_path_join_relpath in Hh by done.
    apply sapp_inj in Hh. injection Hh as ->. f_equal. by apply IH.
Qed.

Lemma fst_snd_eq {A B} (l1 l2 : list (A * B)) :
  l1.*1 = l2.*1 → l1.*2 = l2.*2 → l1 = l2.
Proof.
  revert l2. induction l1 as [|[a b] l1 IH]; intros [|[a' b'] l2]; csimpl;
    try done.
  intros [= -> H1] [= -> H2]. f_equal. by apply IH.
Qed.

Lemma Forall_valid_sorted (l : list string) :
  Forall (λ n, valid_name n = true) l →
  Forall (λ n, valid_name n = true) (sorted l).
Proof.
  rewrite !Forall_forall. intros Hl n Hn. apply Hl.
  by apply (proj1 (elem_of_sorted _ _)).
Qed.

(** Two directories that give the same name tuple and the same contents
    tuple are at the same path and hold the same files. *)
Lemma same_key_same_files root1 rel1 level1 root2 rel2 level2 :
  wf_tree root1 = true → wf_tree root2 = true →
  subdir rel1 root1 level1 → subdir rel2 root2 level2 →
  files level1 ≠ [] →
  level_name_tuple rel1 (files level1).*1
  = level_name_tuple rel2 (files level2).*1 →
  (sorted_files (files level1)).*2 = (sorted_files (files level2)).*2 →
  rel1 = rel2 ∧ files level1 ≡ₚ files level2.
Proof.
  intros Hwf1 Hwf2 Hsub1 Hsub2 Hne Hnt Hct.
  destruct (level_valid _ _ _ Hwf1 Hsub1) as [Hrel1 Hfs1].
  destruct (level_valid _ _ _ Hwf2 Hsub2) as [Hrel2 Hfs2].
  assert (rel1 = rel2) as <-.
  { apply (level_name_tuple_inj rel1 (files level1).*1 rel2 (files level2).*1);
      [done..| |done]. by intros ?%fmap_nil_inv. }
  split; [done|].
  destruct (subdir_wf _ _ _ Hwf1 Hsub1) as [Hl1 _].
  destruct (subdir_wf _ _ _ Hwf2 Hsub2) as [Hl2 _].
  destruct level1 as [fs1 ds1], level2 as [fs2 ds2]. cbn [files] in *.
  apply wf_tree_Dir in Hl1 as (Hnd1 & _). apply wf_tree_Dir in Hl2 as (Hnd2 & _).
  unfold level_name_tuple in Hnt.
  apply fmap_join_inj in Hnt; [|done|by apply Forall_valid_sorted..].
  rewrite <-!fst_sorted_files in Hnt.
  rewrite <-(sorted_files_Permutation fs1), <-(sorted_files_Permutation fs2)
    by done.
  by rewrite (fst_snd_eq _ _ Hnt Hct).
Qed.

Lemma same_files_same_key rel (fs1 fs2 : list (string * list Byte.byte)) :
  NoDup fs1.*1 → fs1 ≡ₚ fs2 →
  level_name_tuple rel fs1.*1 = level_name_tuple rel fs2.*1
  ∧ (sorted_files fs1).*2 = (sorted_files fs2).*2.
Proof.
  intros Hnd Hp. split.
  - unfold level_name_tuple.
    by rewrite (sorted_Permutation fs1.*1 fs2.*1) by by rewrite Hp.
  - by rewrite (sorted_files_Permutation_eq fs1 fs2).
Qed.

Lemma elem_of_members_run mutants program st nt ct mid :
  wf_tree mutants = true → tce_loops mutants program = Ok st →
  mid ∈ members st nt ct ↔
    (∃ root rel level,
       (mid, root) ∈ dirs mutants ∧ subdir rel root level ∧ files level ≠ []
       ∧ nt = level_name_tuple rel (files level).*1
       ∧ ct = (sorted_files (files level)).*2)
    ∨ (mid = "0" ∧ artifact_level mutants nt
       ∧ read_name_tuple_from_root nt program = Ok ct).
Proof.
  intros Hwf (evs1 & evs2 & H1 & _ & H2 & ->)%tce_loops_Ok.
  rewrite elem_of_members_replay by apply inv_init.
  rewrite elem_of_app, (elem_of_index_events_wf _ _ _ _ _ Hwf H1),
    (elem_of_baseline_events _ _ _ _ _ _ H2), (keys_index _ _ _ Hwf H1).
  split.
  - intros [Hin|[Hin|(Hk & Hz & Hr)]];
      [by apply elem_of_empty in Hin|by left|by right].
  - intros [Hin|(Hz & Hk & Hr)]; right; [by left|by right].
Qed.

Lemma elem_of_all_equivalences st c :
  inv st →
  c ∈ all_equivalences (summarize st)
  ↔ ∃ nt ct, members st nt ct = c ∧ 2 ≤ size c.
Proof.
  intros Hinv. cbn [summarize all_equivalences]. rewrite list_elem_of_fmap.
  split.
  - intros (l & -> & Hl). apply (inv_ns _ Hinv) in Hl.
    destruct (decide (l < length (heap st))) as [Hlt|Hge].
    + destruct (inv_surj _ Hinv l Hlt) as (nt & ct & Hnt).
      exists nt, ct. unfold members. rewrite Hnt. by split.
    + rewrite deref_ge, size_empty in Hl by lia. lia.
  - intros (nt & ct & <- & Hsize). unfold members in *.
    destruct (lookup_class st nt ct) as [l|] eqn:Hl; cbn in *.
    + exists l. split; [done|]. by apply (inv_ns _ Hinv).
    + rewrite size_empty in Hsize. lia.
Qed.

Lemma run_tce_Ok mutants program r :
  run_tce mutants program = Ok r →
  ∃ st, tce_loops mutants program = Ok st ∧ inv st ∧ r = summarize st.
Proof.
  unfold run_tce.
  destruct (tce_loops mutants program) as [st|] eqn:Hst; cbn; [|done].
  intros [= <-]. exists st. split_and!; [done| |done]. by eapply tce_loops_inv.
Qed.

Lemma dirs_root_unique mutants mid root root' :
  wf_tree mutants = true →
  (mid, root) ∈ dirs mutants → (mid, root') ∈ dirs mutants → root = root'.
Proof.
  intros Hwf Hin Hin'. destruct mutants as [fs ds].
  apply wf_tree_Dir in Hwf as (_ & Hnd & _). cbn [dirs] in *.
  by pose proof (NoDup_fmap_elem_inj fst ds _ _ Hnd Hin Hin' eq_refl) as [= ->].
Qed.

Lemma size_two (c : gset string) x y : x ≠ y → x ∈ c → y ∈ c → 2 ≤ size c.
Proof.
  intros Hne Hx Hy.
  assert (({[x]} ∪ {[y]} : gset string) ⊆ c) as Hsub by set_solver.
  apply subseteq_size in Hsub.
  rewrite size_union, !size_singleton in Hsub by set_solver. done.
Qed.

Lemma elem_of_mids mutants mid root :
  (mid, root) ∈ dirs mutants → mid ∈ (dirs mutants).*1.
Proof. intros Hin. apply list_elem_of_fmap. by exists (mid, root). Qed.

(** X14: which mutants are reported together.  In a run on well-formed
    mutant trees with no mutant called ["0"], two different mutants are
    members of a common reported class exactly when they have a directory
    at the same path, relative to their roots, that holds at least one
    file and holds the same files in both: the same names with the same
    bytes, in whatever order the directories are listed. *)
Theorem redundant_iff_same_files mutants program r mid1 root1 mid2 root2 :
  wf_tree mutants = true → "0" ∉ (dirs mutants).*1 →
  run_tce mutants program = Ok r →
  (mid1, root1) ∈ dirs mutants → (mid2, root2) ∈ dirs mutants →
  mid1 ≠ mid2 →
  (∃ c, c ∈ all_equivalences r ∧ mid1 ∈ c ∧ mid2 ∈ c)
  ↔ ∃ rel level1 level2,
      subdir rel root1 level1 ∧ subdir rel root2 level2
      ∧ files level1 ≠ [] ∧ files level1 ≡ₚ files level2.
Proof.
  intros Hwf Hzero (st & Hst & Hinv & ->)%run_tce_Ok Hin1 Hin2 Hne.
  pose proof (wf_dirs _ _ _ Hwf Hin1) as Hwf1.
  pose proof (wf_dirs _ _ _ Hwf Hin2) as Hwf2.
  split.
  - intros (c & (nt & ct & <- & _)%elem_of_all_equivalences & Hm1 & Hm2);
      [|done].
    apply (elem_of_members_run _ _ _ _ _ _ Hwf Hst) in Hm1
      as [(r1 & rel1 & level1 & Hr1 & Hsub1 & Hne1 & Hnt1 & Hct1)|[-> _]].
    2: { destruct Hzero. by eapply elem_of_mids. }
    apply (elem_of_members_run _ _ _ _ _ _ Hwf Hst) in Hm2
      as [(r2 & rel2 & level2 & Hr2 & Hsub2 & Hne2 & Hnt2 & Hct2)|[-> _]].
    2: { destruct Hzero. by eapply elem_of_mids. }
    pose proof (dirs_root_unique _ _ _ _ Hwf Hin1 Hr1) as <-.
    pose proof (dirs_root_unique _ _ _ _ Hwf Hin2 Hr2) as <-.
    destruct (same_key_same_files root1 rel1 level1 root2 rel2 level2)
      as [<- Hp]; [done..|congruence|congruence|].
    by exists rel1, level1, level2.
  - intros (rel & level1 & level2 & Hsub1 & Hsub2 & Hne1 & Hp).
    destruct (subdir_wf _ _ _ Hwf1 Hsub1) as [Hl1 _].
    assert (NoDup (files level1).*1) as Hnd.
    { destruct level1. by apply wf_tree_Dir in Hl1 as (? & _). }
    destruct (same_files_same_key rel _ _ Hnd Hp) as [Hnt Hct].
    set (nt := level_name_tuple rel (files level1).*1).
    set (ct := (sorted_files (files level1)).*2).
    assert (mid1 ∈ members st nt ct) as Hm1.
    { apply (elem_of_members_run _ _ _ _ _ _ Hwf Hst). left.
      by exists root1, rel, level1. }
    assert (mid2 ∈ members st nt ct) as Hm2.
    { apply (elem_of_members_run _ _ _ _ _ _ Hwf Hst). left.
      exists root2, rel, level2. split_and!; [done..| |done|done].
      intros Hnil. rewrite Hnil in Hp. by apply Permutation_nil_r in Hp. }
    exists (members st nt ct). split_and!; [|done..].
    apply elem_of_all_equivalences; [done|]. exists nt, ct.
    split; [done|]. by apply (size_two _ mid1 mid2).
Qed.

Lemma redundant_iff_same_files_witness :
  wf_tree two_level_mutants = true
  ∧ ("0" ∉ (dirs two_level_mutants).*1)
  ∧ run_tce two_level_mutants two_level_program
    = Ok (summarize (replay (two_level_index_events ++ two_level_baseline_events)
                            init))
  ∧ ∃ c,
      c ∈ all_equivalences
            (summarize (replay (two_level_index_events
                                  ++ two_level_baseline_events) init))
      ∧ "1" ∈ c ∧ "2" ∈ c.
Proof.
  assert ("0" ∉ (dirs two_level_mutants).*1) as Hzero.
  { cbn. intros [?|[?|[]%elem_of_nil]%elem_of_cons]%elem_of_cons; done. }
  assert (run_tce two_level_mutants two_level_program
          = Ok (summarize (replay (two_level_index_events
                                     ++ two_level_baseline_events) init)))
    as Hrun by (by vm_compute).
  split_and!; [by vm_compute|done..|].
  refine (proj2 (redundant_iff_same_files two_level_mutants two_level_program
                   _ "1" _ "2" _ eq_refl Hzero Hrun _ _ _) _).
  - by left.
  - right. by left.
  - done.
  - eexists [], _, _. split_and!; [constructor|constructor|done|done].
Defined.

Lemma read_sorted_files (root : tree) rel fs :
  NoDup fs.*1 →
  read_name_tuple_from_root (level_name_tuple rel fs.*1) root
  = Ok (sorted_files fs).*2
  ↔ ∀ n b, (n, b) ∈ fs →
      open_read root (os_path_join (os_path_relpath rel) n) = Ok b.
Proof.
  intros Hnd. rewrite level_name_tuple_sorted_files.
  unfold read_name_tuple_from_root.
  assert (∀ sf : list (string * list Byte.byte),
            mapM (open_read root)
                 (os_path_join (os_path_relpath rel) <$> sf.*1) = Ok sf.*2
            ↔ ∀ n b, (n, b) ∈ sf →
                open_read root (os_path_join (os_path_relpath rel) n) = Ok b)
    as Hgen.
  { clear. induction sf as [|[n b] sf IH]; csimpl.
    { split; [by intros _ ? ? ?%elem_of_nil|done]. }
    destruct (open_read root _) as [b'|e] eqn:Hb; cbn.
    - destruct (mapM (open_read root) _) as [k|e] eqn:Hk; cbn.
      + split.
        * intros [= -> ->] n' c [[= -> ->]|Hin]%elem_of_cons; [done|].
          by apply IH.
        * intros Hall. rewrite (Hall n b) in Hb by by left.
          injection Hb as <-. f_equal. f_equal.
          assert (Ok k = Ok sf.*2) as [= ->]; [|done].
          apply IH. intros n' c Hin. apply Hall. by right.
      + split; [done|]. intros Hall.
        assert (Raise e = Ok sf.*2) as ?; [|done].
        apply IH. intros n' c Hin. apply Hall. by right.
    - split; [done|]. intros Hall. rewrite (Hall n b) in Hb by by left. done. }
  rewrite Hgen. pose proof (sorted_files_Permutation fs Hnd) as Hp.
  split; intros Hall n b Hin; apply Hall; [by rewrite Hp|by rewrite <-Hp].
Qed.

(** X15: which mutants are reported as equivalent.  In a run on
    well-formed mutant trees with no mutant called ["0"], a mutant is a
    member of a class of equivalent mutants exactly when it has a
    directory that holds at least one file and all of whose files are
    found, at the same paths relative to the root, in the original
    program with the same bytes. *)
Theorem equivalent_iff_original_files mutants program r mid root :
  wf_tree mutants = true → "0" ∉ (dirs mutants).*1 →
  run_tce mutants program = Ok r →
  (mid, root) ∈ dirs mutants →
  (∃ c, c ∈ equivalent_mutants r ∧ mid ∈ c)
  ↔ ∃ rel level,
      subdir rel root level ∧ files level ≠ []
      ∧ ∀ n b, (n, b) ∈ files level →
          open_read program (os_path_join (os_path_relpath rel) n) = Ok b.
Proof.
  intros Hwf Hzero (st & Hst & Hinv & ->)%run_tce_Ok Hin.
  pose proof (wf_dirs _ _ _ Hwf Hin) as Hwf1.
  assert (mid ≠ "0") as Hmid.
  { intros ->. destruct Hzero. by eapply elem_of_mids. }
  cbn [summarize equivalent_mutants].
  change (deref st <$> nonsingleton_equivalence_classes st)
    with (all_equivalences (summarize st)).
  split.
  - intros (c & Hc & Hm). apply list_elem_of_filter in Hc as [Hz Hc].
    apply elem_of_all_equivalences in Hc as (nt & ct & <- & _); [|done].
    apply (elem_of_members_run _ _ _ _ _ _ Hwf Hst) in Hm
      as [(r1 & rel & level & Hr1 & Hsub & Hne & -> & ->)|[-> _]]; [|done].
    pose proof (dirs_root_unique _ _ _ _ Hwf Hin Hr1) as <-.
    apply (elem_of_members_run _ _ _ _ _ _ Hwf Hst) in Hz
      as [(r0 & _ & _ & Hr0 & _)|(_ & _ & Hread)].
    { destruct Hzero. by eapply elem_of_mids. }
    exists rel, level. split_and!; [done..|].
    apply read_sorted_files; [|done].
    destruct (subdir_wf _ _ _ Hwf1 Hsub) as [Hl _].
    destruct level. by apply wf_tree_Dir in Hl as (? & _).
  - intros (rel & level & Hsub & Hne & Hall).
    destruct (subdir_wf _ _ _ Hwf1 Hsub) as [Hl _].
    assert (NoDup (files level).*1) as Hnd.
    { destruct level. by apply wf_tree_Dir in Hl as (? & _). }
    apply read_sorted_files in Hall; [|done].
    set (nt := level_name_tuple rel (files level).*1) in *.
    set (ct := (sorted_files (files level)).*2) in *.
    assert (mid ∈ members st nt ct) as Hm.
    { apply (elem_of_members_run _ _ _ _ _ _ Hwf Hst). left.
      by exists root, rel, level. }
    assert ("0" ∈ members st nt ct) as Hz.
    { apply (elem_of_members_run _ _ _ _ _ _ Hwf Hst). right.
      split_and!; [done| |done]. by exists mid, root, rel, level. }
    exists (members st nt ct). split; [|done].
    apply list_elem_of_filter. split; [done|].
    apply elem_of_all_equivalences; [done|]. exists nt, ct.
    split; [done|]. by apply (size_two _ mid "0").
Qed.

Lemma equivalent_iff_original_files_witness :
  wf_tree two_level_mutants = true
  ∧ ("0" ∉ (dirs two_level_mutants).*1)
  ∧ run_tce two_level_mutants two_level_program
    = Ok (summarize (replay (two_level_index_events ++ two_level_baseline_events)
                            init))
  ∧ ∃ c,
      c ∈ equivalent_mutants
            (summarize (replay (two_level_index_events
                                  ++ two_level_baseline_events) init))
      ∧ "2" ∈ c.
Proof.
  assert ("0" ∉ (dirs two_level_mutants).*1) as Hzero.
  { cbn. intros [?|[?|[]%elem_of_nil]%elem_of_cons]%elem_of_cons; done. }
  assert (run_tce two_level_mutants two_level_program
          = Ok (summarize (replay (two_level_index_events
                                     ++ two_level_baseline_events) init)))
    as Hrun by (by vm_compute).
  split_and!; [by vm_compute|done..|].
  refine (proj2 (equivalent_iff_original_files two_level_mutants
                   two_level_program _ "2" _ eq_refl Hzero Hrun _) _).
  - right. by left.
  - eexists [], _. split_and!; [constructor|done|].
    intros n b [[= -> ->]|[]%elem_of_nil]%elem_of_cons. by vm_compute.
Defined.

(** *** The counts and the members of the classes *)

Lemma sum_size_filter (P : gset string → Prop) `{∀ c, Decision (P c)}
    (classes : list (gset string)) :
  sum_list (size <$> classes)
  = sum_list (size <$> filter P classes)
    + sum_list (size <$> filter (λ c, ¬ P c) classes)
  ∧ length classes
    = length (filter P classes) + length (filter (λ c, ¬ P c) classes).
Proof.
  induction classes as [|c classes [IH1 IH2]]; [done|].
  rewrite !filter_cons. destruct (decide (P c)) as [Hc|Hc].
  - rewrite decide_False by tauto. csimpl. lia.
  - rewrite decide_True by done. csimpl. lia.
Qed.

Lemma sum_size_ge (classes : list (gset string)) :
  Forall (λ c, 2 ≤ size c) classes →
  2 * length classes ≤ sum_list (size <$> classes).
Proof. induction 1 as [|c classes Hc _ IH]; csimpl; lia. Qed.

(** X16: the three counts of the summary of a run.  The total is the sum
    of the count of the equivalent mutants and the count of the
    redundant mutants, every reported class is in exactly one of the two
    lists, and every reported class adds at least one to the total. *)
Theorem counts_split mutants program r :
  run_tce mutants program = Ok r →
  num_total_equivalences r
  = (num_equiv_mutants r + num_redundant_mutants r)%Z
  ∧ length (all_equivalences r)
    = length (equivalent_mutants r) + length (redundant_mutants r)
  ∧ (Z.of_nat (length (all_equivalences r)) ≤ num_total_equivalences r)%Z.
Proof.
  intros (st & Hst & Hinv & ->)%run_tce_Ok.
  cbn [summarize num_total_equivalences num_equiv_mutants
       num_redundant_mutants all_equivalences equivalent_mutants
       redundant_mutants].
  set (classes := deref st <$> nonsingleton_equivalence_classes st).
  destruct (sum_size_filter (λ c, "0" ∈ c) classes) as [Hsum Hlen].
  assert (Forall (λ c, 2 ≤ size c) classes) as Hge.
  { apply Forall_forall. intros c (l & -> & Hl)%list_elem_of_fmap.
    by apply (inv_ns _ Hinv). }
  apply sum_size_ge in Hge. unfold count_duplicates. lia.
Qed.

Lemma counts_split_witness :
  run_tce two_level_mutants two_level_program
  = Ok (summarize (replay (two_level_index_events ++ two_level_baseline_events)
                          init))
  ∧ num_total_equivalences
      (summarize (replay (two_level_index_events ++ two_level_baseline_events)
                         init))
    = (num_equiv_mutants
         (summarize (replay (two_level_index_events
                               ++ two_level_baseline_events) init))
       + num_redundant_mutants
           (summarize (replay (two_level_index_events
                                 ++ two_level_baseline_events) init)))%Z.
Proof.
  assert (run_tce two_level_mutants two_level_program
          = Ok (summarize (replay (two_level_index_events
                                     ++ two_level_baseline_events) init)))
    as Hrun by (by vm_compute).
  split; [done|]. apply (counts_split _ _ _ Hrun).
Defined.

Lemma elem_of_class_run mutants program st nt ct x :
  tce_loops mutants program = Ok st →
  x ∈ members st nt ct → x = "0" ∨ x ∈ (dirs mutants).*1.
Proof.
  intros (evs1 & evs2 & H1 & _ & H2 & ->)%tce_loops_Ok.
  rewrite elem_of_members_replay by apply inv_init.
  rewrite elem_of_app, (elem_of_index_events _ _ _ _ _ H1),
    (elem_of_baseline_events _ _ _ _ _ _ H2).
  intros [Hin|[(root & _ & _ & _ & Hin & _)|(_ & -> & _)]].
  - by apply elem_of_empty in Hin.
  - right. by eapply elem_of_mids.
  - by left.
Qed.

(** X17: every class that a run reports has at least two members, and
    its members are names of mutant directories or the id ["0"] of the
    original program. *)
Theorem reported_classes_members mutants program r c :
  run_tce mutants program = Ok r → c ∈ all_equivalences r →
  2 ≤ size c ∧ ∀ x, x ∈ c → x = "0" ∨ x ∈ (dirs mutants).*1.
Proof.
  intros (st & Hst & Hinv & ->)%run_tce_Ok
    (nt & ct & <- & Hsize)%elem_of_all_equivalences; [|done].
  split; [done|]. intros x Hx. by eapply elem_of_class_run.
Qed.

Lemma reported_classes_members_witness :
  run_tce two_level_mutants two_level_program
  = Ok (summarize (replay (two_level_index_events ++ two_level_baseline_events)
                          init))
  ∧ ({["0"; "1"; "2"]} : gset string)
      ∈ all_equivalences
          (summarize (replay (two_level_index_events
                                ++ two_level_baseline_events) init))
  ∧ 2 ≤ size ({["0"; "1"; "2"]} : gset string).
Proof.
  assert (run_tce two_level_mutants two_level_program
          = Ok (summarize (replay (two_level_index_events
                                     ++ two_level_baseline_events) init)))
    as Hrun by (by vm_compute).
  assert (({["0"; "1"; "2"]} : gset string)
            ∈ all_equivalences
                (summarize (replay (two_level_index_events
                                      ++ two_level_baseline_events) init)))
    as Hin.
  { apply elem_of_all_equivalences; [apply inv_replay, inv_init|].
    exists ["./A.class"], [[Byte.x01]]. split; [by vm_compute|vm_compute; lia]. }
  split_and!; [done..|].
  apply (reported_classes_members _ _ _ _ Hrun Hin).
Defined.
End TceMore.

(** ** The files of a run, read by the comparator *)

Module OutputFacts.
Import PyDict Tce Comparator TceFacts TextFacts FilesFacts TceMore.

Lemma iterations_filter (P : gset string → Prop)
    (H1 : ∀ c, Decision (P c))
    (H2 : ∀ cl : gset string * list string, Decision (P cl.1))
    (classes : list (gset string)) (ls : list (list string)) :
  iterations classes ls →
  iterations (@filter _ _ _ P H1 classes)
             (@filter _ _ _ (λ cl, P cl.1) H2 (zip classes ls)).*2.
Proof.
  unfold iterations. induction 1 as [|c l classes ls Hl _ IH]; [constructor|].
  cbn [zip zip_with]. rewrite !filter_cons.
  destruct (@decide _ (H1 c)) as [Hc|Hc],
    (@decide _ (H2 (c, l))) as [Hc'|Hc']; csimpl;
    [by constructor|done|done|done].
Qed.

Lemma iterations_lines (classes : list (gset string)) (ls : list (list string)) :
  Forall (λ c, 2 ≤ size c ∧ ∀ x, x ∈ c → token x = true) classes →
  iterations classes ls →
  Forall (λ l, l ≠ [] ∧ Forall (λ w, token w = true) l) ls.
Proof.
  intros Hcs Hit. unfold iterations in Hit.
  induction Hit as [|c l classes ls Hl _ IH]; [constructor|].
  apply Forall_cons in Hcs as [[Hsize Htok] Hcs].
  constructor; [|by apply IH]. split.
  - intros ->. apply Permutation_nil_l in Hl. symmetry in Hl.
    apply elements_empty_inv in Hl. apply leibniz_equiv in Hl.
    rewrite Hl, size_empty in Hsize. lia.
  - apply Forall_forall. intros w Hw. apply Htok.
    apply elem_of_elements. by rewrite <-Hl.
Qed.

(** X18: the three files that a run writes are read back by the
    comparator.  When the names of the mutant directories are not empty
    and hold no space character, each file, cut into lines and parsed,
    gives one class for each set of the list it was written from, in the
    order of the list, and the ids of the class are the members of the
    set, each once. *)
Theorem output_files_read_back mutants program r ls :
  run_tce mutants program = Ok r →
  Forall (λ mid, token mid = true) (dirs mutants).*1 →
  iterations (all_equivalences r) ls →
  read_equivs (readlines (output_files r ls).1.1) = ls
  ∧ iterations (equivalent_mutants r)
               (read_equivs (readlines (output_files r ls).1.2))
  ∧ iterations (redundant_mutants r)
               (read_equivs (readlines (output_files r ls).2)).
Proof.
  intros Hrun Hmids Hit.
  destruct (run_tce_Ok _ _ _ Hrun) as (st & Hst & Hinv & ->).
  assert (Forall (λ c, 2 ≤ size c ∧ ∀ x, x ∈ c → token x = true)
                 (all_equivalences (summarize st))) as Hcs.
  { apply Forall_forall.
    intros c (nt & ct & <- & Hsize)%elem_of_all_equivalences; [|done].
    split; [done|]. intros x Hx.
    destruct (elem_of_class_run _ _ _ _ _ _ Hst Hx) as [->|Hin]; [done|].
    rewrite Forall_forall in Hmids. by apply Hmids. }
  assert (∀ (P : gset string → Prop) (H1 : ∀ c, Decision (P c))
            (H2 : ∀ cl : gset string * list string, Decision (P cl.1)),
            iterations
              (@filter _ _ _ P H1 (all_equivalences (summarize st)))
              (read_equivs (readlines (write_lines
                 (@filter _ _ _ (λ cl, P cl.1) H2
                    (zip (all_equivalences (summarize st)) ls)).*2))))
    as Hfilter.
  { intros P H1 H2.
    pose proof (iterations_filter P H1 H2 _ _ Hit) as Hit'.
    rewrite read_equivs_write_lines; [done|].
    eapply iterations_lines; [|done].
    apply Forall_forall. intros c [_ Hc]%list_elem_of_filter.
    rewrite Forall_forall in Hcs. by apply Hcs. }
  unfold output_files. cbn [fst snd]. split_and!.
  - apply read_equivs_write_lines. by eapply iterations_lines.
  - apply (Hfilter (λ c, "0" ∈ c)).
  - apply (Hfilter (λ c, "0" ∉ c)).
Qed.

Lemma output_files_read_back_witness :
  run_tce two_level_mutants two_level_program
  = Ok (summarize (replay (two_level_index_events ++ two_level_baseline_events)
                          init))
  ∧ Forall (λ mid, token mid = true) (dirs two_level_mutants).*1
  ∧ read_equivs
      (readlines
         (output_files
            (summarize (replay (two_level_index_events
                                  ++ two_level_baseline_events) init))
            (elements
               <$> all_equivalences
                     (summarize (replay (two_level_index_events
                                           ++ two_level_baseline_events)
                                        init)))).1.1)
    = elements
        <$> all_equivalences
              (summarize (replay (two_level_index_events
                                    ++ two_level_baseline_events) init)).
Proof.
  assert (run_tce two_level_mutants two_level_program
          = Ok (summarize (replay (two_level_index_events
                                     ++ two_level_baseline_events) init)))
    as Hrun by (by vm_compute).
  assert (Forall (λ mid, token mid = true) (dirs two_level_mutants).*1)
    as Hmids by (repeat constructor).
  split_and!; [done..|].
  apply (output_files_read_back _ _ _ _ Hrun Hmids).
  apply Forall2_fmap_r, Forall_Forall2_diag, Forall_forall.
  intros c _. unfold compose. reflexivity.
Defined.
End OutputFacts.

(** ** The progress bar *)

Module BarFacts.
Import Tce PathFacts TextFacts.

Lemma length_sapp (a b : string) :
  String.length (a +:+ b) = String.length a + String.length b.
Proof.
  induction a as [|c a IH]; [done|]. rewrite append_cons. cbn. by rewrite IH.
Qed.

Lemma length_str_repeat c n : String.length (str_repeat c n) = Z.to_nat n.
Proof.
  unfold str_repeat. induction (Z.to_nat n) as [|k IH]; [done|].
  rewrite Nat.iter_succ. cbn [String.length]. by rewrite IH.
Qed.

Lemma str_repeat_nonpos c n : (n ≤ 0)%Z → str_repeat c n = "".
Proof. intros Hn. unfold str_repeat. by replace (Z.to_nat n) with 0 by lia. Qed.

(** X19: the bar that [progress] prints.  For [0 <= done <= total],
    [total > 0] and a summary that leaves room for the brackets, the
    text after the carriage return is exactly [width] characters long;
    when [done = total] the bar holds no space, and when [done = 0] it
    holds no block. *)
Theorem progress_bar_width (summary : string) (done total width : Z) :
  (0 ≤ done ≤ total)%Z → (0 < total)%Z →
  (Z.of_nat (String.length summary) + 2 ≤ width)%Z →
  String.length (progress_bar summary done total width) = S (Z.to_nat width)
  ∧ (done = total →
     progress_bar summary done total width
     = String "013" (String "["
         (str_repeat "#" (width - Z.of_nat (String.length summary) - 2)
          +:+ String "]" summary)))
  ∧ (done = 0%Z →
     progress_bar summary done total width
     = String "013" (String "["
         (str_repeat " " (width - Z.of_nat (String.length summary) - 2)
          +:+ String "]" summary))).
Proof.
  intros Hdone Htotal Hwidth. unfold progress_bar.
  set (bar_width := (width - Z.of_nat (String.length summary) - 2)%Z).
  assert (0 ≤ bar_width)%Z as Hbw by lia.
  assert (0 ≤ (bar_width * done) `div` total ≤ bar_width)%Z as Hblocks.
  { split; [apply Z.div_pos; nia|]. apply Z.div_le_upper_bound; nia. }
  split_and!.
  - cbn [String.length]. rewrite !length_sapp, !length_str_repeat.
    cbn [String.length]. lia.
  - intros ->. rewrite Z.div_mul by lia. rewrite Z.sub_diag.
    by rewrite (str_repeat_nonpos " " 0) by lia.
  - intros ->. rewrite Z.mul_0_r, Z.div_0_l by lia.
    rewrite Z.sub_0_r. by rewrite (str_repeat_nonpos "#" 0) by lia.
Qed.

Lemma progress_bar_width_witness :
  String.length (progress_bar "(5 of 10 | 50.00%)" 5 10 80) = 81.
Proof.
  apply (progress_bar_width "(5 of 10 | 50.00%)" 5 10 80); [lia|lia|].
  vm_compute. by intros [=].
Defined.
End BarFacts.
